(** * Fleet dashboard core (src/App.tsx): a shallow embedding

    The data reconciler, the status and alert evaluator, the metric parsers,
    the PM2 toast throttle, the reconnect backoff and the pager of
    [src/App.tsx], written as Rocq functions, followed by the properties the
    specification states about them.

    Conventions.
    - A JavaScript [number] is an IEEE 754 binary64 value: Rocq's primitive
      [float].  [a > b] is [b <? a], [a >= b] is [b <=? a]; both are false
      as soon as one side is NaN, as in JavaScript.
    - An optional field ([f?: T]) is an [option]; [error?: string | null]
      has three states and is a [nullable].
    - [pm2BadCount] is only ever produced by [Array.prototype.length] in the
      two stats parsers, so it is a [nat].
    - Strings are byte strings (UTF-8). *)

From Stdlib Require Import PrimFloat Ascii String.
From stdpp Require Import gmap strings list pretty.
From Equations Require Import Equations.

Set Warnings "-inexact-float,-register-all,-clear-no-such-hyp".

(** ** JavaScript values *)

Definition number := float.

(** [x?: T | null]: absent, [null], or a value. *)
Inductive nullable (A : Type) : Type :=
| Undefined
| Null
| Value (a : A).
Arguments Undefined {A}.
Arguments Null {A}.
Arguments Value {A} a.

(** [a ?? b] on an optional value. *)
Definition nullish {A} (a b : option A) : option A :=
  match a with
  | Some x => Some x
  | None => b
  end.
Infix "??" := nullish (at level 61, left associativity).

(** [a ?? null] where [a : string | undefined]. *)
Definition or_null {A} (a : option A) : nullable A :=
  match a with
  | Some x => Value x
  | None => Null
  end.

(** [a ?? null] where [a : string | null | undefined]. *)
Definition nullable_or_null {A} (a : nullable A) : nullable A :=
  match a with
  | Value x => Value x
  | _ => Null
  end.

(** Truthiness of a string: every string but the empty one. *)
Definition truthy_string (s : string) : bool :=
  match s with
  | EmptyString => false
  | String _ _ => true
  end.

(** Truthiness of a number: every number but [0], [-0] and NaN. *)
Definition truthy_number (n : number) : bool :=
  negb (PrimFloat.is_zero n || PrimFloat.is_nan n).

Definition truthy_error (e : nullable string) : bool :=
  match e with
  | Value s => truthy_string s
  | _ => false
  end.

Definition gtb (a b : number) : bool := (b <? a)%float.
Definition geb (a b : number) : bool := (b <=? a)%float.
Arguments gtb (a b)%_float.
Arguments geb (a b)%_float.

(** [Math.max] and [Math.min] on two arguments: NaN is contagious, and
    [+0] is larger than [-0]. *)
Definition Math_max (a b : number) : number :=
  if PrimFloat.is_nan a || PrimFloat.is_nan b then PrimFloat.nan
  else if (a <? b)%float then b
  else if (b <? a)%float then a
  else if PrimFloat.get_sign a then b else a.

Definition Math_min (a b : number) : number :=
  if PrimFloat.is_nan a || PrimFloat.is_nan b then PrimFloat.nan
  else if (a <? b)%float then a
  else if (b <? a)%float then b
  else if PrimFloat.get_sign a then a else b.

(** [String.prototype.toLowerCase], on the ASCII letters.  The only use is
    the comparison with ["online"], and a string that holds a character
    outside ASCII never lower-cases to ["online"], so mapping A-Z alone
    decides the comparison as JavaScript does. *)
Definition lower_ascii (c : ascii) : ascii :=
  let n := nat_of_ascii c in
  if (65 <=? n)%nat && (n <=? 90)%nat then ascii_of_nat (n + 32) else c.

Fixpoint toLowerCase (s : string) : string :=
  match s with
  | EmptyString => EmptyString
  | String c rest => String (lower_ascii c) (toLowerCase rest)
  end.

(** [Array.prototype.slice(start, end)] for indices within [0, 2^53). *)
Definition slice {A} (items : list A) (start stop : nat) : list A :=
  take (stop - start) (drop start items).

(** [new Map(pairs)]: the pairs are inserted in order, a later pair
    overwrites an earlier one with the same key. *)
Definition Map_new {V} (pairs : list (string * V)) : gmap string V :=
  foldl (fun m p => <[p.1 := p.2]> m) ∅ pairs.

(** [new Map(l.map((x) => [key(x), x]))] *)
Definition keyed {V} (key : V -> string) (l : list V) : gmap string V :=
  Map_new (map (fun x => (key x, x)) l).

(** ** Parsed JSON ([unknown])

    What [JSON.parse] or the HTTP client hands over.  An object lists its
    own properties, each name once.  A property read that finds nothing is
    [undefined]: [None].  An array is a record for [isRecord], and has none
    of the property names the parsers read. *)
Inductive json : Type :=
| JNull
| JBool (b : bool)
| JNumber (n : number)
| JString (s : string)
| JArray (items : list json)
| JObject (props : list (string * json)).

Fixpoint assoc (props : list (string * json)) (k : string) : option json :=
  match props with
  | [] => None
  | (k', v) :: rest => if String.eqb k' k then Some v else assoc rest k
  end.

(** [value.k] on a value already known to be a record. *)
Definition prop (value : option json) (k : string) : option json :=
  match value with
  | Some (JObject props) => assoc props k
  | _ => None
  end.

Definition isRecord (value : option json) : bool :=
  match value with
  | Some (JObject _) | Some (JArray _) => true
  | _ => false
  end.

Definition toString (value : option json) : option string :=
  match value with
  | Some (JString s) => Some s
  | _ => None
  end.

Definition toNumber (value : option json) : option number :=
  match value with
  | Some (JNumber n) => Some n
  | _ => None
  end.

Definition toBoolean (value : option json) : option bool :=
  match value with
  | Some (JBool b) => Some b
  | _ => None
  end.

Definition toStringArray (value : option json) : list string :=
  match value with
  | Some (JArray items) => omap (fun item => toString (Some item)) items
  | _ => []
  end.

(** ** Data model *)

Module ServerStats.
Record t : Type := mk {
  cpuUsage : option number;
  memoryTotal : option number;
  memoryUsed : option number;
  diskTotal : option number;
  diskUsed : option number;
  uptime : option string;
  pm2Procs : option number;
  pm2Mem : option number;
  pm2BadCount : option nat;
  pm2BadNames : option (list string);
  supervisorTotal : option number;
  supervisorRunning : option number;
  error : nullable string;
}.
End ServerStats.

Module ServerEntry.
Record t : Type := mk {
  id : string;
  name : string;
  host : string;
  enabled : bool;
  tags : list string;
  stats : option ServerStats.t;
  lastUpdate : option number;
}.
End ServerEntry.

Module StatusKey.
Inductive t : Set := ok | warn | down | idle | stale | disabled.
End StatusKey.

Module StatusInfo.
Record t : Type := mk { key : StatusKey.t; label : string }.
End StatusInfo.

Module IncomingServerListItem.
Record t : Type := mk {
  server_id : string;
  server_name : option string;
  host : option string;
  enabled : bool;
  tags : list string;
}.
End IncomingServerListItem.

Module IncomingServerUpdate.
Record t : Type := mk {
  server_id : string;
  error : nullable string;
  cpuUsage : option number;
  memoryTotal : option number;
  memoryUsed : option number;
  diskTotal : option number;
  diskUsed : option number;
  uptime : option string;
  pm2Procs : option number;
  pm2Mem : option number;
  pm2BadCount : option nat;
  pm2BadNames : option (list string);
  supervisorTotal : option number;
  supervisorRunning : option number;
}.
End IncomingServerUpdate.

Module IncomingServerError.
Record t : Type := mk {
  server_id : string;
  error : option string;
}.
End IncomingServerError.

(** [item.stats?.f] *)
Definition stats_field {A} (f : ServerStats.t -> option A)
    (stats : option ServerStats.t) : option A :=
  match stats with
  | Some st => f st
  | None => None
  end.

(** ** Status and alert evaluator *)

Definition clamp (value min max : number) : number :=
  Math_min max (Math_max min value).
Arguments clamp (value min max)%_float.

Definition percent (part total : option number) : option number :=
  match part, total with
  | Some p, Some t =>
      if (t =? 0)%float then None else Some (clamp ((p / t) * 100)%float 0 100)
  | _, _ => None
  end.

(** [server.lastUpdate ? now - server.lastUpdate : Number.POSITIVE_INFINITY] *)
Definition age (server : ServerEntry.t) (now : number) : number :=
  match ServerEntry.lastUpdate server with
  | Some t => if truthy_number t then (now - t)%float else PrimFloat.infinity
  | None => PrimFloat.infinity
  end.

Definition getStatus (server : ServerEntry.t) (now : number) : StatusInfo.t :=
  if negb (ServerEntry.enabled server) then StatusInfo.mk StatusKey.disabled "Disabled"
  else
    match ServerEntry.stats server with
    | None => StatusInfo.mk StatusKey.idle "Waiting"
    | Some stats =>
        if truthy_error (ServerStats.error stats) then StatusInfo.mk StatusKey.down "Error"
        else if gtb (age server now) 60000 then StatusInfo.mk StatusKey.stale "Stale"
        else
          let memPercent :=
            default 0%float (percent (ServerStats.memoryUsed stats) (ServerStats.memoryTotal stats)) in
          let diskPercent :=
            default 0%float (percent (ServerStats.diskUsed stats) (ServerStats.diskTotal stats)) in
          let cpu := default 0%float (ServerStats.cpuUsage stats) in
          if gtb cpu 85 || gtb memPercent 90 || gtb diskPercent 92
          then StatusInfo.mk StatusKey.warn "Hot"
          else StatusInfo.mk StatusKey.ok "Nominal"
    end.

(** The alert thresholds are read from the environment ([parseEnvNumber],
    defaults 90, 92, 95 and 90000): they are parameters here. *)
Module AlertConfig.
Record t : Type := mk {
  ALERT_CPU : number;
  ALERT_MEMORY : number;
  ALERT_DISK : number;
  ALERT_STALE_MS : number;
}.
Arguments mk (ALERT_CPU ALERT_MEMORY ALERT_DISK ALERT_STALE_MS)%_float.
Definition defaults : t := mk 90 92 95 90000.
End AlertConfig.

Definition shouldAlert (cfg : AlertConfig.t) (server : ServerEntry.t) (now : number) : bool :=
  if negb (ServerEntry.enabled server) then false
  else
    match ServerEntry.stats server with
    | None => false
    | Some stats =>
        if truthy_error (ServerStats.error stats) then true
        else if gtb (age server now) (AlertConfig.ALERT_STALE_MS cfg) then true
        else
          let memPercent :=
            default 0%float (percent (ServerStats.memoryUsed stats) (ServerStats.memoryTotal stats)) in
          let diskPercent :=
            default 0%float (percent (ServerStats.diskUsed stats) (ServerStats.diskTotal stats)) in
          let cpu := default 0%float (ServerStats.cpuUsage stats) in
          let pm2Bad := (0 <? default 0 (ServerStats.pm2BadCount stats))%nat in
          geb cpu (AlertConfig.ALERT_CPU cfg)
          || geb memPercent (AlertConfig.ALERT_MEMORY cfg)
          || geb diskPercent (AlertConfig.ALERT_DISK cfg)
          || pm2Bad
    end.

(** ** Paging *)

(** The body of [for (let i = 0; i < items.length; i += size)], entered only
    when [size > 0]: the step is [S size']. *)
Equations chunk_loop {T} (items : list T) (size' : nat) (i : nat)
    (pages : list (list T)) : list (list T) by wf (length items - i) lt :=
  chunk_loop items size' i pages with lt_dec i (length items) := {
    | left _ := chunk_loop items size' (i + S size')
                  (pages ++ [slice items i (i + S size')]);
    | right _ := pages }.
Next Obligation. lia. Qed.

Definition chunk {T} (items : list T) (size : nat) : list (list T) :=
  match size with
  | 0 => [items]
  | S size' =>
      let pages := chunk_loop items size' 0 [] in
      match pages with
      | [] => [[]]
      | _ :: _ => pages
      end
  end.

(** ** Metric parsers *)

Definition parseServerList (value : option json) : list IncomingServerListItem.t :=
  match value with
  | Some (JArray entries) =>
      foldl (fun results entry =>
        let entry := Some entry in
        if negb (isRecord entry) then results
        else
          match toString (prop entry "server_id") with
          | Some serverId =>
              if negb (truthy_string serverId) then results
              else results ++ [
                {| IncomingServerListItem.server_id := serverId;
                   IncomingServerListItem.server_name := toString (prop entry "server_name");
                   IncomingServerListItem.host := toString (prop entry "host");
                   IncomingServerListItem.enabled := default true (toBoolean (prop entry "enabled"));
                   IncomingServerListItem.tags := toStringArray (prop entry "tags") |} ]
          | None => results
          end) [] entries
  | _ => []
  end.

Definition parseApiServerList (value : option json) : list IncomingServerListItem.t :=
  if negb (isRecord value) then []
  else
    match prop value "servers" with
    | Some (JArray servers) =>
        foldl (fun results entry =>
          let entry := Some entry in
          if negb (isRecord entry) then results
          else
            match toString (prop entry "id") ?? toString (prop entry "server_id") with
            | Some serverId =>
                if negb (truthy_string serverId) then results
                else results ++ [
                  {| IncomingServerListItem.server_id := serverId;
                     IncomingServerListItem.server_name :=
                       toString (prop entry "name") ?? toString (prop entry "server_name");
                     IncomingServerListItem.host := toString (prop entry "host");
                     IncomingServerListItem.enabled := default true (toBoolean (prop entry "enabled"));
                     IncomingServerListItem.tags := toStringArray (prop entry "tags") |} ]
            | None => results
            end) [] servers
    | _ => []
    end.

Definition parseServerUpdate (value : option json) : option IncomingServerUpdate.t :=
  if negb (isRecord value) then None
  else
    match toString (prop value "server_id") with
    | None => None
    | Some serverId =>
        if negb (truthy_string serverId) then None
        else
          let cpu := if isRecord (prop value "cpu")
                     then toNumber (prop (prop value "cpu") "usage_percent") else None in
          let memoryTotal := if isRecord (prop value "memory")
                     then toNumber (prop (prop value "memory") "total_bytes") else None in
          let memoryUsed := if isRecord (prop value "memory")
                     then toNumber (prop (prop value "memory") "used_bytes") else None in
          let diskTotal := if isRecord (prop value "disk")
                     then toNumber (prop (prop value "disk") "total_bytes") else None in
          let diskUsed := if isRecord (prop value "disk")
                     then toNumber (prop (prop value "disk") "used_bytes") else None in
          let uptime := if isRecord (prop value "uptime")
                     then toString (prop (prop value "uptime") "human") else None in
          let pm2Procs := if isRecord (prop value "pm2")
                     then toNumber (prop (prop value "pm2") "processes") else None in
          let pm2Mem := if isRecord (prop value "pm2")
                     then toNumber (prop (prop value "pm2") "total_memory_bytes") else None in
          let pm2Bad : option (list string) :=
            if isRecord (prop value "pm2") then
              match prop (prop value "pm2") "details" with
              | Some (JArray details) =>
                  Some (foldl (fun badNames detail =>
                    let detail := Some detail in
                    if negb (isRecord detail) then badNames
                    else
                      match toString (prop detail "status") with
                      | Some status =>
                          if truthy_string status
                             && negb (String.eqb (toLowerCase status) "online")
                          then
                            let name := toString (prop detail "name") ?? toString (prop detail "id") in
                            badNames ++ [default "unknown" name]
                          else badNames
                      | None => badNames
                      end) [] details)
              | _ => None
              end
            else None in
          let pm2BadCount := length <$> pm2Bad in
          let pm2BadNames := (fun badNames => slice badNames 0 3) <$> pm2Bad in
          let supervisorTotal := if isRecord (prop value "supervisor")
                     then toNumber (prop (prop value "supervisor") "total") else None in
          let supervisorRunning := if isRecord (prop value "supervisor")
                     then toNumber (prop (prop value "supervisor") "running") else None in
          Some
            {| IncomingServerUpdate.server_id := serverId;
               IncomingServerUpdate.error := or_null (toString (prop value "error"));
               IncomingServerUpdate.cpuUsage := cpu;
               IncomingServerUpdate.memoryTotal := memoryTotal;
               IncomingServerUpdate.memoryUsed := memoryUsed;
               IncomingServerUpdate.diskTotal := diskTotal;
               IncomingServerUpdate.diskUsed := diskUsed;
               IncomingServerUpdate.uptime := uptime;
               IncomingServerUpdate.pm2Procs := pm2Procs;
               IncomingServerUpdate.pm2Mem := pm2Mem;
               IncomingServerUpdate.pm2BadCount := pm2BadCount;
               IncomingServerUpdate.pm2BadNames := pm2BadNames;
               IncomingServerUpdate.supervisorTotal := supervisorTotal;
               IncomingServerUpdate.supervisorRunning := supervisorRunning |}
    end.

Definition parseServerError (value : option json) : option IncomingServerError.t :=
  if negb (isRecord value) then None
  else
    match toString (prop value "server_id") with
    | None => None
    | Some serverId =>
        if negb (truthy_string serverId) then None
        else Some {| IncomingServerError.server_id := serverId;
                     IncomingServerError.error := toString (prop value "error") |}
    end.

Definition parseStatsList (value : option json) : list IncomingServerUpdate.t :=
  if negb (isRecord value) then []
  else
    match prop value "servers" with
    | Some (JArray servers) =>
        foldl (fun results entry =>
          let entry := Some entry in
          if negb (isRecord entry) then results
          else
            match toString (prop entry "server_id") ?? toString (prop entry "id") with
            | None => results
            | Some serverId =>
                if negb (truthy_string serverId) then results
                else
                  let cpu := if isRecord (prop entry "cpu")
                     then toNumber (prop (prop entry "cpu") "usage_percent") else None in
                  let memoryTotal := if isRecord (prop entry "memory")
                     then toNumber (prop (prop entry "memory") "total_bytes") else None in
                  let memoryUsed := if isRecord (prop entry "memory")
                     then toNumber (prop (prop entry "memory") "used_bytes") else None in
                  let diskTotal := if isRecord (prop entry "disk")
                     then toNumber (prop (prop entry "disk") "total_bytes") else None in
                  let diskUsed := if isRecord (prop entry "disk")
                     then toNumber (prop (prop entry "disk") "used_bytes") else None in
                  let uptime := if isRecord (prop entry "uptime")
                     then toString (prop (prop entry "uptime") "human") else None in
                  let pm2Procs := if isRecord (prop entry "pm2")
                     then toNumber (prop (prop entry "pm2") "processes") else None in
                  let pm2Mem := if isRecord (prop entry "pm2")
                     then toNumber (prop (prop entry "pm2") "total_memory_bytes") else None in
                  let pm2Bad : option (list string) :=
                    if isRecord (prop entry "pm2") then
                      match prop (prop entry "pm2") "details" with
                      | Some (JArray details) =>
                          Some (foldl (fun badNames detail =>
                            let detail := Some detail in
                            if negb (isRecord detail) then badNames
                            else
                              match toString (prop detail "status") with
                              | Some status =>
                                  if truthy_string status
                                     && negb (String.eqb (toLowerCase status) "online")
                                  then
                                    let name :=
                                      toString (prop detail "name") ?? toString (prop detail "id") in
                                    badNames ++ [default "unknown" name]
                                  else badNames
                              | None => badNames
                              end) [] details)
                      | _ => None
                      end
                    else None in
                  let pm2BadCount := length <$> pm2Bad in
                  let pm2BadNames := (fun badNames => slice badNames 0 3) <$> pm2Bad in
                  let supervisorTotal := if isRecord (prop entry "supervisor")
                     then toNumber (prop (prop entry "supervisor") "total") else None in
                  let supervisorRunning := if isRecord (prop entry "supervisor")
                     then toNumber (prop (prop entry "supervisor") "running") else None in
                  results ++ [
                    {| IncomingServerUpdate.server_id := serverId;
                       IncomingServerUpdate.error := or_null (toString (prop entry "error"));
                       IncomingServerUpdate.cpuUsage := cpu;
                       IncomingServerUpdate.memoryTotal := memoryTotal;
                       IncomingServerUpdate.memoryUsed := memoryUsed;
                       IncomingServerUpdate.diskTotal := diskTotal;
                       IncomingServerUpdate.diskUsed := diskUsed;
                       IncomingServerUpdate.uptime := uptime;
                       IncomingServerUpdate.pm2Procs := pm2Procs;
                       IncomingServerUpdate.pm2Mem := pm2Mem;
                       IncomingServerUpdate.pm2BadCount := pm2BadCount;
                       IncomingServerUpdate.pm2BadNames := pm2BadNames;
                       IncomingServerUpdate.supervisorTotal := supervisorTotal;
                       IncomingServerUpdate.supervisorRunning := supervisorRunning |} ]
            end) [] servers
    | _ => []
    end.

(** ** Data reconciler

    The registry is the [servers] state.  Each operation below is the
    updater handed to [setServers], behind the guard of the enclosing
    callback; [setDemoMode] and the subscription messages sent afterwards do
    not touch the registry. *)

(** [a || b] with [a : string | undefined]. *)
Definition or_else (a : option string) (b : string) : string :=
  match a with
  | Some s => if truthy_string s then s else b
  | None => b
  end.

Definition applyServerList (incoming : list IncomingServerListItem.t)
    (prev : list ServerEntry.t) : list ServerEntry.t :=
  match incoming with
  | [] => prev
  | _ :: _ =>
      let prevMap := keyed ServerEntry.id prev in
      map (fun item =>
        let existing := prevMap !! IncomingServerListItem.server_id item in
        {| ServerEntry.id := IncomingServerListItem.server_id item;
           ServerEntry.name :=
             or_else (IncomingServerListItem.server_name item)
               (or_else (IncomingServerListItem.host item)
                  (IncomingServerListItem.server_id item));
           ServerEntry.host := or_else (IncomingServerListItem.host item) "--";
           ServerEntry.enabled := IncomingServerListItem.enabled item;
           ServerEntry.tags := IncomingServerListItem.tags item;
           ServerEntry.stats := existing ≫= ServerEntry.stats;
           ServerEntry.lastUpdate := existing ≫= ServerEntry.lastUpdate |}) incoming
  end.

(** [timestamp] is the [Date.now()] read before [setServers]. *)
Definition applyServerUpdates (updates : list IncomingServerUpdate.t)
    (timestamp : number) (prev : list ServerEntry.t) : list ServerEntry.t :=
  match updates with
  | [] => prev
  | _ :: _ =>
      let updateMap := keyed IncomingServerUpdate.server_id updates in
      map (fun item =>
        match updateMap !! ServerEntry.id item with
        | None => item
        | Some payload =>
            let old := ServerEntry.stats item in
            {| ServerEntry.id := ServerEntry.id item;
               ServerEntry.name := ServerEntry.name item;
               ServerEntry.host := ServerEntry.host item;
               ServerEntry.enabled := ServerEntry.enabled item;
               ServerEntry.tags := ServerEntry.tags item;
               ServerEntry.stats := Some
                 {| ServerStats.error := nullable_or_null (IncomingServerUpdate.error payload);
                    ServerStats.cpuUsage :=
                      IncomingServerUpdate.cpuUsage payload ?? stats_field ServerStats.cpuUsage old;
                    ServerStats.memoryTotal :=
                      IncomingServerUpdate.memoryTotal payload ?? stats_field ServerStats.memoryTotal old;
                    ServerStats.memoryUsed :=
                      IncomingServerUpdate.memoryUsed payload ?? stats_field ServerStats.memoryUsed old;
                    ServerStats.diskTotal :=
                      IncomingServerUpdate.diskTotal payload ?? stats_field ServerStats.diskTotal old;
                    ServerStats.diskUsed :=
                      IncomingServerUpdate.diskUsed payload ?? stats_field ServerStats.diskUsed old;
                    ServerStats.uptime :=
                      IncomingServerUpdate.uptime payload ?? stats_field ServerStats.uptime old;
                    ServerStats.pm2Procs :=
                      IncomingServerUpdate.pm2Procs payload ?? stats_field ServerStats.pm2Procs old;
                    ServerStats.pm2Mem :=
                      IncomingServerUpdate.pm2Mem payload ?? stats_field ServerStats.pm2Mem old;
                    ServerStats.pm2BadCount :=
                      IncomingServerUpdate.pm2BadCount payload ?? stats_field ServerStats.pm2BadCount old;
                    ServerStats.pm2BadNames :=
                      IncomingServerUpdate.pm2BadNames payload ?? stats_field ServerStats.pm2BadNames old;
                    ServerStats.supervisorTotal :=
                      IncomingServerUpdate.supervisorTotal payload
                        ?? stats_field ServerStats.supervisorTotal old;
                    ServerStats.supervisorRunning :=
                      IncomingServerUpdate.supervisorRunning payload
                        ?? stats_field ServerStats.supervisorRunning old |};
               ServerEntry.lastUpdate := Some timestamp |}
        end) prev
  end.

Definition applyServerUpdate (payload : IncomingServerUpdate.t) (timestamp : number)
    (prev : list ServerEntry.t) : list ServerEntry.t :=
  applyServerUpdates [payload] timestamp prev.

(** [{...item.stats, error}]: the other fields of [item.stats] are kept,
    and are all absent when there was no [stats]. *)
Definition spread_with_error (old : option ServerStats.t) (error : string) : ServerStats.t :=
  {| ServerStats.error := Value error;
     ServerStats.cpuUsage := stats_field ServerStats.cpuUsage old;
     ServerStats.memoryTotal := stats_field ServerStats.memoryTotal old;
     ServerStats.memoryUsed := stats_field ServerStats.memoryUsed old;
     ServerStats.diskTotal := stats_field ServerStats.diskTotal old;
     ServerStats.diskUsed := stats_field ServerStats.diskUsed old;
     ServerStats.uptime := stats_field ServerStats.uptime old;
     ServerStats.pm2Procs := stats_field ServerStats.pm2Procs old;
     ServerStats.pm2Mem := stats_field ServerStats.pm2Mem old;
     ServerStats.pm2BadCount := stats_field ServerStats.pm2BadCount old;
     ServerStats.pm2BadNames := stats_field ServerStats.pm2BadNames old;
     ServerStats.supervisorTotal := stats_field ServerStats.supervisorTotal old;
     ServerStats.supervisorRunning := stats_field ServerStats.supervisorRunning old |}.

(** [Date.now()] is read inside the [map] callback, once per matching
    entry: [Date_now i] is the reading taken at index [i]. *)
Definition applyServerError (payload : IncomingServerError.t) (Date_now : nat -> number)
    (prev : list ServerEntry.t) : list ServerEntry.t :=
  imap (fun i item =>
    if String.eqb (ServerEntry.id item) (IncomingServerError.server_id payload) then
      {| ServerEntry.id := ServerEntry.id item;
         ServerEntry.name := ServerEntry.name item;
         ServerEntry.host := ServerEntry.host item;
         ServerEntry.enabled := ServerEntry.enabled item;
         ServerEntry.tags := ServerEntry.tags item;
         ServerEntry.stats := Some
           (spread_with_error (ServerEntry.stats item)
              (or_else (IncomingServerError.error payload) "Server error"));
         ServerEntry.lastUpdate := Some (Date_now i) |}
    else item) prev.

(** The three writers of the registry, as the message handler and the
    pollers call them. *)
Inductive registry_op : Type :=
| op_list (incoming : list IncomingServerListItem.t)
| op_updates (updates : list IncomingServerUpdate.t) (timestamp : number)
| op_error (payload : IncomingServerError.t) (Date_now : nat -> number).

Definition apply_op (servers : list ServerEntry.t) (o : registry_op) : list ServerEntry.t :=
  match o with
  | op_list incoming => applyServerList incoming servers
  | op_updates updates timestamp => applyServerUpdates updates timestamp servers
  | op_error payload Date_now => applyServerError payload Date_now servers
  end.

(** The registry after a sequence of operations, from [useState([])]. *)
Definition run_ops (ops : list registry_op) : list ServerEntry.t :=
  foldl apply_op [] ops.

(** Every reading of the clock an operation takes satisfies [ok]. *)
Definition clock_reads (ok : number -> Prop) (o : registry_op) : Prop :=
  match o with
  | op_list _ => True
  | op_updates _ timestamp => ok timestamp
  | op_error _ Date_now => forall i, ok (Date_now i)
  end.

(** Every reading is a usable timestamp: neither [0] nor NaN. *)
Definition clock_ok (o : registry_op) : Prop :=
  clock_reads (fun t => truthy_number t = true) o.

(** An entry with stats carries a timestamp that satisfies [ok]. *)
Definition dated (ok : number -> Prop) (e : ServerEntry.t) : Prop :=
  is_Some (ServerEntry.stats e) ->
  exists t, ServerEntry.lastUpdate e = Some t /\ ok t.

(** ** PM2 notification throttle *)

Module Pm2Issue.
Record t : Type := mk {
  id : string;
  name : string;
  host : string;
  count : nat;
  names : list string;
}.
End Pm2Issue.

Module ToastRecord.
Record t : Type := mk { signature : string; lastToastAt : number }.
End ToastRecord.

Definition pm2Issues (servers : list ServerEntry.t) : list Pm2Issue.t :=
  map (fun server =>
         {| Pm2Issue.id := ServerEntry.id server;
            Pm2Issue.name := ServerEntry.name server;
            Pm2Issue.host := ServerEntry.host server;
            Pm2Issue.count :=
              default 0 (stats_field ServerStats.pm2BadCount (ServerEntry.stats server));
            Pm2Issue.names :=
              default [] (stats_field ServerStats.pm2BadNames (ServerEntry.stats server)) |})
    (filter (fun server =>
               0 < default 0 (stats_field ServerStats.pm2BadCount (ServerEntry.stats server)))
       servers).

(** [`${issue.count}:${issue.names.join('|')}`] *)
Definition signature_of (issue : Pm2Issue.t) : string :=
  pretty (Pm2Issue.count issue) +:+ ":" +:+ String.concat "|" (Pm2Issue.names issue).

Definition shouldNotify (PM2_TOAST_REPEAT_MS : number) (previous : option ToastRecord.t)
    (signature : string) (nowMs : number) : bool :=
  match previous with
  | None => true
  | Some previous =>
      negb (String.eqb (ToastRecord.signature previous) signature)
      || geb (nowMs - ToastRecord.lastToastAt previous)%float PM2_TOAST_REPEAT_MS
  end.

(** One turn of [pm2Issues.forEach]: the state is the throttle map and the
    issues [toast.error] was called for, oldest first. *)
Definition notify_step (PM2_TOAST_REPEAT_MS nowMs : number)
    (st : gmap string ToastRecord.t * list Pm2Issue.t) (issue : Pm2Issue.t)
    : gmap string ToastRecord.t * list Pm2Issue.t :=
  let signature := signature_of issue in
  let previous := st.1 !! Pm2Issue.id issue in
  if negb (shouldNotify PM2_TOAST_REPEAT_MS previous signature nowMs) then st
  else (<[Pm2Issue.id issue := ToastRecord.mk signature nowMs]> st.1, st.2 ++ [issue]).

(** The effect that runs when [pm2Issues] changes. *)
Definition pm2ToastEffect (PM2_TOAST_REPEAT_MS : number) (issues : list Pm2Issue.t)
    (nowMs : number) (pm2Toast : gmap string ToastRecord.t)
    : gmap string ToastRecord.t * list Pm2Issue.t :=
  match issues with
  | [] => (∅, [])
  | _ :: _ =>
      let activeIds : gset string := list_to_set (map Pm2Issue.id issues) in
      let kept := filter (fun kv => kv.1 ∈ activeIds) pm2Toast in
      foldl (notify_step PM2_TOAST_REPEAT_MS nowMs) (kept, []) issues
  end.

(** ** Connection manager: the closure of the WebSocket effect *)

Module ConnectionState.
Inductive t : Set := connecting | open | closed | error.
End ConnectionState.

Module Connection.
(** [reconnectTimer] holds the delay the pending reconnect was scheduled
    with; [listRefreshTimer] tells whether the refresh interval runs. *)
Record t : Type := mk {
  connectionState : ConnectionState.t;
  backoff : number;
  shouldReconnect : bool;
  reconnectTimer : option number;
  listRefreshTimer : bool;
}.
End Connection.

Inductive ws_event : Type :=
| ws_onopen
| ws_onerror
| ws_onclose (code : number)
| reconnect_fires
| cleanup.

Definition connect (WS_URL : string) (c : Connection.t) : Connection.t :=
  if negb (truthy_string WS_URL) then
    Connection.mk ConnectionState.error (Connection.backoff c) (Connection.shouldReconnect c)
      (Connection.reconnectTimer c) (Connection.listRefreshTimer c)
  else
    Connection.mk ConnectionState.connecting (Connection.backoff c)
      (Connection.shouldReconnect c) (Connection.reconnectTimer c)
      (Connection.listRefreshTimer c).

Definition handle (WS_URL : string) (c : Connection.t) (e : ws_event) : Connection.t :=
  match e with
  | ws_onopen =>
      Connection.mk ConnectionState.open 1000%float (Connection.shouldReconnect c)
        (Connection.reconnectTimer c) true
  | ws_onerror =>
      Connection.mk ConnectionState.error (Connection.backoff c)
        (Connection.shouldReconnect c) (Connection.reconnectTimer c)
        (Connection.listRefreshTimer c)
  | ws_onclose code =>
      if negb (Connection.shouldReconnect c) then
        Connection.mk ConnectionState.closed (Connection.backoff c)
          (Connection.shouldReconnect c) (Connection.reconnectTimer c) false
      else if (code =? 1000)%float then
        Connection.mk ConnectionState.closed (Connection.backoff c)
          (Connection.shouldReconnect c) (Connection.reconnectTimer c) false
      else
        Connection.mk ConnectionState.closed
          (Math_min (Connection.backoff c * 1.6)%float 15000%float)
          (Connection.shouldReconnect c) (Some (Connection.backoff c)) false
  | reconnect_fires => connect WS_URL c
  | cleanup =>
      Connection.mk (Connection.connectionState c) (Connection.backoff c) false None false
  end.

(** The closure when the effect starts: [backoff = 1000], then [connect()]. *)
Definition initial (WS_URL : string) : Connection.t :=
  connect WS_URL (Connection.mk ConnectionState.connecting 1000%float true None false).

Definition run_events (WS_URL : string) (events : list ws_event) : Connection.t :=
  foldl (handle WS_URL) (initial WS_URL) events.

(** The values [backoff] takes: 1000 grown by 1.6 up to the cap. *)
Definition backoff_ladder : list number :=
  [1000; 1600; 2560; 4096; 6553.6000000000004; 10485.760000000002; 15000]%float.

(** A flapping connection: two abnormal closes, each followed by the
    scheduled reconnect, then a successful handshake. *)
Definition flapping : list ws_event :=
  [ws_onclose 1006%float; reconnect_fires; ws_onerror; ws_onclose 1006%float;
   reconnect_fires].

(** ** Names used in the statements below *)

(** The readings [getStatus] and [shouldAlert] compare with their
    thresholds, written on the raw fields of the entry. *)

(** A number cut to the range from 0 to 100; NaN stays NaN. *)
Definition within_0_100 (v : number) : number :=
  if PrimFloat.is_nan v then PrimFloat.nan
  else if (0 <? v)%float then (if (100 <? v)%float then 100%float else v)
  else 0%float.

(** [used / total] as a percentage cut to the range from 0 to 100; [0]
    when a side is missing or [total] is zero. *)
Definition ratio_percent (used total : option number) : number :=
  match used, total with
  | Some used, Some total =>
      if (total =? 0)%float then 0%float
      else within_0_100 (used / total * 100)%float
  | _, _ => 0%float
  end.

(** The time since [lastUpdate]: infinite when [lastUpdate] is missing, [0]
    or NaN. *)
Definition elapsed (lastUpdate : option number) (now : number) : number :=
  match lastUpdate with
  | Some t =>
      if PrimFloat.is_zero t || PrimFloat.is_nan t then PrimFloat.infinity
      else (now - t)%float
  | None => PrimFloat.infinity
  end.

(** [result] is what [new ?? old] leaves in a field: the old value when the
    update carries none, the new value otherwise. *)
Definition merged_field {A} (new old result : option A) : Prop :=
  (new = None -> result = old) /\ (forall v, new = Some v -> result = Some v).

(** Whether the throttle map [pm2Toast] lets a toast for [issue] through at
    [nowMs]. *)
Definition notifies (PM2_TOAST_REPEAT_MS : number) (pm2Toast : gmap string ToastRecord.t)
    (nowMs : number) (issue : Pm2Issue.t) : bool :=
  shouldNotify PM2_TOAST_REPEAT_MS (pm2Toast !! Pm2Issue.id issue) (signature_of issue) nowMs.

(** The state of the loop of the throttle effect once the issues [walked]
    are through: the records of the ids of the alert set [issues] are kept,
    the others removed, then [walked] is gone through in order. *)
Definition throttle_loop (PM2_TOAST_REPEAT_MS : number) (issues : list Pm2Issue.t)
    (nowMs : number) (pm2Toast : gmap string ToastRecord.t) (walked : list Pm2Issue.t)
    : gmap string ToastRecord.t * list Pm2Issue.t :=
  foldl (notify_step PM2_TOAST_REPEAT_MS nowMs)
    (filter (fun kv : string * ToastRecord.t =>
               kv.1 ∈ (list_to_set (map Pm2Issue.id issues) : gset string)) pm2Toast, [])
    walked.

(** A toast for [issue] is due against [record]: there is no record, or the
    recorded signature is not the text "count:name|name|..." of the issue,
    or the record is at least the repeat interval old. *)
Definition due (PM2_TOAST_REPEAT_MS nowMs : number) (record : option ToastRecord.t)
    (issue : Pm2Issue.t) : Prop :=
  record = None \/
  exists previous, record = Some previous /\
    (ToastRecord.signature previous <>
       pretty (Pm2Issue.count issue) +:+ ":" +:+ String.concat "|" (Pm2Issue.names issue) \/
     (PM2_TOAST_REPEAT_MS <=? nowMs - ToastRecord.lastToastAt previous)%float = true).

(** No character of the string is a colon. *)
Fixpoint no_colon (s : string) : bool :=
  match s with
  | EmptyString => true
  | String c rest => negb (Ascii.eqb c ":") && no_colon rest
  end.

(** The toasts about the server [id] among [toasts]. *)
Definition toasts_for (id : string) (toasts : list Pm2Issue.t) : list Pm2Issue.t :=
  filter (fun issue => Pm2Issue.id issue = id) toasts.

(** The element counts as bad: it is a record whose [status] is a non-empty
    string that, lower-cased, is not ["online"]. *)
Definition is_bad (detail : json) : bool :=
  isRecord (Some detail)
  && match toString (prop (Some detail) "status") with
     | Some status =>
         truthy_string status && negb (String.eqb (toLowerCase status) "online")
     | None => false
     end.

(** The name reported for a bad element: its [name], else its [id], when
    that is a string, else ["unknown"]. *)
Definition bad_name (detail : json) : string :=
  default "unknown"
    (toString (prop (Some detail) "name") ?? toString (prop (Some detail) "id")).

(** [value.pm2.details] when [value.pm2] is a record and [details] an array. *)
Definition pm2_details (value : option json) : option (list json) :=
  if isRecord (prop value "pm2") then
    match prop (prop value "pm2") "details" with
    | Some (JArray details) => Some details
    | _ => None
    end
  else None.

(** The rule as the specification words it: the [status], compared
    case-insensitively, is not ["online"]. *)
Definition status_not_online (detail : json) : bool :=
  match toString (prop (Some detail) "status") with
  | Some status => negb (String.eqb (toLowerCase status) "online")
  | None => false
  end.

(** The same notions read off the parsed value itself. *)

(** The own property [k] of an object; nothing on any other value. *)
Definition field (value : json) (k : string) : option json :=
  match value with
  | JObject props => assoc props k
  | _ => None
  end.

(** The property [k] when it holds a string. *)
Definition string_field (value : json) (k : string) : option string :=
  match field value k with
  | Some (JString s) => Some s
  | _ => None
  end.

(** A process is bad when its [status] is a string other than the empty
    one that, lower-cased, is not ["online"]. *)
Definition bad_process (detail : json) : bool :=
  match string_field detail "status" with
  | Some status =>
      negb (String.eqb status "") && negb (String.eqb (toLowerCase status) "online")
  | None => false
  end.

(** The name reported for a process: the string [name], else the string
    [id], else ["unknown"]. *)
Definition process_name (detail : json) : string :=
  match string_field detail "name" with
  | Some name => name
  | None =>
      match string_field detail "id" with
      | Some id => id
      | None => "unknown"
      end
  end.

(** The array [pm2.details] of an entry. *)
Definition details_of (entry : json) : option (list json) :=
  match field entry "pm2" with
  | Some pm2 =>
      match field pm2 "details" with
      | Some (JArray details) => Some details
      | _ => None
      end
  | None => None
  end.

(** The PM2 rule: the number of bad processes of [pm2.details] and the
    first three of their names; nothing without a details array. *)
Definition bad_count (entry : json) : option nat :=
  (fun details => length (List.filter bad_process details)) <$> details_of entry.

Definition bad_names (entry : json) : option (list string) :=
  (fun details => take 3 (process_name <$> List.filter bad_process details))
    <$> details_of entry.

Definition non_empty (s : string) : option string :=
  if String.eqb s "" then None else Some s.

(** The id a pushed update is accepted under: a non-empty string
    [server_id]. *)
Definition update_id (value : json) : option string :=
  string_field value "server_id" ≫= non_empty.

(** The id an entry of a poll response is accepted under: the string
    [server_id], else the string [id], when it is not empty. *)
Definition stats_entry_id (entry : json) : option string :=
  match string_field entry "server_id" with
  | Some s => non_empty s
  | None => string_field entry "id" ≫= non_empty
  end.

(** What the PM2 rule is about in a parsed update: its id and the two PM2
    fields. *)
Definition pm2_view (u : IncomingServerUpdate.t) : string * option nat * option (list string) :=
  (IncomingServerUpdate.server_id u, IncomingServerUpdate.pm2BadCount u,
   IncomingServerUpdate.pm2BadNames u).

(** A poll response with two servers: the first has one stopped process,
    the second has none that is bad. *)
Definition stats_response_two : json :=
  JObject [("servers", JArray [
    JObject [("server_id", JString "api-1");
             ("pm2", JObject [("details", JArray [
                JObject [("name", JString "worker"); ("status", JString "stopped")]])])];
    JObject [("id", JString "api-2");
             ("pm2", JObject [("details", JArray [
                JObject [("name", JString "web"); ("status", JString "online")]])])]])].

(** ** Example data *)

(** A disabled server whose last report was an error. *)
Definition disabled_with_error : ServerEntry.t :=
  {| ServerEntry.id := "db-1"; ServerEntry.name := "db-1"; ServerEntry.host := "10.0.0.5";
     ServerEntry.enabled := false; ServerEntry.tags := [];
     ServerEntry.stats := Some (spread_with_error None "ssh timeout");
     ServerEntry.lastUpdate := Some 1700000000000%float |}.

(** An enabled server that reported 95 of 100 bytes of memory in use. *)
Definition memory_95_of_100 : ServerEntry.t :=
  {| ServerEntry.id := "cache-1"; ServerEntry.name := "cache-1"; ServerEntry.host := "10.0.0.6";
     ServerEntry.enabled := true; ServerEntry.tags := [];
     ServerEntry.stats := Some
       {| ServerStats.cpuUsage := Some 12%float; ServerStats.memoryTotal := Some 100%float;
          ServerStats.memoryUsed := Some 95%float; ServerStats.diskTotal := None;
          ServerStats.diskUsed := None; ServerStats.uptime := None;
          ServerStats.pm2Procs := None; ServerStats.pm2Mem := None;
          ServerStats.pm2BadCount := None; ServerStats.pm2BadNames := None;
          ServerStats.supervisorTotal := None; ServerStats.supervisorRunning := None;
          ServerStats.error := Null |};
     ServerEntry.lastUpdate := Some 1700000000000%float |}.

(** An enabled server that never received stats. *)
Definition never_reported : ServerEntry.t :=
  {| ServerEntry.id := "web-1"; ServerEntry.name := "web-1"; ServerEntry.host := "10.0.0.7";
     ServerEntry.enabled := true; ServerEntry.tags := ["edge"];
     ServerEntry.stats := None;
     ServerEntry.lastUpdate := None |}.

(** The entry of the merge scenario of the specification:
    [{id: "a", cpuUsage: 40}]. *)
Definition entry_a : ServerEntry.t :=
  {| ServerEntry.id := "a"; ServerEntry.name := "a"; ServerEntry.host := "--";
     ServerEntry.enabled := true; ServerEntry.tags := [];
     ServerEntry.stats := Some
       {| ServerStats.cpuUsage := Some 40%float; ServerStats.memoryTotal := None;
          ServerStats.memoryUsed := None; ServerStats.diskTotal := None;
          ServerStats.diskUsed := None; ServerStats.uptime := None;
          ServerStats.pm2Procs := None; ServerStats.pm2Mem := None;
          ServerStats.pm2BadCount := None; ServerStats.pm2BadNames := None;
          ServerStats.supervisorTotal := None; ServerStats.supervisorRunning := None;
          ServerStats.error := Null |};
     ServerEntry.lastUpdate := Some 1700000000000%float |}.

(** A second server, without stats. *)
Definition entry_b : ServerEntry.t :=
  {| ServerEntry.id := "b"; ServerEntry.name := "b"; ServerEntry.host := "--";
     ServerEntry.enabled := true; ServerEntry.tags := [];
     ServerEntry.stats := None; ServerEntry.lastUpdate := None |}.

(** The update of the merge scenario: memory only, no cpu field. *)
Definition update_a_memory : IncomingServerUpdate.t :=
  {| IncomingServerUpdate.server_id := "a"; IncomingServerUpdate.error := Null;
     IncomingServerUpdate.cpuUsage := None;
     IncomingServerUpdate.memoryTotal := Some 200%float;
     IncomingServerUpdate.memoryUsed := Some 100%float;
     IncomingServerUpdate.diskTotal := None; IncomingServerUpdate.diskUsed := None;
     IncomingServerUpdate.uptime := None; IncomingServerUpdate.pm2Procs := None;
     IncomingServerUpdate.pm2Mem := None; IncomingServerUpdate.pm2BadCount := None;
     IncomingServerUpdate.pm2BadNames := None;
     IncomingServerUpdate.supervisorTotal := None;
     IncomingServerUpdate.supervisorRunning := None |}.

(** The entry ["a"] after a ["server:error"] frame. *)
Definition entry_a_failed : ServerEntry.t :=
  {| ServerEntry.id := "a"; ServerEntry.name := "a"; ServerEntry.host := "--";
     ServerEntry.enabled := true; ServerEntry.tags := [];
     ServerEntry.stats := Some (spread_with_error None "ssh timeout");
     ServerEntry.lastUpdate := Some 1700000000000%float |}.

(** The ["server:update"] payload [{server_id: "a", cpu: {usage_percent: 12}}]. *)
Definition frame_a_cpu : json :=
  JObject [("server_id", JString "a");
           ("cpu", JObject [("usage_percent", JNumber 12%float)])].

(** A ["list:update"] frame that names the server ["a"] twice. *)
Definition frame_list_twice : json :=
  JArray [JObject [("server_id", JString "a"); ("host", JString "10.0.0.1")];
          JObject [("server_id", JString "a"); ("host", JString "10.0.0.2")]].

(** A snapshot that keeps ["a"], does not name ["b"] and adds ["c"]. *)
Definition snapshot_a_c : list IncomingServerListItem.t :=
  [ {| IncomingServerListItem.server_id := "a";
       IncomingServerListItem.server_name := Some "alpha";
       IncomingServerListItem.host := Some "10.0.0.1";
       IncomingServerListItem.enabled := true;
       IncomingServerListItem.tags := ["edge"] |};
    {| IncomingServerListItem.server_id := "c";
       IncomingServerListItem.server_name := None;
       IncomingServerListItem.host := None;
       IncomingServerListItem.enabled := false;
       IncomingServerListItem.tags := [] |} ].

(** A short session: a list snapshot, a stats update, an error frame. *)
Definition session : list registry_op :=
  [ op_list snapshot_a_c;
    op_updates [update_a_memory] 1700000060000%float;
    op_error {| IncomingServerError.server_id := "c";
                IncomingServerError.error := None |}
             (fun _ => 1700000061000%float) ].

(** The entry ["c"] of the snapshot after the error frame of the session. *)
Definition entry_c_failed : ServerEntry.t :=
  {| ServerEntry.id := "c"; ServerEntry.name := "c"; ServerEntry.host := "--";
     ServerEntry.enabled := false; ServerEntry.tags := [];
     ServerEntry.stats := Some (spread_with_error None "Server error");
     ServerEntry.lastUpdate := Some 1700000061000%float |}.

(** One process of ["api-1"] is down, seen twice two minutes apart, then a
    second process goes down a minute later. *)
Definition issue_api (count : nat) (names : list string) : Pm2Issue.t :=
  {| Pm2Issue.id := "api-1"; Pm2Issue.name := "api"; Pm2Issue.host := "10.0.0.9";
     Pm2Issue.count := count; Pm2Issue.names := names |}.

(** The ["server:update"] payload of the server ["a"] with one stopped
    process. *)
Definition frame_a_pm2 : json :=
  JObject [("server_id", JString "a");
           ("pm2", JObject [("details", JArray [
              JObject [("name", JString "worker"); ("status", JString "stopped")]])])].

(** The registry after the list frame that names ["a"] twice and the
    update above: both entries took the update. *)
Definition registry_a_twice : list ServerEntry.t :=
  run_ops [op_list (parseServerList (Some frame_list_twice));
           op_updates (option_list (parseServerUpdate (Some frame_a_pm2)))
             1700000000000%float].

(** The two issues of that registry: an entry without a name is shown
    under its host. *)
Definition issue_a (host : string) : Pm2Issue.t :=
  {| Pm2Issue.id := "a"; Pm2Issue.name := host; Pm2Issue.host := host;
     Pm2Issue.count := 1; Pm2Issue.names := ["worker"] |}.

(** A stats frame with four PM2 processes: one online, one stopped, one
    errored, one whose status is the empty string. *)
Definition frame_pm2 : json :=
  JObject [("server_id", JString "api-1");
           ("pm2", JObject [("processes", JNumber 4%float);
              ("details", JArray [
                 JObject [("name", JString "web"); ("status", JString "Online")];
                 JObject [("name", JString "worker"); ("status", JString "stopped")];
                 JObject [("id", JString "7"); ("status", JString "ERRORED")];
                 JObject [("name", JString "cron"); ("status", JString "")]])])].

(** * The rest of the engine *)

(** ** Alert set *)

(** [servers.filter((server) => shouldAlert(server, now))] *)
Definition alertServers (cfg : AlertConfig.t) (servers : list ServerEntry.t) (now : number)
    : list ServerEntry.t :=
  List.filter (fun server => shouldAlert cfg server now) servers.

(** [alertServers.length > 0] *)
Definition hasAlert (cfg : AlertConfig.t) (servers : list ServerEntry.t) (now : number) : bool :=
  (0 <? length (alertServers cfg servers now))%nat.

(** The alert tone effect, run when [demoMode] or [hasAlert] changes: the
    state is [alertWasActiveRef.current]; the first component of the result
    tells whether [playAlertTone] was called. *)
Definition alertToneEffect (demoMode hasAlert : bool) (alertWasActive : bool) : bool * bool :=
  if demoMode then (false, alertWasActive)
  else if hasAlert && negb alertWasActive then (true, true)
  else if negb hasAlert then (false, false)
  else (false, alertWasActive).

(** The effect over a sequence of renders [(demoMode, hasAlert)], from
    [useRef(false)]: the calls of [playAlertTone], render by render, and the
    final state. *)
Fixpoint alertToneRun (renders : list (bool * bool)) (alertWasActive : bool)
    : list bool * bool :=
  match renders with
  | [] => ([], alertWasActive)
  | (demoMode, hasAlert) :: rest =>
      let (played, active) := alertToneEffect demoMode hasAlert alertWasActive in
      let (plays, final) := alertToneRun rest active in
      (played :: plays, final)
  end.

(** The entry ["a"] with one PM2 process down and nothing else wrong. *)
Definition entry_a_pm2 : ServerEntry.t :=
  {| ServerEntry.id := "a"; ServerEntry.name := "a"; ServerEntry.host := "--";
     ServerEntry.enabled := true; ServerEntry.tags := [];
     ServerEntry.stats := Some
       {| ServerStats.cpuUsage := Some 40%float; ServerStats.memoryTotal := None;
          ServerStats.memoryUsed := None; ServerStats.diskTotal := None;
          ServerStats.diskUsed := None; ServerStats.uptime := None;
          ServerStats.pm2Procs := Some 3%float; ServerStats.pm2Mem := None;
          ServerStats.pm2BadCount := Some 1; ServerStats.pm2BadNames := Some ["worker"];
          ServerStats.supervisorTotal := None; ServerStats.supervisorRunning := None;
          ServerStats.error := Null |};
     ServerEntry.lastUpdate := Some 1700000000000%float |}.

(** A cpu reading for the server ["b"]. *)
Definition update_b_cpu : IncomingServerUpdate.t :=
  IncomingServerUpdate.mk "b" Null (Some 7%float) None None None None None None None None
    None None None.

(** ** Names for the reconciler's results *)

(** The entry [applyServerUpdates] builds from [item] and the update
    [payload] that names it. *)
Definition merged_entry (payload : IncomingServerUpdate.t) (timestamp : number)
    (item : ServerEntry.t) : ServerEntry.t :=
  let old := ServerEntry.stats item in
  {| ServerEntry.id := ServerEntry.id item;
     ServerEntry.name := ServerEntry.name item;
     ServerEntry.host := ServerEntry.host item;
     ServerEntry.enabled := ServerEntry.enabled item;
     ServerEntry.tags := ServerEntry.tags item;
     ServerEntry.stats := Some
       {| ServerStats.error := nullable_or_null (IncomingServerUpdate.error payload);
          ServerStats.cpuUsage :=
            IncomingServerUpdate.cpuUsage payload ?? stats_field ServerStats.cpuUsage old;
          ServerStats.memoryTotal :=
            IncomingServerUpdate.memoryTotal payload ?? stats_field ServerStats.memoryTotal old;
          ServerStats.memoryUsed :=
            IncomingServerUpdate.memoryUsed payload ?? stats_field ServerStats.memoryUsed old;
          ServerStats.diskTotal :=
            IncomingServerUpdate.diskTotal payload ?? stats_field ServerStats.diskTotal old;
          ServerStats.diskUsed :=
            IncomingServerUpdate.diskUsed payload ?? stats_field ServerStats.diskUsed old;
          ServerStats.uptime :=
            IncomingServerUpdate.uptime payload ?? stats_field ServerStats.uptime old;
          ServerStats.pm2Procs :=
            IncomingServerUpdate.pm2Procs payload ?? stats_field ServerStats.pm2Procs old;
          ServerStats.pm2Mem :=
            IncomingServerUpdate.pm2Mem payload ?? stats_field ServerStats.pm2Mem old;
          ServerStats.pm2BadCount :=
            IncomingServerUpdate.pm2BadCount payload ?? stats_field ServerStats.pm2BadCount old;
          ServerStats.pm2BadNames :=
            IncomingServerUpdate.pm2BadNames payload ?? stats_field ServerStats.pm2BadNames old;
          ServerStats.supervisorTotal :=
            IncomingServerUpdate.supervisorTotal payload
              ?? stats_field ServerStats.supervisorTotal old;
          ServerStats.supervisorRunning :=
            IncomingServerUpdate.supervisorRunning payload
              ?? stats_field ServerStats.supervisorRunning old |};
     ServerEntry.lastUpdate := Some timestamp |}.

(** The entry [applyServerError] builds from a matching [item]. *)
Definition failed_entry (payload : IncomingServerError.t) (timestamp : number)
    (item : ServerEntry.t) : ServerEntry.t :=
  {| ServerEntry.id := ServerEntry.id item;
     ServerEntry.name := ServerEntry.name item;
     ServerEntry.host := ServerEntry.host item;
     ServerEntry.enabled := ServerEntry.enabled item;
     ServerEntry.tags := ServerEntry.tags item;
     ServerEntry.stats := Some
       (spread_with_error (ServerEntry.stats item)
          (or_else (IncomingServerError.error payload) "Server error"));
     ServerEntry.lastUpdate := Some timestamp |}.

(** ** Names for the parsers' results *)

(** The id a push list frame gives for one entry: the [server_id] of a
    record entry when it is a non-empty string. *)
Definition list_entry_id (entry : json) : option string :=
  if isRecord (Some entry) then
    match toString (prop (Some entry) "server_id") with
    | Some serverId => if truthy_string serverId then Some serverId else None
    | None => None
    end
  else None.

(** The id a poll response gives for one entry: its [id], else its
    [server_id], when that is a non-empty string. *)
Definition api_entry_id (entry : json) : option string :=
  if isRecord (Some entry) then
    match toString (prop (Some entry) "id") ?? toString (prop (Some entry) "server_id") with
    | Some serverId => if truthy_string serverId then Some serverId else None
    | None => None
    end
  else None.

(** What the callback of [parseServerList] pushes for one entry, if anything. *)
Definition list_entry (entry : json) : option IncomingServerListItem.t :=
  if isRecord (Some entry) then
    match toString (prop (Some entry) "server_id") with
    | Some serverId =>
        if truthy_string serverId then Some
          {| IncomingServerListItem.server_id := serverId;
             IncomingServerListItem.server_name := toString (prop (Some entry) "server_name");
             IncomingServerListItem.host := toString (prop (Some entry) "host");
             IncomingServerListItem.enabled :=
               default true (toBoolean (prop (Some entry) "enabled"));
             IncomingServerListItem.tags := toStringArray (prop (Some entry) "tags") |}
        else None
    | None => None
    end
  else None.

(** What the callback of [parseApiServerList] pushes for one entry. *)
Definition api_entry (entry : json) : option IncomingServerListItem.t :=
  if isRecord (Some entry) then
    match toString (prop (Some entry) "id") ?? toString (prop (Some entry) "server_id") with
    | Some serverId =>
        if truthy_string serverId then Some
          {| IncomingServerListItem.server_id := serverId;
             IncomingServerListItem.server_name :=
               toString (prop (Some entry) "name") ?? toString (prop (Some entry) "server_name");
             IncomingServerListItem.host := toString (prop (Some entry) "host");
             IncomingServerListItem.enabled :=
               default true (toBoolean (prop (Some entry) "enabled"));
             IncomingServerListItem.tags := toStringArray (prop (Some entry) "tags") |}
        else None
    | None => None
    end
  else None.

(** [pm2BadCount] and [pm2BadNames] come together, and the names are the
    first three of [count] names. *)
Definition pm2_coherent (count : option nat) (names : option (list string)) : Prop :=
  match count, names with
  | None, None => True
  | Some c, Some ns => length ns = Nat.min 3 c
  | _, _ => False
  end.

(** A poll response whose entries all use [server_id]: two servers, a
    string that is no record, and a record without an id. *)
Definition stats_response_ex : json :=
  JObject [("servers", JArray [frame_pm2; JString "noise"; frame_a_cpu;
                               JObject [("cpu", JObject [])]])].

(** ** Message dispatch and poll responses *)

(** [type === s] for [type = toString(payload.type)]. *)
Definition type_is (type : option string) (s : string) : bool :=
  match type with
  | Some t => String.eqb t s
  | None => false
  end.

(** [handleMessage], from the result of [JSON.parse(raw)] on ([None] when it
    throws).  [timestamp] and [Date_now] are the clock readings
    [applyServerUpdates] and [applyServerError] take. *)
Definition handleMessage (payload : option json) (timestamp : number)
    (Date_now : nat -> number) (servers : list ServerEntry.t) : list ServerEntry.t :=
  match payload with
  | None => servers
  | Some _ =>
      if negb (isRecord payload) then servers
      else
        let type := toString (prop payload "type") in
        let servers :=
          if type_is type "list:update" then
            let list := parseServerList (prop payload "servers") in
            match list with
            | [] => servers
            | _ :: _ => applyServerList list servers
            end
          else servers in
        let servers :=
          if type_is type "server:update" then
            match parseServerUpdate (prop payload "server") with
            | Some update => applyServerUpdate update timestamp servers
            | None => servers
            end
          else servers in
        let servers :=
          if type_is type "server:error" then
            match parseServerError payload with
            | Some error => applyServerError error Date_now servers
            | None => servers
            end
          else servers in
        servers
  end.

(** [fetchServers] once the request has answered with [data]; a request
    that fails is caught and changes nothing. *)
Definition fetchServers (data : option json) (servers : list ServerEntry.t)
    : list ServerEntry.t :=
  let list := parseApiServerList data in
  match list with
  | [] => servers
  | _ :: _ => applyServerList list servers
  end.

(** [fetchStats] once the request has answered with [data]. *)
Definition fetchStats (data : option json) (timestamp : number)
    (servers : list ServerEntry.t) : list ServerEntry.t :=
  let updates := parseStatsList data in
  match updates with
  | [] => servers
  | _ :: _ => applyServerUpdates updates timestamp servers
  end.

(** What reaches the registry: a frame of the push channel, or the answer
    to one of the two polls. *)
Inductive arrival : Type :=
| ws_message (payload : option json) (timestamp : number) (Date_now : nat -> number)
| servers_response (data : option json)
| stats_response (data : option json) (timestamp : number).

Definition receive (servers : list ServerEntry.t) (a : arrival) : list ServerEntry.t :=
  match a with
  | ws_message payload timestamp Date_now => handleMessage payload timestamp Date_now servers
  | servers_response data => fetchServers data servers
  | stats_response data timestamp => fetchStats data timestamp servers
  end.

(** The registry after a sequence of arrivals, from [useState([])]. *)
Definition run_arrivals (arrivals : list arrival) : list ServerEntry.t :=
  foldl receive [] arrivals.

(** What every entry of the registry satisfies: a non-empty id, and stats
    whose error is [null] or a string and whose PM2 fields come together. *)
Definition well_formed (e : ServerEntry.t) : Prop :=
  truthy_string (ServerEntry.id e) = true /\
  forall st, ServerEntry.stats e = Some st ->
    ServerStats.error st <> Undefined /\
    pm2_coherent (ServerStats.pm2BadCount st) (ServerStats.pm2BadNames st).

(** A push session: a list frame, an unknown frame, a stats frame with PM2
    details for a server the list does not name, an error frame. *)
Definition push_session : list arrival :=
  [ ws_message (Some (JObject [("type", JString "list:update");
                               ("servers", frame_list_twice)]))
      1700000000000%float (fun _ => 1700000000000%float);
    ws_message (Some (JObject [("type", JString "ping")]))
      1700000001000%float (fun _ => 1700000001000%float);
    ws_message (Some (JObject [("type", JString "server:update"); ("server", frame_pm2)]))
      1700000002000%float (fun _ => 1700000002000%float);
    ws_message (Some (JObject [("type", JString "server:error");
                               ("server_id", JString "a")]))
      1700000003000%float (fun _ => 1700000003000%float) ].

(** ** Page rotation *)

(** [pages.length ? pageIndex % pages.length : 0]; [pageIndex] starts at 0
    and only ever takes the values the rotation gives it. *)
Definition normalizedPageIndex {T} (pages : list (list T)) (pageIndex : nat) : nat :=
  if (length pages =? 0)%nat then 0 else pageIndex mod length pages.

(** [pages[normalizedPageIndex] ?? []] *)
Definition activePage {T} (pages : list (list T)) (pageIndex : nat) : list T :=
  default [] (pages !! normalizedPageIndex pages pageIndex).

(** The rotation timer: nothing when [pages.length <= 1], else
    [setPageIndex((prev) => (prev + 1) % pages.length)]. *)
Definition rotate {T} (pages : list (list T)) (pageIndex : nat) : nat :=
  if (length pages <=? 1)%nat then pageIndex else (pageIndex + 1) mod length pages.

(** ** Aggregates *)

(** A counter that is only ever incremented by one is a [nat]; this is its
    value as a number, the sum of that many ones. *)
Fixpoint number_of_nat (n : nat) : number :=
  match n with
  | 0 => 0%float
  | S n => (number_of_nat n + 1)%float
  end.

(** The accumulators of the [aggregates] loop. *)
Module Totals.
Record t : Type := mk {
  online : nat;
  warn : nat;
  offline : nat;
  disabled : nat;
  cpuSum : number;
  cpuCount : nat;
  memSum : number;
  memCount : nat;
  diskSum : number;
  diskCount : nat;
  pm2Total : number;
  supRunning : number;
  supTotal : number;
  latestUpdate : number;
}.
Definition zero : t := mk 0 0 0 0 0%float 0 0%float 0 0%float 0 0%float 0%float 0%float 0%float.
End Totals.

Module Aggregates.
Record t : Type := mk {
  online : nat;
  warn : nat;
  offline : nat;
  disabled : nat;
  avgCpu : option number;
  avgMem : option number;
  avgDisk : option number;
  pm2Total : number;
  supRunning : number;
  supTotal : number;
  latestUpdate : number;
}.
End Aggregates.

(** [sum += value] when [value != null]. *)
Definition add_some (sum : number) (value : option number) : number :=
  match value with
  | Some v => (sum + v)%float
  | None => sum
  end.

(** [count += 1] when [value != null]. *)
Definition count_some {A} (count : nat) (value : option A) : nat :=
  match value with
  | Some _ => S count
  | None => count
  end.

(** One turn of [servers.forEach] in [aggregates]. *)
Definition aggregate_step (now : number) (acc : Totals.t) (server : ServerEntry.t) : Totals.t :=
  let key := StatusInfo.key (getStatus server now) in
  let stats := ServerEntry.stats server in
  let memPct :=
    percent (stats_field ServerStats.memoryUsed stats) (stats_field ServerStats.memoryTotal stats) in
  let diskPct :=
    percent (stats_field ServerStats.diskUsed stats) (stats_field ServerStats.diskTotal stats) in
  {| Totals.online :=
       match key with StatusKey.ok => S (Totals.online acc) | _ => Totals.online acc end;
     Totals.warn :=
       match key with StatusKey.warn => S (Totals.warn acc) | _ => Totals.warn acc end;
     Totals.offline :=
       match key with
       | StatusKey.down | StatusKey.stale => S (Totals.offline acc)
       | _ => Totals.offline acc
       end;
     Totals.disabled :=
       match key with
       | StatusKey.disabled => S (Totals.disabled acc)
       | _ => Totals.disabled acc
       end;
     Totals.cpuSum := add_some (Totals.cpuSum acc) (stats_field ServerStats.cpuUsage stats);
     Totals.cpuCount := count_some (Totals.cpuCount acc) (stats_field ServerStats.cpuUsage stats);
     Totals.memSum := add_some (Totals.memSum acc) memPct;
     Totals.memCount := count_some (Totals.memCount acc) memPct;
     Totals.diskSum := add_some (Totals.diskSum acc) diskPct;
     Totals.diskCount := count_some (Totals.diskCount acc) diskPct;
     Totals.pm2Total := add_some (Totals.pm2Total acc) (stats_field ServerStats.pm2Procs stats);
     Totals.supRunning :=
       add_some (Totals.supRunning acc) (stats_field ServerStats.supervisorRunning stats);
     Totals.supTotal :=
       add_some (Totals.supTotal acc) (stats_field ServerStats.supervisorTotal stats);
     Totals.latestUpdate :=
       match ServerEntry.lastUpdate server with
       | Some t => Math_max (Totals.latestUpdate acc) t
       | None => Totals.latestUpdate acc
       end |}.

(** [count ? sum / count : undefined] *)
Definition average (sum : number) (count : nat) : option number :=
  match count with
  | 0 => None
  | S _ => Some (sum / number_of_nat count)%float
  end.

Definition aggregates (servers : list ServerEntry.t) (now : number) : Aggregates.t :=
  let totals := foldl (aggregate_step now) Totals.zero servers in
  {| Aggregates.online := Totals.online totals;
     Aggregates.warn := Totals.warn totals;
     Aggregates.offline := Totals.offline totals;
     Aggregates.disabled := Totals.disabled totals;
     Aggregates.avgCpu := average (Totals.cpuSum totals) (Totals.cpuCount totals);
     Aggregates.avgMem := average (Totals.memSum totals) (Totals.memCount totals);
     Aggregates.avgDisk := average (Totals.diskSum totals) (Totals.diskCount totals);
     Aggregates.pm2Total := Totals.pm2Total totals;
     Aggregates.supRunning := Totals.supRunning totals;
     Aggregates.supTotal := Totals.supTotal totals;
     Aggregates.latestUpdate := Totals.latestUpdate totals |}.

(** The number of servers shown with the status [key]. *)
Definition count_status (key : StatusKey.t) (servers : list ServerEntry.t) (now : number) : nat :=
  length (List.filter
            (fun server =>
               match StatusInfo.key (getStatus server now), key with
               | StatusKey.ok, StatusKey.ok | StatusKey.warn, StatusKey.warn
               | StatusKey.down, StatusKey.down | StatusKey.idle, StatusKey.idle
               | StatusKey.stale, StatusKey.stale
               | StatusKey.disabled, StatusKey.disabled => true
               | _, _ => false
               end) servers).

(** * Properties *)

(** ** Status and alert evaluator *)

Lemma age_of_timestamp (server : ServerEntry.t) (now t : number) :
  ServerEntry.lastUpdate server = Some t ->
  truthy_number t = true ->
  age server now = (now - t)%float.
Proof.
  intros Hlast Ht. unfold age. rewrite Hlast, Ht. reflexivity.
Qed.

(** Case analysis on every test a definition branches on. *)
Ltac split_ifs :=
  repeat match goal with
         | |- context [if ?b then _ else _] => destruct b eqn:?
         | |- context [match ?o with Some _ => _ | None => _ end] => destruct o eqn:?
         end.

(** The readings of the evaluator, on the raw fields. *)
Lemma truthy_error_set (e : nullable string) :
  truthy_error e = true <-> exists message, e = Value message /\ message <> "".
Proof.
  destruct e as [| | [| c s]]; simpl; split;
    try discriminate; try (intros (? & [= <-] & ?); done); try (intros (? & ? & ?); done).
  intros _. by eexists.
Qed.

Lemma truthy_error_unset (e : nullable string) :
  truthy_error e = false <-> forall message, e = Value message -> message = "".
Proof.
  destruct e as [| | [| c s]]; simpl; split; try done.
  - by intros _ ? [= <-].
  - intros H. by specialize (H _ eq_refl).
Qed.

Lemma age_elapsed (server : ServerEntry.t) (now : number) :
  age server now = elapsed (ServerEntry.lastUpdate server) now.
Proof.
  unfold age, elapsed, truthy_number.
  destruct (ServerEntry.lastUpdate server) as [t |]; [| reflexivity].
  by destruct (PrimFloat.is_zero t || PrimFloat.is_nan t).
Qed.

Lemma clamp_0_100 (v : number) : clamp v 0 100 = within_0_100 v.
Proof.
  unfold clamp, within_0_100, Math_max.
  change (PrimFloat.is_nan 0%float) with false. cbn [orb].
  destruct (PrimFloat.is_nan v) eqn:Hnan; [reflexivity |].
  change (PrimFloat.get_sign 0%float) with false.
  assert (forall x : number, PrimFloat.is_nan x = false ->
            Math_min 100%float x = if (100 <? x)%float then 100%float else x) as Hmin.
  { intros x Hx. unfold Math_min. rewrite Hx.
    change (PrimFloat.is_nan 100%float) with false. cbn [orb].
    change (PrimFloat.get_sign 100%float) with false.
    destruct (100 <? x)%float; [reflexivity |].
    by destruct (x <? 100)%float. }
  destruct (0 <? v)%float.
  - by apply Hmin.
  - by destruct (v <? 0)%float.
Qed.

Lemma percent_ratio (part total : option number) :
  default 0%float (percent part total) = ratio_percent part total.
Proof.
  unfold percent, ratio_percent.
  destruct part as [p |], total as [t |]; try reflexivity.
  destruct (t =? 0)%float; [reflexivity |]. simpl. apply clamp_0_100.
Qed.

(** C3: [getStatus] tries its six states in the order disabled, idle, down,
    stale, warn, ok.  The key is [disabled] exactly when [enabled] is false,
    whatever the stats hold.  For an enabled server it is [idle] exactly when
    no stats were recorded; with stats, [down] exactly when [stats.error] is
    set (a non-empty string); failing that, [stale] exactly when the time
    since [lastUpdate] exceeds 60000 ms; failing that, [warn] exactly when
    cpu > 85, or memoryUsed / memoryTotal as a percentage > 90, or
    diskUsed / diskTotal as a percentage > 92, and [ok] otherwise.  The time
    since [lastUpdate] is [now - lastUpdate] for every [lastUpdate] other
    than 0 and NaN, and infinite (hence stale) when there is none; a
    percentage is the quotient times 100 cut to the range from 0 to 100, and
    reads as 0 when a side is missing or the total is zero; a missing cpu
    reads as 0. *)
Theorem getStatus_precedence (server : ServerEntry.t) (now : number) :
  let k := StatusInfo.key (getStatus server now) in
  let since := elapsed (ServerEntry.lastUpdate server) now in
  (k = StatusKey.disabled <-> ServerEntry.enabled server = false) /\
  (ServerEntry.enabled server = true ->
     (k = StatusKey.idle <-> ServerEntry.stats server = None) /\
     (forall stats, ServerEntry.stats server = Some stats ->
        let cpu := default 0%float (ServerStats.cpuUsage stats) in
        let memory :=
          ratio_percent (ServerStats.memoryUsed stats) (ServerStats.memoryTotal stats) in
        let disk :=
          ratio_percent (ServerStats.diskUsed stats) (ServerStats.diskTotal stats) in
        (k = StatusKey.down <->
           exists message, ServerStats.error stats = Value message /\ message <> "") /\
        ((forall message, ServerStats.error stats = Value message -> message = "") ->
           (k = StatusKey.stale <-> (60000 <? since)%float = true) /\
           ((60000 <? since)%float = false ->
              (k = StatusKey.warn <->
                 (85 <? cpu)%float = true \/
                 (90 <? memory)%float = true \/
                 (92 <? disk)%float = true) /\
              (k = StatusKey.ok <->
                 (85 <? cpu)%float = false /\
                 (90 <? memory)%float = false /\
                 (92 <? disk)%float = false))))) /\
  (forall t, ServerEntry.lastUpdate server = Some t ->
     PrimFloat.is_zero t = false -> PrimFloat.is_nan t = false ->
     since = (now - t)%float /\ age server now = (now - t)%float) /\
  (ServerEntry.lastUpdate server = None ->
     since = PrimFloat.infinity /\ age server now = PrimFloat.infinity /\
     (60000 <? since)%float = true) /\
  (forall used total, (total =? 0)%float = false ->
     ratio_percent (Some used) (Some total) = within_0_100 (used / total * 100)%float /\
     percent (Some used) (Some total) = Some (within_0_100 (used / total * 100)%float)).
Proof.
  cbv zeta. rewrite <- age_elapsed.
  split; [| split; [| split; [| split]]].
  - unfold getStatus. destruct (ServerEntry.enabled server); simpl; [| tauto].
    split; [| discriminate]. split_ifs; discriminate.
  - unfold getStatus. intros ->. simpl. split.
    + destruct (ServerEntry.stats server) as [stats |]; [| tauto].
      split; [| discriminate]. split_ifs; discriminate.
    + intros stats ->. rewrite <- truthy_error_set, <- truthy_error_unset.
      rewrite <- !percent_ratio. fold (gtb (age server now) 60000).
      fold (gtb (default 0%float (ServerStats.cpuUsage stats)) 85).
      fold (gtb (default 0%float
                   (percent (ServerStats.memoryUsed stats) (ServerStats.memoryTotal stats))) 90).
      fold (gtb (default 0%float
                   (percent (ServerStats.diskUsed stats) (ServerStats.diskTotal stats))) 92).
      split.
      * destruct (truthy_error _); [tauto |].
        split; [| discriminate]. split_ifs; discriminate.
      * intros ->. split.
        -- destruct (gtb (age server now) 60000); [tauto |].
           split; [| discriminate]. split_ifs; discriminate.
        -- intros ->.
           destruct (gtb (default 0%float (ServerStats.cpuUsage stats)) 85),
             (gtb (default 0%float
                     (percent (ServerStats.memoryUsed stats) (ServerStats.memoryTotal stats))) 90),
             (gtb (default 0%float
                     (percent (ServerStats.diskUsed stats) (ServerStats.diskTotal stats))) 92);
             simpl; intuition congruence.
  - intros t Hlast Hzero Hnan. unfold age, truthy_number. rewrite Hlast, Hzero, Hnan.
    by split.
  - intros Hnone. unfold age. rewrite Hnone. by repeat split.
  - intros used total Htotal. unfold percent, ratio_percent. rewrite Htotal.
    by rewrite clamp_0_100.
Qed.

(** The example of the specification: a disabled server with an error set
    classifies as disabled.  And a server that reported 95 of 100 bytes of
    memory in use half a second ago is hot. *)
Lemma getStatus_precedence_witness :
  StatusInfo.key (getStatus disabled_with_error 1700000000500%float) = StatusKey.disabled /\
  StatusInfo.key (getStatus memory_95_of_100 1700000000500%float) = StatusKey.warn.
Proof.
  split.
  - apply (proj1 (getStatus_precedence disabled_with_error 1700000000500%float)).
    reflexivity.
  - destruct (proj1 (proj2 (getStatus_precedence memory_95_of_100 1700000000500%float))
                eq_refl) as [_ Hstats].
    destruct (Hstats _ eq_refl) as [_ Hrest].
    destruct (Hrest ltac:(discriminate)) as [_ Hwarn].
    apply (proj1 (Hwarn eq_refl)). right. left. reflexivity.
Defined.

(** C4: [shouldAlert] is true exactly when the entry is enabled and its
    recorded stats show one of: an error (a non-empty string); a time since
    [lastUpdate] above [ALERT_STALE_MS]; cpu, memoryUsed / memoryTotal as a
    percentage, or diskUsed / diskTotal as a percentage at or above its
    alert threshold; or [pm2BadCount > 0].  An enabled entry that never
    received stats does not alert.  The time since [lastUpdate] is
    [now - lastUpdate] for every [lastUpdate] other than 0 and NaN and
    infinite otherwise; a percentage is the quotient times 100 cut to the
    range from 0 to 100, and reads as 0 when a side is missing or the total
    is zero; a missing cpu or count reads as 0. *)
Theorem shouldAlert_iff (cfg : AlertConfig.t) (server : ServerEntry.t) (now : number) :
  let since := elapsed (ServerEntry.lastUpdate server) now in
  (shouldAlert cfg server now = true <->
     ServerEntry.enabled server = true /\
     exists stats, ServerEntry.stats server = Some stats /\
       ((exists message, ServerStats.error stats = Value message /\ message <> "") \/
        (AlertConfig.ALERT_STALE_MS cfg <? since)%float = true \/
        (AlertConfig.ALERT_CPU cfg <=? default 0%float (ServerStats.cpuUsage stats))%float
          = true \/
        (AlertConfig.ALERT_MEMORY cfg <=?
           ratio_percent (ServerStats.memoryUsed stats) (ServerStats.memoryTotal stats))%float
          = true \/
        (AlertConfig.ALERT_DISK cfg <=?
           ratio_percent (ServerStats.diskUsed stats) (ServerStats.diskTotal stats))%float
          = true \/
        0 < default 0 (ServerStats.pm2BadCount stats))) /\
  (ServerEntry.stats server = None -> shouldAlert cfg server now = false) /\
  (forall t, ServerEntry.lastUpdate server = Some t ->
     PrimFloat.is_zero t = false -> PrimFloat.is_nan t = false ->
     since = (now - t)%float /\ age server now = (now - t)%float) /\
  (ServerEntry.lastUpdate server = None ->
     since = PrimFloat.infinity /\ age server now = PrimFloat.infinity) /\
  (forall used total, (total =? 0)%float = false ->
     ratio_percent (Some used) (Some total) = within_0_100 (used / total * 100)%float /\
     percent (Some used) (Some total) = Some (within_0_100 (used / total * 100)%float)).
Proof.
  cbv zeta. rewrite <- age_elapsed. split; [| split; [| split; [| split]]].
  - unfold shouldAlert, gtb, geb.
    destruct (ServerEntry.enabled server); simpl.
    2: { split; [discriminate | intros [? _]; discriminate]. }
    destruct (ServerEntry.stats server) as [stats |].
    2: { split; [discriminate | intros [_ (? & ? & _)]; discriminate]. }
    split.
    + intros H. split; [reflexivity |]. exists stats. split; [reflexivity |].
      rewrite <- truthy_error_set, <- !percent_ratio.
      destruct (truthy_error _); [tauto |].
      destruct (AlertConfig.ALERT_STALE_MS cfg <? age server now)%float; [tauto |].
      rewrite !orb_true_iff in H. rewrite Nat.ltb_lt in H. tauto.
    + intros [_ (stats' & [= <-] & H)].
      rewrite <- truthy_error_set, <- !percent_ratio in H.
      destruct (truthy_error _); [reflexivity |].
      destruct (AlertConfig.ALERT_STALE_MS cfg <? age server now)%float; [reflexivity |].
      rewrite !orb_true_iff. rewrite Nat.ltb_lt.
      destruct H as [H | [H | H]]; [discriminate | discriminate | tauto].
  - unfold shouldAlert. intros ->. destruct (ServerEntry.enabled server); reflexivity.
  - intros t Hlast Hzero Hnan. unfold age, truthy_number. rewrite Hlast, Hzero, Hnan.
    by split.
  - intros Hnone. unfold age. rewrite Hnone. by split.
  - intros used total Htotal. unfold percent, ratio_percent. rewrite Htotal.
    by rewrite clamp_0_100.
Qed.

(** The scenario of the specification: enabled, no stats ever received:
    the status is idle and there is no alert.  And with the default
    thresholds a server that reported 95 of 100 bytes of memory in use half
    a second ago alerts, as does one whose last report is a day old. *)
Lemma shouldAlert_iff_witness :
  shouldAlert AlertConfig.defaults never_reported 1700000000500%float = false /\
  StatusInfo.key (getStatus never_reported 1700000000500%float) = StatusKey.idle /\
  shouldAlert AlertConfig.defaults memory_95_of_100 1700000000500%float = true /\
  shouldAlert AlertConfig.defaults memory_95_of_100 1700086400000%float = true.
Proof.
  split; [| split; [| split]].
  - apply (proj1 (proj2 (shouldAlert_iff AlertConfig.defaults never_reported
                           1700000000500%float))).
    reflexivity.
  - reflexivity.
  - apply (proj1 (shouldAlert_iff AlertConfig.defaults memory_95_of_100
                    1700000000500%float)).
    split; [reflexivity |]. eexists. split; [reflexivity |].
    right. right. right. left. reflexivity.
  - apply (proj1 (shouldAlert_iff AlertConfig.defaults memory_95_of_100
                    1700086400000%float)).
    split; [reflexivity |]. eexists. split; [reflexivity |].
    right. left. reflexivity.
Defined.

(** ** Paging *)

Lemma chunk_loop_eq {T} (items : list T) (size' i : nat) (pages : list (list T)) :
  chunk_loop items size' i pages =
    if decide (i < length items)
    then chunk_loop items size' (i + S size') (pages ++ [slice items i (i + S size')])
    else pages.
Proof.
  remember (chunk_loop items size' (i + S size') _) as next eqn:Hnext.
  simp chunk_loop. subst next.
  destruct (lt_dec i (length items)); simpl; case_decide; done || lia.
Qed.

(** The pages pushed so far are a prefix of the result. *)
Lemma chunk_loop_acc {T} (items : list T) (size' : nat) :
  forall n i pages, length items - i = n ->
    chunk_loop items size' i pages = pages ++ chunk_loop items size' i [].
Proof.
  induction n as [n IH] using lt_wf_ind. intros i pages Hn.
  rewrite (chunk_loop_eq items size' i pages), (chunk_loop_eq items size' i []).
  case_decide; [| by rewrite app_nil_r].
  rewrite (IH (length items - (i + S size')) ltac:(lia) _ (pages ++ _) eq_refl).
  rewrite (IH (length items - (i + S size')) ltac:(lia) _ ([] ++ _) eq_refl).
  by rewrite <- app_assoc.
Qed.

Lemma chunk_loop_step {T} (items : list T) (size' i : nat) :
  i < length items ->
  chunk_loop items size' i [] =
    slice items i (i + S size') :: chunk_loop items size' (i + S size') [].
Proof.
  intros Hi. rewrite chunk_loop_eq at 1. case_decide; [| lia].
  by rewrite (chunk_loop_acc items size' _ _ _ eq_refl).
Qed.

Lemma chunk_loop_done {T} (items : list T) (size' i : nat) :
  length items <= i -> chunk_loop items size' i [] = [].
Proof.
  intros Hi. rewrite chunk_loop_eq. case_decide; [lia | done].
Qed.

Lemma chunk_loop_concat {T} (items : list T) (size' : nat) :
  forall n i, length items - i = n ->
    concat (chunk_loop items size' i []) = drop i items.
Proof.
  induction n as [n IH] using lt_wf_ind. intros i Hn.
  destruct (decide (i < length items)) as [Hi | Hi].
  - rewrite chunk_loop_step by done. simpl.
    rewrite (IH (length items - (i + S size')) ltac:(lia) _ eq_refl).
    unfold slice. replace (i + S size' - i) with (S size') by lia.
    rewrite <- drop_drop. apply take_drop.
  - rewrite chunk_loop_done by lia. by rewrite drop_ge by lia.
Qed.

(** Page [j] of the loop started at [i] is the slice that starts at
    [i + j * size], and there is such a page exactly while that start is
    inside the list. *)
Lemma chunk_loop_lookup {T} (items : list T) (size' : nat) :
  forall j i,
    chunk_loop items size' i [] !! j =
      if decide (i + j * S size' < length items)
      then Some (take (S size') (drop (i + j * S size') items))
      else None.
Proof.
  induction j as [| j IH]; intros i.
  - rewrite Nat.add_0_r. case_decide.
    + rewrite chunk_loop_step by done. simpl. unfold slice.
      by replace (i + S size' - i) with (S size') by lia.
    + by rewrite chunk_loop_done by lia.
  - destruct (decide (i < length items)) as [Hi | Hi].
    + rewrite chunk_loop_step by done. simpl. rewrite IH.
      replace (i + S size' + j * S size') with (i + S j * S size') by lia. done.
    + rewrite chunk_loop_done by lia. simpl. case_decide; [lia | done].
Qed.

Lemma chunk_nonempty_items {T} (items : list T) (size' : nat) :
  items <> [] -> chunk items (S size') = chunk_loop items size' 0 [].
Proof.
  intros Hne. unfold chunk.
  rewrite chunk_loop_step by (destruct items; [done | simpl; lia]). done.
Qed.

Lemma chunk_empty_items {T} (size : nat) : chunk (@nil T) size = [[]].
Proof.
  destruct size as [| size']; [done |].
  unfold chunk. by rewrite chunk_loop_done by (simpl; lia).
Qed.

(** C8: for a positive page size, [chunk] cuts the list, in its order, into
    consecutive pages: page [j] holds the [size] elements that start at
    index [j * size]; every page but the last has exactly [size] elements,
    the last one at most [size]; at least one page is produced, and the
    empty list gives exactly one empty page. *)
Theorem chunk_partition {T} (items : list T) (size : nat) :
  0 < size ->
  concat (chunk items size) = items /\
  1 <= length (chunk items size) /\
  (forall j page, chunk items size !! j = Some page ->
     page = take size (drop (j * size) items) /\
     length page <= size /\
     (S j < length (chunk items size) -> length page = size) /\
     (items <> [] -> page <> [])) /\
  (items = [] -> chunk items size = [[]]).
Proof.
  intros Hsize. destruct size as [| size']; [lia |].
  destruct (decide (items = [])) as [-> | Hne].
  - rewrite chunk_empty_items.
    split; [done |]. split; [simpl; lia |]. split; [| done].
    intros j page Hpage.
    destruct j as [| j]; simpl in Hpage; [| by rewrite lookup_nil in Hpage].
    injection Hpage as <-.
    split; [done |]. split; [simpl; lia |]. split; [simpl; lia |].
    intros Hne. by destruct Hne.
  - rewrite chunk_nonempty_items by done.
    split; [by rewrite (chunk_loop_concat items size' _ 0 eq_refl) |].
    split.
    { rewrite chunk_loop_step by (destruct items; [done | simpl; lia]). simpl. lia. }
    split; [| done].
    intros j page Hpage. rewrite chunk_loop_lookup in Hpage. simpl in Hpage.
    case_decide as Hj; [| done]. injection Hpage as <-.
    split; [done |]. split; [rewrite length_take; lia |]. split.
    + intros Hnext. apply lookup_lt_is_Some_2 in Hnext as [next Hnext].
      rewrite chunk_loop_lookup in Hnext. simpl in Hnext.
      case_decide; [| done]. rewrite length_take, length_drop.
      apply Nat.min_l. lia.
    + intros _ Hnil.
      assert (0 < length (take (S size') (drop (j * S size') items))) as Hpos.
      { rewrite length_take, length_drop. apply Nat.min_glb_lt; lia. }
      rewrite Hnil in Hpos. simpl in Hpos. lia.
Qed.

(** The paging example of the specification: 7 entries with [pageSize = 3]
    give pages of sizes 3, 3, 1, and an empty registry gives one empty page. *)
Lemma chunk_partition_witness :
  concat (chunk [1; 2; 3; 4; 5; 6; 7] 3) = [1; 2; 3; 4; 5; 6; 7] /\
  length <$> chunk [1; 2; 3; 4; 5; 6; 7] 3 = [3; 3; 1] /\
  chunk (@nil nat) 3 = [[]].
Proof.
  split; [| split].
  - apply (proj1 (chunk_partition [1; 2; 3; 4; 5; 6; 7] 3 ltac:(lia))).
  - reflexivity.
  - apply (proj2 (proj2 (proj2 (chunk_partition (@nil nat) 3 ltac:(lia))))). reflexivity.
Defined.

(** ** Data reconciler *)

Lemma Map_new_snoc {V} (pairs : list (string * V)) (p : string * V) :
  Map_new (pairs ++ [p]) = <[p.1 := p.2]> (Map_new pairs).
Proof. unfold Map_new. by rewrite foldl_app. Qed.

Section keyed.
Context {V : Type} (key : V -> string).

Lemma keyed_lookup_None (l : list V) (k : string) :
  keyed key l !! k = None <-> k ∉ key <$> l.
Proof.
  unfold keyed. induction l as [| x l IH] using rev_ind.
  - split; [set_solver | done].
  - rewrite !fmap_app. simpl. rewrite Map_new_snoc. simpl.
    rewrite lookup_insert_None, IH. set_solver.
Qed.

Lemma keyed_lookup_Some (l : list V) (k : string) (x : V) :
  keyed key l !! k = Some x -> x ∈ l /\ key x = k.
Proof.
  unfold keyed. induction l as [| y l IH] using rev_ind.
  - done.
  - rewrite fmap_app. simpl. rewrite Map_new_snoc. simpl.
    rewrite lookup_insert_Some. intros [[<- <-] | [_ Hl]]; [set_solver |].
    apply IH in Hl. set_solver.
Qed.

(** The last element with a given key is the one the map holds. *)
Lemma keyed_lookup_last (before after : list V) (x : V) :
  key x ∉ key <$> after ->
  keyed key (before ++ x :: after) !! key x = Some x.
Proof.
  unfold keyed. induction after as [| y after IH] using rev_ind; intros Hnot.
  - rewrite fmap_app. simpl. rewrite Map_new_snoc. simpl. by rewrite lookup_insert_eq.
  - rewrite app_comm_cons, app_assoc, fmap_app. simpl. rewrite Map_new_snoc. simpl.
    rewrite fmap_app in Hnot. simpl in Hnot.
    rewrite lookup_insert_ne by set_solver. apply IH. set_solver.
Qed.

Lemma keyed_lookup_NoDup (l : list V) (x : V) :
  NoDup (key <$> l) -> x ∈ l -> keyed key l !! key x = Some x.
Proof.
  intros Hnd Hx. apply list_elem_of_split in Hx as (before & after & ->).
  apply keyed_lookup_last.
  rewrite fmap_app in Hnd. simpl in Hnd.
  apply NoDup_app in Hnd as (_ & _ & Hnd). by apply NoDup_cons in Hnd as [? _].
Qed.
End keyed.

Lemma applyServerList_ids (incoming : list IncomingServerListItem.t)
    (prev : list ServerEntry.t) :
  incoming <> [] ->
  ServerEntry.id <$> applyServerList incoming prev =
    IncomingServerListItem.server_id <$> incoming.
Proof.
  intros Hne. unfold applyServerList. destruct incoming as [| item rest]; [done |].
  generalize (item :: rest). intros l.
  induction l as [| x l IH]; [done |]. simpl. by f_equal.
Qed.

(** C2: [applyServerList] replaces the membership of the registry by the
    incoming items, in their order.  An incoming item whose id was already
    registered keeps that entry's stats and lastUpdate (the entry with that
    id; were the id registered more than once, the last such entry); a new
    id starts with neither; a registered id the snapshot does not name is
    gone.  An empty snapshot leaves the registry as it was. *)
Theorem applyServerList_snapshot (incoming : list IncomingServerListItem.t)
    (prev : list ServerEntry.t) :
  (incoming = [] -> applyServerList incoming prev = prev) /\
  (incoming <> [] ->
     ServerEntry.id <$> applyServerList incoming prev =
       IncomingServerListItem.server_id <$> incoming /\
     (forall i item, incoming !! i = Some item ->
        exists r, applyServerList incoming prev !! i = Some r /\
          ServerEntry.id r = IncomingServerListItem.server_id item /\
          ServerEntry.enabled r = IncomingServerListItem.enabled item /\
          ServerEntry.tags r = IncomingServerListItem.tags item /\
          (forall e, NoDup (ServerEntry.id <$> prev) -> e ∈ prev ->
             ServerEntry.id e = IncomingServerListItem.server_id item ->
             ServerEntry.stats r = ServerEntry.stats e /\
             ServerEntry.lastUpdate r = ServerEntry.lastUpdate e) /\
          (forall before e after, prev = before ++ e :: after ->
             ServerEntry.id e ∉ ServerEntry.id <$> after ->
             ServerEntry.id e = IncomingServerListItem.server_id item ->
             ServerEntry.stats r = ServerEntry.stats e /\
             ServerEntry.lastUpdate r = ServerEntry.lastUpdate e) /\
          (IncomingServerListItem.server_id item ∉ ServerEntry.id <$> prev ->
             ServerEntry.stats r = None /\ ServerEntry.lastUpdate r = None)) /\
     (forall e, e ∈ prev ->
        ServerEntry.id e ∉ IncomingServerListItem.server_id <$> incoming ->
        forall r, r ∈ applyServerList incoming prev -> ServerEntry.id r <> ServerEntry.id e)).
Proof.
  split; [by intros -> |]. intros Hne.
  split; [by apply applyServerList_ids |]. split.
  - intros i item Hi. unfold applyServerList.
    destruct incoming as [| item0 rest]; [done |].
    rewrite list_lookup_fmap, Hi. simpl. eexists. split; [done |]. simpl.
    do 3 (split; [done |]). split; [| split].
    + intros e Hnd He Heq. rewrite <- Heq.
      by rewrite (keyed_lookup_NoDup ServerEntry.id prev e Hnd He).
    + intros before e after -> Hlast Heq. rewrite <- Heq.
      by rewrite (keyed_lookup_last ServerEntry.id before after e Hlast).
    + intros Hnew. apply (keyed_lookup_None ServerEntry.id) in Hnew.
      by rewrite Hnew.
  - intros e He Hnot r Hr Heq.
    apply Hnot. rewrite <- Heq, <- (applyServerList_ids incoming prev Hne).
    by apply list_elem_of_fmap_2.
Qed.

(** A registry [a, b] and the snapshot [a, c]: the ids become [a, c], and
    [a] keeps the stats it had. *)
Lemma applyServerList_snapshot_witness :
  ServerEntry.id <$> applyServerList snapshot_a_c [entry_a; entry_b] = ["a"; "c"] /\
  ServerEntry.stats <$> applyServerList snapshot_a_c [entry_a; entry_b] =
    [ServerEntry.stats entry_a; None].
Proof.
  assert (NoDup (ServerEntry.id <$> [entry_a; entry_b])) as Hnd by compute_done.
  split.
  - apply (proj1 (proj2 (applyServerList_snapshot snapshot_a_c [entry_a; entry_b])
                    ltac:(discriminate))).
  - destruct (proj1 (proj2 (proj2 (applyServerList_snapshot snapshot_a_c
                                     [entry_a; entry_b]) ltac:(discriminate)))
                0 _ eq_refl) as (r & Hr & _ & _ & _ & Hkeep & _).
    injection Hr as <-.
    destruct (Hkeep entry_a Hnd ltac:(set_solver) eq_refl) as [Hstats _].
    reflexivity.
Defined.

Lemma merged_field_nullish {A} (new old : option A) : merged_field new old (new ?? old).
Proof. split; [by intros -> | by intros v ->]. Qed.

(** C1, as the code has it: under [applyServerUpdates] an entry no update
    names is untouched; an entry an update names (the last such update wins)
    gets, for every stats field but [error], the update's value when it
    carries one and keeps its own value when it carries none.  The [error]
    field is not accumulated: it becomes the update's error, or [null] when
    the update carries none. *)
Theorem applyServerUpdates_merge (updates : list IncomingServerUpdate.t)
    (timestamp : number) (prev : list ServerEntry.t) (i : nat) (item : ServerEntry.t) :
  prev !! i = Some item ->
  (ServerEntry.id item ∉ IncomingServerUpdate.server_id <$> updates ->
     applyServerUpdates updates timestamp prev !! i = Some item) /\
  (forall before payload after,
     updates = before ++ payload :: after ->
     IncomingServerUpdate.server_id payload = ServerEntry.id item ->
     ServerEntry.id item ∉ IncomingServerUpdate.server_id <$> after ->
     exists r st,
       applyServerUpdates updates timestamp prev !! i = Some r /\
       ServerEntry.stats r = Some st /\
       ServerEntry.id r = ServerEntry.id item /\
       ServerEntry.lastUpdate r = Some timestamp /\
       let old := ServerEntry.stats item in
       merged_field (IncomingServerUpdate.cpuUsage payload)
         (stats_field ServerStats.cpuUsage old) (ServerStats.cpuUsage st) /\
       merged_field (IncomingServerUpdate.memoryTotal payload)
         (stats_field ServerStats.memoryTotal old) (ServerStats.memoryTotal st) /\
       merged_field (IncomingServerUpdate.memoryUsed payload)
         (stats_field ServerStats.memoryUsed old) (ServerStats.memoryUsed st) /\
       merged_field (IncomingServerUpdate.diskTotal payload)
         (stats_field ServerStats.diskTotal old) (ServerStats.diskTotal st) /\
       merged_field (IncomingServerUpdate.diskUsed payload)
         (stats_field ServerStats.diskUsed old) (ServerStats.diskUsed st) /\
       merged_field (IncomingServerUpdate.uptime payload)
         (stats_field ServerStats.uptime old) (ServerStats.uptime st) /\
       merged_field (IncomingServerUpdate.pm2Procs payload)
         (stats_field ServerStats.pm2Procs old) (ServerStats.pm2Procs st) /\
       merged_field (IncomingServerUpdate.pm2Mem payload)
         (stats_field ServerStats.pm2Mem old) (ServerStats.pm2Mem st) /\
       merged_field (IncomingServerUpdate.pm2BadCount payload)
         (stats_field ServerStats.pm2BadCount old) (ServerStats.pm2BadCount st) /\
       merged_field (IncomingServerUpdate.pm2BadNames payload)
         (stats_field ServerStats.pm2BadNames old) (ServerStats.pm2BadNames st) /\
       merged_field (IncomingServerUpdate.supervisorTotal payload)
         (stats_field ServerStats.supervisorTotal old) (ServerStats.supervisorTotal st) /\
       merged_field (IncomingServerUpdate.supervisorRunning payload)
         (stats_field ServerStats.supervisorRunning old) (ServerStats.supervisorRunning st) /\
       ServerStats.error st = nullable_or_null (IncomingServerUpdate.error payload)).
Proof.
  intros Hi. split.
  - intros Hnot. unfold applyServerUpdates.
    destruct updates as [| u rest]; [done |].
    rewrite list_lookup_fmap, Hi. simpl.
    apply (keyed_lookup_None IncomingServerUpdate.server_id) in Hnot.
    by rewrite Hnot.
  - intros before payload after -> Hid Hlast. unfold applyServerUpdates.
    assert (keyed IncomingServerUpdate.server_id (before ++ payload :: after)
              !! ServerEntry.id item = Some payload) as Hget.
    { rewrite <- Hid. apply keyed_lookup_last. by rewrite Hid. }
    destruct (before ++ payload :: after) as [| u rest] eqn:Hupdates.
    { by destruct before. }
    rewrite list_lookup_fmap, Hi. simpl. rewrite Hget.
    eexists _, _. split; [done |]. simpl. split; [done |].
    do 2 (split; [done |]).
    repeat (split; [apply merged_field_nullish |]). done.
Qed.

(** The merge scenario of the specification: the entry [{id: "a",
    cpuUsage: 40}] and the update [{id: "a", memoryUsed: 100,
    memoryTotal: 200}] leave [cpuUsage: 40] and [memoryUsed: 100]. *)
Lemma applyServerUpdates_merge_witness :
  exists r st,
    applyServerUpdates [update_a_memory] 1700000060000%float [entry_a] !! 0 = Some r /\
    ServerEntry.stats r = Some st /\
    ServerStats.cpuUsage st = Some 40%float /\
    ServerStats.memoryUsed st = Some 100%float.
Proof.
  destruct (proj2 (applyServerUpdates_merge [update_a_memory] 1700000060000%float
                     [entry_a] 0 entry_a eq_refl)
              [] update_a_memory [] eq_refl eq_refl ltac:(set_solver))
    as (r & st & Hr & Hst & _ & _ & Hcpu & _ & Hmem & _).
  exists r, st. split; [exact Hr |]. split; [exact Hst |]. split.
  - exact (proj1 Hcpu eq_refl).
  - exact (proj2 Hmem _ eq_refl).
Defined.

(** C1 as stated fails on the [error] field: the entry ["a"] holds the error
    ["ssh timeout"]; the frame [{server_id: "a", cpu: {usage_percent: 12}}]
    parses to an update that carries no error; after the merge the entry's
    error is [null]. *)
Lemma applyServerUpdates_clears_error :
  exists payload st r st',
    parseServerUpdate (Some frame_a_cpu) = Some payload /\
    IncomingServerUpdate.error payload = Null /\
    ServerEntry.stats entry_a_failed = Some st /\
    ServerStats.error st = Value "ssh timeout" /\
    applyServerUpdates [payload] 1700000060000%float [entry_a_failed] = [r] /\
    ServerEntry.stats r = Some st' /\
    ServerStats.error st' = Null /\
    ServerStats.error st' <> ServerStats.error st.
Proof.
  eexists _, _, _, _. repeat split; try reflexivity. discriminate.
Qed.

Lemma applyServerUpdates_ids (updates : list IncomingServerUpdate.t) (timestamp : number)
    (prev : list ServerEntry.t) :
  ServerEntry.id <$> applyServerUpdates updates timestamp prev = ServerEntry.id <$> prev.
Proof.
  unfold applyServerUpdates. destruct updates as [| u rest]; [done |].
  generalize (keyed IncomingServerUpdate.server_id (u :: rest)). intros updateMap.
  induction prev as [| item prev IH]; [done |].
  simpl. f_equal; [| done]. by destruct (updateMap !! ServerEntry.id item).
Qed.

Lemma applyServerError_ids (payload : IncomingServerError.t) (Date_now : nat -> number)
    (prev : list ServerEntry.t) :
  ServerEntry.id <$> applyServerError payload Date_now prev = ServerEntry.id <$> prev.
Proof.
  unfold applyServerError. apply list_eq. intros i.
  rewrite !list_lookup_fmap, list_lookup_imap.
  destruct (prev !! i) as [item |]; [| done]. simpl.
  by destruct (String.eqb _ _).
Qed.

(** C9, as the code has it: a stats update and an error frame leave the
    sequence of ids as it was, so distinct ids stay distinct.  A list
    snapshot makes the ids of the registry the [server_id]s of the incoming
    items, repeats included: the result has distinct ids exactly when the
    snapshot has. *)
Theorem registry_ids_preserved (prev : list ServerEntry.t) :
  NoDup (ServerEntry.id <$> prev) ->
  (forall updates timestamp,
     ServerEntry.id <$> applyServerUpdates updates timestamp prev = ServerEntry.id <$> prev /\
     NoDup (ServerEntry.id <$> applyServerUpdates updates timestamp prev)) /\
  (forall payload Date_now,
     ServerEntry.id <$> applyServerError payload Date_now prev = ServerEntry.id <$> prev /\
     NoDup (ServerEntry.id <$> applyServerError payload Date_now prev)) /\
  (forall incoming,
     (incoming <> [] ->
        ServerEntry.id <$> applyServerList incoming prev =
          IncomingServerListItem.server_id <$> incoming) /\
     (NoDup (IncomingServerListItem.server_id <$> incoming) ->
        NoDup (ServerEntry.id <$> applyServerList incoming prev)) /\
     (incoming <> [] -> NoDup (ServerEntry.id <$> applyServerList incoming prev) ->
        NoDup (IncomingServerListItem.server_id <$> incoming))).
Proof.
  intros Hnd. split; [| split].
  - intros updates timestamp. by rewrite applyServerUpdates_ids.
  - intros payload Date_now. by rewrite applyServerError_ids.
  - intros incoming. split; [apply applyServerList_ids |]. split.
    + destruct incoming as [| item rest]; [done |].
      by rewrite applyServerList_ids.
    + intros Hne. by rewrite applyServerList_ids.
Qed.

(** On the registry [a, b]: the update for [a] keeps the ids [a, b]. *)
Lemma registry_ids_preserved_witness :
  ServerEntry.id <$> applyServerUpdates [update_a_memory] 1700000060000%float
                       [entry_a; entry_b] = ["a"; "b"].
Proof.
  assert (NoDup (ServerEntry.id <$> [entry_a; entry_b])) as Hnd by compute_done.
  apply (proj1 (proj1 (registry_ids_preserved [entry_a; entry_b] Hnd)
                  [update_a_memory] 1700000060000%float)).
Defined.

(** C9 as stated fails for a list snapshot: the frame names the server ["a"]
    twice, the parser keeps both items, and the registry, empty before,
    holds the id ["a"] twice afterwards. *)
Lemma applyServerList_repeats_ids :
  NoDup (ServerEntry.id <$> @nil ServerEntry.t) /\
  IncomingServerListItem.server_id <$> parseServerList (Some frame_list_twice) = ["a"; "a"] /\
  ServerEntry.id <$> applyServerList (parseServerList (Some frame_list_twice)) [] = ["a"; "a"] /\
  ~ NoDup (ServerEntry.id <$> applyServerList (parseServerList (Some frame_list_twice)) []).
Proof.
  split; [constructor |]. split; [reflexivity |]. split; [reflexivity |].
  intros Hnd. apply NoDup_cons in Hnd as [Hin _]. apply Hin. set_solver.
Qed.

Lemma applyServerList_dated (ok : number -> Prop) (incoming : list IncomingServerListItem.t)
    (prev : list ServerEntry.t) :
  Forall (dated ok) prev -> Forall (dated ok) (applyServerList incoming prev).
Proof.
  intros Hprev. unfold applyServerList. destruct incoming as [| item rest]; [done |].
  apply Forall_fmap, Forall_forall. intros x _. unfold dated. simpl.
  destruct (keyed ServerEntry.id prev !! IncomingServerListItem.server_id x)
    as [e |] eqn:Hget; simpl.
  - apply keyed_lookup_Some in Hget as [He _].
    rewrite Forall_forall in Hprev. apply (Hprev e He).
  - by intros [? ?].
Qed.

Lemma applyServerUpdates_dated (ok : number -> Prop) (updates : list IncomingServerUpdate.t)
    (timestamp : number) (prev : list ServerEntry.t) :
  ok timestamp ->
  Forall (dated ok) prev -> Forall (dated ok) (applyServerUpdates updates timestamp prev).
Proof.
  intros Hok Hprev. unfold applyServerUpdates. destruct updates as [| u rest]; [done |].
  apply Forall_fmap. eapply Forall_impl; [exact Hprev |].
  intros item Hitem. simpl.
  destruct (keyed IncomingServerUpdate.server_id (u :: rest) !! ServerEntry.id item);
    [| done].
  intros _. simpl. eauto.
Qed.

Lemma applyServerError_dated (ok : number -> Prop) (payload : IncomingServerError.t)
    (Date_now : nat -> number) (prev : list ServerEntry.t) :
  (forall i, ok (Date_now i)) ->
  Forall (dated ok) prev -> Forall (dated ok) (applyServerError payload Date_now prev).
Proof.
  intros Hok Hprev. unfold applyServerError. apply Forall_lookup. intros i x Hx.
  rewrite list_lookup_imap in Hx.
  destruct (prev !! i) as [item |] eqn:Hi; [| done]. simpl in Hx.
  injection Hx as <-.
  destruct (String.eqb _ _).
  - intros _. simpl. eauto.
  - eapply Forall_lookup_1; eauto.
Qed.

Lemma run_ops_dated (ok : number -> Prop) (ops : list registry_op) :
  Forall (clock_reads ok) ops -> Forall (dated ok) (run_ops ops).
Proof.
  unfold run_ops. induction ops as [| o ops IH] using rev_ind; intros Hops.
  - constructor.
  - rewrite foldl_app. simpl. apply Forall_app in Hops as [Hops Ho].
    apply Forall_inv in Ho. specialize (IH Hops).
    destruct o as [incoming | updates timestamp | payload Date_now]; simpl.
    + by apply applyServerList_dated.
    + by apply applyServerUpdates_dated.
    + by apply applyServerError_dated.
Qed.

(** C10: in the registry reached from the empty one by any sequence of list
    snapshots, stats updates and error frames, an entry that has stats has a
    lastUpdate.  When the clock readings are usable timestamps, that
    lastUpdate is one too, and the age [getStatus] and [shouldAlert] compare
    with their limits is [now - lastUpdate], not the infinite fallback. *)
Theorem stats_imply_lastUpdate (ops : list registry_op) (e : ServerEntry.t) (now : number) :
  e ∈ run_ops ops ->
  is_Some (ServerEntry.stats e) ->
  is_Some (ServerEntry.lastUpdate e) /\
  (Forall clock_ok ops ->
     exists t, ServerEntry.lastUpdate e = Some t /\
       truthy_number t = true /\
       age e now = (now - t)%float).
Proof.
  intros He Hstats. split.
  - assert (Forall (dated (fun _ => True)) (run_ops ops)) as Hall.
    { apply run_ops_dated. apply Forall_forall. intros o _.
      destruct o; simpl; done. }
    rewrite Forall_forall in Hall. destruct (Hall e He Hstats) as (t & -> & _). eauto.
  - intros Hclock. apply run_ops_dated in Hclock.
    rewrite Forall_forall in Hclock. destruct (Hclock e He Hstats) as (t & Ht & Hok).
    exists t. split; [done |]. split; [done |]. by apply age_of_timestamp.
Qed.

(** After a snapshot, an update for [a] and an error frame for [c], the
    entry [c] has stats, and its age is measured from the error frame. *)
Lemma stats_imply_lastUpdate_witness :
  entry_c_failed ∈ run_ops session /\
  exists t, ServerEntry.lastUpdate entry_c_failed = Some t /\
    truthy_number t = true /\
    age entry_c_failed 1700000062000%float = (1700000062000 - t)%float.
Proof.
  assert (entry_c_failed ∈ run_ops session) as Hin.
  { vm_compute. apply list_elem_of_further, list_elem_of_here. }
  split; [exact Hin |].
  apply (proj2 (stats_imply_lastUpdate session entry_c_failed 1700000062000%float
                  Hin ltac:(by eexists))).
  repeat constructor.
Defined.

(** ** Connection manager *)

Lemma connect_backoff (WS_URL : string) (c : Connection.t) :
  Connection.backoff (connect WS_URL c) = Connection.backoff c.
Proof. unfold connect. by destruct (negb _). Qed.

(** Membership in the ladder, one case per rung. *)
Ltac on_ladder H :=
  unfold backoff_ladder in H;
  repeat (apply elem_of_cons in H as [H | H]);
  [.. | by apply elem_of_nil in H].

Ltac rung := vm_compute; repeat constructor.

Lemma next_on_ladder (b : number) :
  b ∈ backoff_ladder -> Math_min (b * 1.6)%float 15000%float ∈ backoff_ladder.
Proof. intros Hb. on_ladder Hb; subst b; rung. Qed.

Lemma handle_on_ladder (WS_URL : string) (c : Connection.t) (e : ws_event) :
  Connection.backoff c ∈ backoff_ladder ->
  Connection.backoff (handle WS_URL c e) ∈ backoff_ladder.
Proof.
  intros Hc. destruct e as [| | code | |]; simpl; try done.
  - rung.
  - destruct (negb _); [done |]. destruct (code =? 1000)%float; [done |].
    simpl. by apply next_on_ladder.
  - by rewrite connect_backoff.
Qed.

Lemma run_events_on_ladder (WS_URL : string) (events : list ws_event) :
  Connection.backoff (run_events WS_URL events) ∈ backoff_ladder.
Proof.
  unfold run_events. induction events as [| e events IH] using rev_ind.
  - simpl. unfold initial. rewrite connect_backoff. simpl. rung.
  - rewrite foldl_app. simpl. by apply handle_on_ladder.
Qed.

(** C7: whatever events the connection has seen, the backoff is one of
    1000, 1600, 2560, 4096, 6553.6, 10485.76, 15000, so it lies between its
    floor 1000 and its ceiling 15000.  The next event leaves it at least as
    large, unless the event is the opening of the connection, which sets it
    back to 1000.  A close that schedules a reconnect uses the current
    backoff as the delay and then grows it (times 1.6, capped): strictly
    below the ceiling, and not at all once the ceiling is reached. *)
Theorem backoff_monotone (WS_URL : string) (events : list ws_event) (e : ws_event) :
  let c := run_events WS_URL events in
  let c' := handle WS_URL c e in
  Connection.backoff c ∈ backoff_ladder /\
  geb (Connection.backoff c) 1000 = true /\
  geb 15000 (Connection.backoff c) = true /\
  (e = ws_onopen -> Connection.backoff c' = 1000%float) /\
  (e <> ws_onopen -> geb (Connection.backoff c') (Connection.backoff c) = true) /\
  (e <> ws_onopen -> Connection.backoff c = 15000%float ->
     Connection.backoff c' = 15000%float) /\
  (forall code, e = ws_onclose code ->
     Connection.shouldReconnect c = true -> (code =? 1000)%float = false ->
     Connection.reconnectTimer c' = Some (Connection.backoff c) /\
     Connection.backoff c' = Math_min (Connection.backoff c * 1.6)%float 15000%float /\
     (gtb 15000 (Connection.backoff c) = true ->
        gtb (Connection.backoff c') (Connection.backoff c) = true)).
Proof.
  cbv zeta. pose proof (run_events_on_ladder WS_URL events) as Hc.
  destruct (run_events WS_URL events) as [state b again timer refresh]. simpl in *.
  split; [done |].
  split; [on_ladder Hc; subst b; reflexivity |].
  split; [on_ladder Hc; subst b; reflexivity |].
  split; [by intros -> |].
  split; [| split].
  - intros Hne. destruct e as [| | code | |]; simpl; try done;
      try (on_ladder Hc; subst b; reflexivity).
    + destruct again; simpl; [| on_ladder Hc; subst b; reflexivity].
      destruct (code =? 1000)%float; simpl; on_ladder Hc; subst b; reflexivity.
    + rewrite connect_backoff. simpl. on_ladder Hc; subst b; reflexivity.
  - intros Hne ->. destruct e as [| | code | |]; simpl; try done.
    + destruct again; simpl; [| done]. by destruct (code =? 1000)%float.
    + by rewrite connect_backoff.
  - intros code -> Hagain Hcode. simpl in Hagain. subst again. simpl. rewrite Hcode. simpl.
    split; [done |]. split; [done |].
    on_ladder Hc; subst b; vm_compute; done.
Qed.

(** A flapping connection: after two abnormal closes the delay has grown
    from 1000 to 2560, and the handshake that follows resets it to 1000. *)
Lemma backoff_monotone_witness :
  Connection.backoff (run_events "ws://localhost:8000/ws" flapping) = 2560%float /\
  Connection.backoff
    (handle "ws://localhost:8000/ws" (run_events "ws://localhost:8000/ws" flapping) ws_onopen)
    = 1000%float.
Proof.
  split; [reflexivity |].
  apply (proj1 (proj2 (proj2 (proj2
           (backoff_monotone "ws://localhost:8000/ws" flapping ws_onopen))))).
  reflexivity.
Defined.

(** ** PM2 notification throttle *)

Lemma filter_ext_elem {A} (P Q : A -> Prop) `{!forall x, Decision (P x)}
    `{!forall x, Decision (Q x)} (l : list A) :
  (forall x, x ∈ l -> P x <-> Q x) -> filter P l = filter Q l.
Proof.
  induction l as [| x l IH]; intros Hext; [done |].
  rewrite !filter_cons.
  rewrite IH by (intros y Hy; apply Hext; by right).
  pose proof (Hext x (list_elem_of_here x l)) as Hx.
  destruct (decide (P x)), (decide (Q x)); tauto || done.
Qed.

Lemma shouldNotify_true (R : number) (previous : option ToastRecord.t) (signature : string)
    (nowMs : number) :
  shouldNotify R previous signature nowMs = true <->
  previous = None \/
  exists p, previous = Some p /\
    (ToastRecord.signature p <> signature \/
     geb (nowMs - ToastRecord.lastToastAt p)%float R = true).
Proof.
  unfold shouldNotify. destruct previous as [p |]; [| naive_solver].
  rewrite orb_true_iff, negb_true_iff.
  destruct (String.eqb_spec (ToastRecord.signature p) signature); naive_solver.
Qed.

Section throttle.
Variables (R nowMs : number).

Local Abbreviation step := (notify_step R nowMs).

Lemma notify_step_cases (m : gmap string ToastRecord.t) (ts : list Pm2Issue.t)
    (issue : Pm2Issue.t) :
  step (m, ts) issue =
    if notifies R m nowMs issue
    then (<[Pm2Issue.id issue := ToastRecord.mk (signature_of issue) nowMs]> m, ts ++ [issue])
    else (m, ts).
Proof. unfold notify_step, notifies. simpl. by destruct (shouldNotify _ _ _ _). Qed.

Lemma notify_fold_other (issues : list Pm2Issue.t) :
  forall m ts id, id ∉ Pm2Issue.id <$> issues ->
    (foldl step (m, ts) issues).1 !! id = m !! id.
Proof.
  induction issues as [| x rest IH]; intros m ts id Hid; [done |].
  simpl. rewrite notify_step_cases.
  rewrite fmap_cons, not_elem_of_cons in Hid. destruct Hid as [Hx Hrest].
  destruct (notifies R m nowMs x).
  - rewrite IH by done. by rewrite lookup_insert_ne.
  - by rewrite IH.
Qed.

Lemma notifies_insert_other (m : gmap string ToastRecord.t) (id : string)
    (r : ToastRecord.t) (issue : Pm2Issue.t) :
  Pm2Issue.id issue <> id ->
  notifies R (<[id := r]> m) nowMs issue = notifies R m nowMs issue.
Proof. intros Hne. unfold notifies. by rewrite lookup_insert_ne. Qed.

Lemma notify_fold_toasts (issues : list Pm2Issue.t) :
  NoDup (Pm2Issue.id <$> issues) ->
  forall m ts,
    (foldl step (m, ts) issues).2 =
      ts ++ filter (fun issue => notifies R m nowMs issue = true) issues.
Proof.
  induction issues as [| x rest IH]; intros Hnd m ts.
  - simpl. by rewrite app_nil_r.
  - rewrite fmap_cons, NoDup_cons in Hnd. destruct Hnd as [Hx Hnd].
    simpl. rewrite notify_step_cases, filter_cons.
    destruct (notifies R m nowMs x) eqn:Hn.
    + rewrite (IH Hnd). rewrite decide_True by done. rewrite <- app_assoc. simpl.
      do 2 f_equal. apply filter_ext_elem. intros y Hy.
      rewrite notifies_insert_other; [done |].
      intros Heq. apply Hx. rewrite <- Heq. by apply list_elem_of_fmap_2.
    + rewrite (IH Hnd). by rewrite decide_False by done.
Qed.

Lemma notify_fold_record (issues : list Pm2Issue.t) :
  NoDup (Pm2Issue.id <$> issues) ->
  forall m ts issue, issue ∈ issues ->
    (foldl step (m, ts) issues).1 !! Pm2Issue.id issue =
      if notifies R m nowMs issue
      then Some (ToastRecord.mk (signature_of issue) nowMs)
      else m !! Pm2Issue.id issue.
Proof.
  induction issues as [| x rest IH]; intros Hnd m ts issue Hin.
  - by apply elem_of_nil in Hin.
  - rewrite fmap_cons, NoDup_cons in Hnd. destruct Hnd as [Hx Hnd].
    simpl. rewrite notify_step_cases.
    apply elem_of_cons in Hin as [-> | Hin].
    + destruct (notifies R m nowMs x); rewrite notify_fold_other by done;
        simpl; [by rewrite lookup_insert_eq | done].
    + assert (Pm2Issue.id issue <> Pm2Issue.id x) as Hne.
      { intros Heq. apply Hx. rewrite <- Heq. by apply list_elem_of_fmap_2. }
      destruct (notifies R m nowMs x).
      * rewrite (IH Hnd) by done. rewrite notifies_insert_other by done.
        by rewrite lookup_insert_ne.
      * by rewrite (IH Hnd).
Qed.

(** The records kept before the issues are walked: those of the active ids. *)
Lemma kept_lookup (issues : list Pm2Issue.t) (m : gmap string ToastRecord.t) (id : string) :
  filter (fun kv : string * ToastRecord.t =>
            kv.1 ∈ (list_to_set (map Pm2Issue.id issues) : gset string)) m !! id =
    if decide (id ∈ Pm2Issue.id <$> issues) then m !! id else None.
Proof.
  case_decide as Hid.
  - apply option_eq. intros r. rewrite map_lookup_filter_Some. simpl.
    rewrite elem_of_list_to_set. naive_solver.
  - apply map_lookup_filter_None. right. intros r _. simpl.
    by rewrite elem_of_list_to_set.
Qed.

Lemma effect_toasts (issues : list Pm2Issue.t) (m : gmap string ToastRecord.t) :
  NoDup (Pm2Issue.id <$> issues) ->
  (pm2ToastEffect R issues nowMs m).2 =
    filter (fun issue => notifies R m nowMs issue = true) issues.
Proof.
  intros Hnd. unfold pm2ToastEffect. destruct issues as [| x rest] eqn:Hissues; [done |].
  rewrite <- Hissues in *. rewrite notify_fold_toasts by done. simpl.
  apply filter_ext_elem. intros y Hy. unfold notifies.
  rewrite kept_lookup. rewrite decide_True; [done |]. by apply list_elem_of_fmap_2.
Qed.

Lemma effect_record (issues : list Pm2Issue.t) (m : gmap string ToastRecord.t)
    (issue : Pm2Issue.t) :
  NoDup (Pm2Issue.id <$> issues) -> issue ∈ issues ->
  (pm2ToastEffect R issues nowMs m).1 !! Pm2Issue.id issue =
    if notifies R m nowMs issue
    then Some (ToastRecord.mk (signature_of issue) nowMs)
    else m !! Pm2Issue.id issue.
Proof.
  intros Hnd Hin. unfold pm2ToastEffect. destruct issues as [| x rest] eqn:Hissues.
  { by apply elem_of_nil in Hin. }
  rewrite <- Hissues in *. rewrite notify_fold_record by done. unfold notifies.
  rewrite kept_lookup. rewrite decide_True; [done |]. by apply list_elem_of_fmap_2.
Qed.

Lemma effect_dropped (issues : list Pm2Issue.t) (m : gmap string ToastRecord.t) (id : string) :
  id ∉ Pm2Issue.id <$> issues ->
  (pm2ToastEffect R issues nowMs m).1 !! id = None.
Proof.
  intros Hid. unfold pm2ToastEffect. destruct issues as [| x rest] eqn:Hissues; [done |].
  rewrite <- Hissues in *. rewrite notify_fold_other by done.
  rewrite kept_lookup. by rewrite decide_False.
Qed.

(** The walk, without any assumption on the ids. *)

Lemma effect_loop (issues : list Pm2Issue.t) (m : gmap string ToastRecord.t) :
  issues <> [] -> pm2ToastEffect R issues nowMs m = throttle_loop R issues nowMs m issues.
Proof. by destruct issues. Qed.

Lemma notifies_due (m : gmap string ToastRecord.t) (issue : Pm2Issue.t) :
  notifies R m nowMs issue = true <-> due R nowMs (m !! Pm2Issue.id issue) issue.
Proof. unfold notifies. apply shouldNotify_true. Qed.

Lemma notify_fold_prefix (issues : list Pm2Issue.t) :
  forall m ts, exists more, (foldl step (m, ts) issues).2 = ts ++ more.
Proof.
  induction issues as [| x rest IH]; intros m ts; simpl.
  - exists []. by rewrite app_nil_r.
  - rewrite notify_step_cases. destruct (notifies R m nowMs x).
    + destruct (IH (<[Pm2Issue.id x := ToastRecord.mk (signature_of x) nowMs]> m)
                  (ts ++ [x])) as [more ->].
      exists (x :: more). by rewrite <- app_assoc.
    + apply IH.
Qed.

Lemma toasts_for_app (id : string) (l1 l2 : list Pm2Issue.t) :
  toasts_for id (l1 ++ l2) = toasts_for id l1 ++ toasts_for id l2.
Proof. unfold toasts_for. apply filter_app. Qed.

Lemma notify_fold_toasts_other (issues : list Pm2Issue.t) :
  forall m ts id, id ∉ Pm2Issue.id <$> issues ->
    toasts_for id (foldl step (m, ts) issues).2 = toasts_for id ts.
Proof.
  induction issues as [| x rest IH]; intros m ts id Hid; [done |].
  simpl. rewrite notify_step_cases.
  rewrite fmap_cons, not_elem_of_cons in Hid. destruct Hid as [Hx Hrest].
  destruct (notifies R m nowMs x); rewrite IH by done; [| done].
  rewrite toasts_for_app. unfold toasts_for at 2.
  rewrite filter_cons, decide_False by done. by rewrite filter_nil, app_nil_r.
Qed.

(** While the record of [id] holds the signature of every issue of [id]
    and is inside the repeat interval, no issue of [id] is shown. *)
Lemma notify_fold_same (issues : list Pm2Issue.t) (id : string) (r : ToastRecord.t) :
  (forall x, x ∈ issues -> Pm2Issue.id x = id ->
     signature_of x = ToastRecord.signature r) ->
  geb (nowMs - ToastRecord.lastToastAt r)%float R = false ->
  forall m ts, m !! id = Some r ->
    (foldl step (m, ts) issues).1 !! id = Some r /\
    toasts_for id (foldl step (m, ts) issues).2 = toasts_for id ts.
Proof.
  intros Hsig Hwindow. induction issues as [| x rest IH]; intros m ts Hm; [done |].
  simpl. rewrite notify_step_cases.
  assert (forall y, y ∈ rest -> Pm2Issue.id y = id ->
            signature_of y = ToastRecord.signature r) as Hrest.
  { intros y Hy. apply Hsig. by right. }
  destruct (decide (Pm2Issue.id x = id)) as [Hx | Hx].
  - assert (notifies R m nowMs x = false) as ->.
    { unfold notifies, shouldNotify. rewrite Hx, Hm.
      rewrite (Hsig x (list_elem_of_here x rest) Hx), String.eqb_refl, Hwindow. done. }
    by apply IH.
  - destruct (notifies R m nowMs x).
    + destruct (IH Hrest (<[Pm2Issue.id x := ToastRecord.mk (signature_of x) nowMs]> m)
                  (ts ++ [x])) as [Hrecord Htoasts].
      { by rewrite lookup_insert_ne. }
      split; [done |]. rewrite Htoasts, toasts_for_app. unfold toasts_for at 2.
      rewrite filter_cons, decide_False by done. by rewrite filter_nil, app_nil_r.
    + by apply IH.
Qed.

(** The first issue of an id that has no record is shown, and it is the
    only one of its id as long as the later ones carry its signature. *)
Lemma effect_first (before rest : list Pm2Issue.t) (first : Pm2Issue.t)
    (m : gmap string ToastRecord.t) :
  Pm2Issue.id first ∉ Pm2Issue.id <$> before ->
  m !! Pm2Issue.id first = None ->
  (forall x, x ∈ rest -> Pm2Issue.id x = Pm2Issue.id first ->
     signature_of x = signature_of first) ->
  (Pm2Issue.id first ∈ Pm2Issue.id <$> rest -> geb (nowMs - nowMs)%float R = false) ->
  (pm2ToastEffect R (before ++ first :: rest) nowMs m).1 !! Pm2Issue.id first =
    Some (ToastRecord.mk (signature_of first) nowMs) /\
  toasts_for (Pm2Issue.id first) (pm2ToastEffect R (before ++ first :: rest) nowMs m).2 =
    [first].
Proof.
  intros Hbefore Hfresh Hsig Hwindow.
  rewrite effect_loop by (by destruct before). unfold throttle_loop.
  rewrite foldl_app.
  pose proof (notify_fold_other before
                (filter (fun kv : string * ToastRecord.t =>
                   kv.1 ∈ (list_to_set (map Pm2Issue.id (before ++ first :: rest))
                           : gset string)) m) [] _ Hbefore) as Hrecord.
  pose proof (notify_fold_toasts_other before
                (filter (fun kv : string * ToastRecord.t =>
                   kv.1 ∈ (list_to_set (map Pm2Issue.id (before ++ first :: rest))
                           : gset string)) m) [] _ Hbefore) as Htoasts.
  rewrite kept_lookup in Hrecord.
  rewrite decide_True in Hrecord by (rewrite fmap_app, fmap_cons; set_solver).
  rewrite Hfresh in Hrecord.
  destruct (foldl step _ before) as [m1 ts1]. simpl in Hrecord, Htoasts.
  cbn [foldl]. rewrite notify_step_cases.
  assert (notifies R m1 nowMs first = true) as ->.
  { apply notifies_due. by left. }
  assert (toasts_for (Pm2Issue.id first) (ts1 ++ [first]) = [first]) as Hshown.
  { rewrite toasts_for_app, Htoasts. unfold toasts_for.
    by rewrite filter_cons, decide_True, filter_nil. }
  destruct (decide (Pm2Issue.id first ∈ Pm2Issue.id <$> rest)) as [Hin | Hout].
  - destruct (notify_fold_same rest (Pm2Issue.id first)
                (ToastRecord.mk (signature_of first) nowMs) Hsig (Hwindow Hin)
                (<[Pm2Issue.id first := ToastRecord.mk (signature_of first) nowMs]> m1)
                (ts1 ++ [first])) as [Hr Ht].
    { by rewrite lookup_insert_eq. }
    split; [done |]. by rewrite Ht.
  - rewrite notify_fold_other, notify_fold_toasts_other by done.
    split; [by rewrite lookup_insert_eq | done].
Qed.

(** A run in which every issue of [id] carries the recorded signature,
    inside the repeat interval, shows nothing for [id]. *)
Lemma effect_same (issues : list Pm2Issue.t) (m : gmap string ToastRecord.t) (id : string)
    (r : ToastRecord.t) :
  m !! id = Some r ->
  (forall x, x ∈ issues -> Pm2Issue.id x = id ->
     signature_of x = ToastRecord.signature r) ->
  geb (nowMs - ToastRecord.lastToastAt r)%float R = false ->
  toasts_for id (pm2ToastEffect R issues nowMs m).2 = [].
Proof.
  intros Hm Hsig Hwindow.
  destruct (decide (issues = [])) as [-> | Hissues]; [done |].
  rewrite effect_loop by done. unfold throttle_loop.
  destruct (decide (id ∈ Pm2Issue.id <$> issues)) as [Hin | Hout].
  - refine (proj2 (notify_fold_same issues id r Hsig Hwindow _ [] _)).
    rewrite kept_lookup. by rewrite decide_True.
  - by rewrite notify_fold_toasts_other.
Qed.

(** The first issue of an id whose record holds another signature is shown. *)
Lemma effect_changed (before rest : list Pm2Issue.t) (changed : Pm2Issue.t)
    (m : gmap string ToastRecord.t) (r : ToastRecord.t) :
  Pm2Issue.id changed ∉ Pm2Issue.id <$> before ->
  m !! Pm2Issue.id changed = Some r ->
  ToastRecord.signature r <> signature_of changed ->
  exists more,
    toasts_for (Pm2Issue.id changed)
      (pm2ToastEffect R (before ++ changed :: rest) nowMs m).2 = changed :: more /\
    (Pm2Issue.id changed ∉ Pm2Issue.id <$> rest -> more = []).
Proof.
  intros Hbefore Hm Hsig.
  rewrite effect_loop by (by destruct before). unfold throttle_loop.
  rewrite foldl_app.
  pose proof (notify_fold_other before
                (filter (fun kv : string * ToastRecord.t =>
                   kv.1 ∈ (list_to_set (map Pm2Issue.id (before ++ changed :: rest))
                           : gset string)) m) [] _ Hbefore) as Hrecord.
  pose proof (notify_fold_toasts_other before
                (filter (fun kv : string * ToastRecord.t =>
                   kv.1 ∈ (list_to_set (map Pm2Issue.id (before ++ changed :: rest))
                           : gset string)) m) [] _ Hbefore) as Htoasts.
  rewrite kept_lookup in Hrecord.
  rewrite decide_True in Hrecord by (rewrite fmap_app, fmap_cons; set_solver).
  rewrite Hm in Hrecord.
  destruct (foldl step _ before) as [m1 ts1]. simpl in Hrecord, Htoasts.
  cbn [foldl]. rewrite notify_step_cases.
  assert (notifies R m1 nowMs changed = true) as ->.
  { apply notifies_due. right. exists r. split; [done |]. by left. }
  assert (toasts_for (Pm2Issue.id changed) (ts1 ++ [changed]) = [changed]) as Hshown.
  { rewrite toasts_for_app, Htoasts. unfold toasts_for.
    by rewrite filter_cons, decide_True, filter_nil. }
  destruct (notify_fold_prefix rest
              (<[Pm2Issue.id changed := ToastRecord.mk (signature_of changed) nowMs]> m1)
              (ts1 ++ [changed])) as [more Hmore].
  exists (toasts_for (Pm2Issue.id changed) more). split.
  - by rewrite Hmore, toasts_for_app, Hshown.
  - intros Hrest.
    pose proof (notify_fold_toasts_other rest
                  (<[Pm2Issue.id changed := ToastRecord.mk (signature_of changed) nowMs]> m1)
                  (ts1 ++ [changed]) _ Hrest) as Hkeep.
    rewrite Hmore, toasts_for_app, Hshown in Hkeep. by injection Hkeep.
Qed.

End throttle.

(** The alert set of a registry with distinct ids has distinct ids. *)
Lemma pm2Issues_NoDup (servers : list ServerEntry.t) :
  NoDup (ServerEntry.id <$> servers) -> NoDup (Pm2Issue.id <$> pm2Issues servers).
Proof.
  intros Hnd. unfold pm2Issues.
  change (map ?f ?l) with (f <$> l). rewrite <- list_fmap_compose.
  refine (sublist_NoDup _ (ServerEntry.id <$> servers) Hnd _).
  apply (fmap_sublist ServerEntry.id). apply sublist_filter.
Qed.

(** The signature determines the count and the joined names: the count is
    written in decimal digits, so the first colon ends it. *)
Lemma pretty_N_go_no_colon (x : N) :
  forall s, no_colon s = true -> no_colon (pretty_N_go x s) = true.
Proof.
  induction (N.lt_wf_0 x) as [x _ IH]; intros s Hs.
  assert (x = 0 \/ 0 < x)%N as [-> | Hpos] by lia.
  - by rewrite pretty_N_go_0.
  - rewrite pretty_N_go_step by done. apply IH.
    { by apply N.div_lt. }
    simpl. rewrite Hs, andb_true_r. unfold pretty_N_char.
    by repeat case_match.
Qed.

Lemma pretty_nat_no_colon (n : nat) : no_colon (pretty n) = true.
Proof.
  unfold pretty, pretty_nat, pretty, pretty_N. case_decide; [done |].
  by apply pretty_N_go_no_colon.
Qed.

Lemma colon_ends (a b x y : string) :
  no_colon a = true -> no_colon b = true ->
  a +:+ ":" +:+ x = b +:+ ":" +:+ y -> a = b /\ x = y.
Proof.
  revert b. induction a as [| c a IH]; intros [| d b] Ha Hb Heq; simpl in *.
  - by injection Heq.
  - injection Heq as <- _. by rewrite Ascii.eqb_refl in Hb.
  - injection Heq as -> _. by rewrite Ascii.eqb_refl in Ha.
  - injection Heq as <- Heq.
    apply andb_true_iff in Ha as [_ Ha]. apply andb_true_iff in Hb as [_ Hb].
    destruct (IH b Ha Hb Heq) as [-> ->]. done.
Qed.

Lemma signature_of_inv (issue issue' : Pm2Issue.t) :
  signature_of issue = signature_of issue' <->
  Pm2Issue.count issue = Pm2Issue.count issue' /\
  String.concat "|" (Pm2Issue.names issue) = String.concat "|" (Pm2Issue.names issue').
Proof.
  unfold signature_of. split.
  - intros Heq. apply colon_ends in Heq as [Hcount Hnames];
      [| apply pretty_nat_no_colon ..].
    split; [by apply (inj pretty) | done].
  - by intros [-> ->].
Qed.

(** C6: the throttle, on every alert set.  The signature of an issue is
    the text "count:name|name|...": two issues have the same signature
    exactly when they have the same count and the same joined names.  A run keeps the records of the ids of
    the alert set, removes the others, and walks the issues in order: each
    issue is decided against the record its id has when its turn comes, a
    toast being due when there is no record, or the recorded signature
    differs, or the record is at least the repeat interval old; a toast
    writes the record (signature, now), no toast leaves everything as it
    was.  So on an alert set with distinct ids a toast is shown for exactly
    the issues that are due against the records of the previous run.  From
    no record, the first issue of an id is shown, alone as long as the later
    issues of the id carry its signature; a following run with that
    signature inside the repeat interval shows none, so exactly one toast
    was shown; a following run whose first issue of the id has another
    signature shows it, whatever the time. *)
Theorem pm2_toast_throttle (R : number) (issues : list Pm2Issue.t) (nowMs : number)
    (pm2Toast : gmap string ToastRecord.t) :
  let after := pm2ToastEffect R issues nowMs pm2Toast in
  let loop := throttle_loop R issues nowMs pm2Toast in
  (forall issue,
     signature_of issue =
       pretty (Pm2Issue.count issue) +:+ ":" +:+ String.concat "|" (Pm2Issue.names issue)) /\
  (forall issue issue',
     signature_of issue = signature_of issue' <->
     Pm2Issue.count issue = Pm2Issue.count issue' /\
     String.concat "|" (Pm2Issue.names issue) = String.concat "|" (Pm2Issue.names issue')) /\
  (issues <> [] -> after = loop issues) /\
  (forall id,
     (loop []).1 !! id =
       if decide (id ∈ Pm2Issue.id <$> issues) then pm2Toast !! id else None) /\
  (loop []).2 = [] /\
  (forall walked issue,
     (due R nowMs ((loop walked).1 !! Pm2Issue.id issue) issue ->
        loop (walked ++ [issue]) =
          (<[Pm2Issue.id issue := ToastRecord.mk (signature_of issue) nowMs]> (loop walked).1,
           (loop walked).2 ++ [issue])) /\
     (~ due R nowMs ((loop walked).1 !! Pm2Issue.id issue) issue ->
        loop (walked ++ [issue]) = loop walked)) /\
  (forall id, id ∉ Pm2Issue.id <$> issues -> after.1 !! id = None) /\
  (NoDup (Pm2Issue.id <$> issues) ->
     (forall issue, issue ∈ after.2 <->
        issue ∈ issues /\ due R nowMs (pm2Toast !! Pm2Issue.id issue) issue) /\
     (forall issue, issue ∈ issues ->
        (issue ∈ after.2 ->
           after.1 !! Pm2Issue.id issue =
             Some (ToastRecord.mk (signature_of issue) nowMs)) /\
        (issue ∉ after.2 ->
           after.1 !! Pm2Issue.id issue = pm2Toast !! Pm2Issue.id issue))) /\
  (forall issues' nowMs' before first rest,
     issues = before ++ first :: rest ->
     Pm2Issue.id first ∉ Pm2Issue.id <$> before ->
     pm2Toast !! Pm2Issue.id first = None ->
     (forall x, x ∈ rest -> Pm2Issue.id x = Pm2Issue.id first ->
        signature_of x = signature_of first) ->
     (Pm2Issue.id first ∈ Pm2Issue.id <$> rest -> (R <=? nowMs - nowMs)%float = false) ->
     let again := pm2ToastEffect R issues' nowMs' after.1 in
     toasts_for (Pm2Issue.id first) after.2 = [first] /\
     ((forall x, x ∈ issues' -> Pm2Issue.id x = Pm2Issue.id first ->
         signature_of x = signature_of first) ->
      (R <=? nowMs' - nowMs)%float = false ->
        toasts_for (Pm2Issue.id first) again.2 = [] /\
        length (toasts_for (Pm2Issue.id first) (after.2 ++ again.2)) = 1) /\
     (forall before' changed rest',
        issues' = before' ++ changed :: rest' ->
        Pm2Issue.id changed = Pm2Issue.id first ->
        Pm2Issue.id first ∉ Pm2Issue.id <$> before' ->
        signature_of changed <> signature_of first ->
        exists more,
          toasts_for (Pm2Issue.id first) again.2 = changed :: more /\
          (Pm2Issue.id first ∉ Pm2Issue.id <$> rest' -> more = []))).
Proof.
  cbv zeta. split; [reflexivity |]. split; [apply signature_of_inv |].
  split; [apply effect_loop |].
  split; [intros id; apply kept_lookup |]. split; [reflexivity |].
  split; [| split; [| split]].
  - intros walked issue. unfold throttle_loop. rewrite foldl_app. cbn [foldl].
    destruct (foldl (notify_step R nowMs) _ walked) as [m1 ts1]. cbn [fst snd].
    rewrite notify_step_cases, <- notifies_due.
    destruct (notifies R m1 nowMs issue); split; done.
  - intros id Hid. by apply effect_dropped.
  - intros Hnd.
    assert (forall issue, issue ∈ issues ->
              (issue ∈ (pm2ToastEffect R issues nowMs pm2Toast).2 <->
               notifies R pm2Toast nowMs issue = true)) as Hshown.
    { intros issue Hin. rewrite effect_toasts by done.
      rewrite list_elem_of_filter. tauto. }
    split.
    + intros issue. rewrite effect_toasts by done.
      rewrite list_elem_of_filter, notifies_due. tauto.
    + intros issue Hin. rewrite (effect_record R nowMs issues pm2Toast issue Hnd Hin).
      rewrite (Hshown issue Hin).
      destruct (notifies R pm2Toast nowMs issue); split; done.
  - intros issues' nowMs' before first rest -> Hbefore Hfresh Hsig Hwindow.
    destruct (effect_first R nowMs before rest first pm2Toast Hbefore Hfresh Hsig Hwindow)
      as [Hrecord Hone].
    split; [done |]. split.
    + intros Hsig' Hwindow'.
      assert (toasts_for (Pm2Issue.id first)
                (pm2ToastEffect R issues' nowMs'
                   (pm2ToastEffect R (before ++ first :: rest) nowMs pm2Toast).1).2 = [])
        as Hnone.
      { by apply (effect_same R nowMs' issues' _ _ _ Hrecord). }
      split; [done |]. by rewrite toasts_for_app, Hone, Hnone.
    + intros before' changed rest' -> Hid Hbefore' Hchanged. rewrite <- Hid in *.
      apply (effect_changed R nowMs' before' rest' changed _ _ Hbefore' Hrecord).
      simpl. congruence.
Qed.

(** With the default repeat interval of ten minutes: one process of
    ["api-1"] is down; the first run shows a toast, the run two minutes
    later with the same signature shows none, and so one toast was shown. *)
Lemma pm2_toast_throttle_witness :
  toasts_for "api-1"
    (pm2ToastEffect 600000%float [issue_api 1 ["worker"]] 1700000000000%float ∅).2
    = [issue_api 1 ["worker"]] /\
  length (toasts_for "api-1"
    ((pm2ToastEffect 600000%float [issue_api 1 ["worker"]] 1700000000000%float ∅).2 ++
     (pm2ToastEffect 600000%float [issue_api 1 ["worker"]] 1700000120000%float
        (pm2ToastEffect 600000%float [issue_api 1 ["worker"]] 1700000000000%float ∅).1).2))
    = 1.
Proof.
  destruct (proj2 (proj2 (proj2 (proj2 (proj2 (proj2 (proj2 (proj2
              (pm2_toast_throttle 600000%float [issue_api 1 ["worker"]]
                 1700000000000%float ∅))))))))
            [issue_api 1 ["worker"]] 1700000120000%float
            [] (issue_api 1 ["worker"]) []
            eq_refl ltac:(set_solver) eq_refl ltac:(set_solver) ltac:(set_solver))
    as (Hfirst & Hsame & _).
  split; [exact Hfirst |].
  refine (proj2 (Hsame _ eq_refl)).
  intros x Hx _. apply list_elem_of_singleton in Hx. by rewrite Hx.
Defined.

(** C6 as stated fails once two entries share an id, which the registry
    reaches: after the list frame that names ["a"] twice and one update for
    ["a"], the alert set holds two issues with the id ["a"]; neither has a
    record before the run, yet the run shows a toast for the first only:
    the second is decided against the record the first has just written. *)
Lemma throttle_shared_record :
  ServerEntry.id <$> registry_a_twice = ["a"; "a"] /\
  pm2Issues registry_a_twice = [issue_a "10.0.0.1"; issue_a "10.0.0.2"] /\
  (∅ : gmap string ToastRecord.t) !! Pm2Issue.id (issue_a "10.0.0.2") = None /\
  (pm2ToastEffect 600000%float (pm2Issues registry_a_twice) 1700000001000%float ∅).2
    = [issue_a "10.0.0.1"] /\
  issue_a "10.0.0.2" ∉
    (pm2ToastEffect 600000%float (pm2Issues registry_a_twice) 1700000001000%float ∅).2.
Proof.
  assert ((pm2ToastEffect 600000%float (pm2Issues registry_a_twice) 1700000001000%float ∅).2
          = [issue_a "10.0.0.1"]) as Hshown by reflexivity.
  split; [reflexivity |]. split; [reflexivity |]. split; [reflexivity |].
  split; [exact Hshown |].
  rewrite Hshown. intros Hin. apply list_elem_of_singleton in Hin. discriminate Hin.
Qed.

(** ** Metric parsers *)

(** A [forEach] that pushes [g d] for the elements [d] that pass [p]. *)
Lemma foldl_push {A B} (p : A -> bool) (g : A -> B) (f : list B -> A -> list B) :
  (forall acc d, f acc d = if p d then acc ++ [g d] else acc) ->
  forall l acc, foldl f acc l = acc ++ (g <$> List.filter p l).
Proof.
  intros Hf. induction l as [| d l IH]; intros acc; simpl.
  - by rewrite app_nil_r.
  - rewrite IH, Hf. destruct (p d); simpl; [by rewrite <- app_assoc | done].
Qed.

(** A [forEach] that pushes at most one result per element: every result
    comes from some element. *)
Lemma foldl_push_elem {A B} (Q : A -> B -> Prop) (f : list B -> A -> list B) :
  (forall acc d, f acc d = acc \/ exists u, f acc d = acc ++ [u] /\ Q d u) ->
  forall l acc u, u ∈ foldl f acc l -> u ∈ acc \/ exists d, d ∈ l /\ Q d u.
Proof.
  intros Hf. induction l as [| d l IH]; intros acc u Hu; simpl in Hu; [by left |].
  apply IH in Hu as [Hu | (d' & Hd' & HQ)].
  - destruct (Hf acc d) as [Heq | (u' & Heq & HQ)]; rewrite Heq in Hu; [by left |].
    apply elem_of_app in Hu as [Hu | Hu]; [by left |].
    apply list_elem_of_singleton in Hu as ->. right. exists d. split; [by left | done].
  - right. exists d'. split; [by right | done].
Qed.

Lemma pm2_step_is_bad (badNames : list string) (detail : json) :
  (let detail := Some detail in
   if negb (isRecord detail) then badNames
   else
     match toString (prop detail "status") with
     | Some status =>
         if truthy_string status && negb (String.eqb (toLowerCase status) "online")
         then
           let name := toString (prop detail "name") ?? toString (prop detail "id") in
           badNames ++ [default "unknown" name]
         else badNames
     | None => badNames
     end) =
  if is_bad detail then badNames ++ [bad_name detail] else badNames.
Proof.
  cbv zeta. unfold is_bad, bad_name.
  destruct (isRecord (Some detail)); cbn [negb andb]; [| reflexivity].
  destruct (toString (prop (Some detail) "status")) as [status |]; [| reflexivity].
  destruct (truthy_string status && negb (String.eqb (toLowerCase status) "online"));
    reflexivity.
Qed.

(** What both parsers store for a details array. *)
Lemma pm2_loop (details : list json) :
  foldl (fun badNames detail =>
    let detail := Some detail in
    if negb (isRecord detail) then badNames
    else
      match toString (prop detail "status") with
      | Some status =>
          if truthy_string status && negb (String.eqb (toLowerCase status) "online")
          then
            let name := toString (prop detail "name") ?? toString (prop detail "id") in
            badNames ++ [default "unknown" name]
          else badNames
      | None => badNames
      end) [] details
  = bad_name <$> List.filter is_bad details.
Proof.
  rewrite (foldl_push is_bad bad_name); [done |].
  intros acc d. apply pm2_step_is_bad.
Qed.

Lemma parseServerUpdate_pm2 (value : option json) (u : IncomingServerUpdate.t) :
  parseServerUpdate value = Some u ->
  IncomingServerUpdate.pm2BadCount u =
    (fun details => length (List.filter is_bad details)) <$> pm2_details value /\
  IncomingServerUpdate.pm2BadNames u =
    (fun details => take 3 (bad_name <$> List.filter is_bad details)) <$> pm2_details value.
Proof.
  unfold parseServerUpdate, pm2_details.
  destruct (negb (isRecord value)); [done |].
  destruct (toString (prop value "server_id")) as [serverId |]; [| done].
  destruct (negb (truthy_string serverId)); [done |].
  intros [= <-]. simpl.
  destruct (isRecord (prop value "pm2")); [| done].
  destruct (prop (prop value "pm2") "details") as [[| | | | details |] |]; try done.
  rewrite pm2_loop. simpl. unfold slice. simpl.
  by rewrite length_fmap.
Qed.

(** A poll response that holds one entry parses to the record the push
    parser gives for that entry. *)
Lemma parseStatsList_single (entry : json) (u : IncomingServerUpdate.t) :
  parseServerUpdate (Some entry) = Some u ->
  parseStatsList (Some (JObject [("servers", JArray [entry])])) = [u].
Proof.
  unfold parseStatsList.
  change (isRecord (Some (JObject [("servers", JArray [entry])]))) with true.
  change (prop (Some (JObject [("servers", JArray [entry])])) "servers")
    with (Some (JArray [entry])).
  cbn [negb foldl]. cbv beta zeta. unfold parseServerUpdate.
  destruct (negb (isRecord (Some entry))); [done |].
  destruct (toString (prop (Some entry) "server_id")) as [serverId |]; [| done].
  cbn [nullish]. destruct (negb (truthy_string serverId)); [done |].
  intros Hu. injection Hu as <-. reflexivity.
Qed.

(** A [forEach] that pushes at most one result per element, seen through
    [view]: the results are those of the elements, in order. *)
Lemma foldl_push_view {A B C} (view : B -> C) (g : A -> option C)
    (f : list B -> A -> list B) :
  (forall acc d, (f acc d = acc /\ g d = None) \/
                 (exists u, f acc d = acc ++ [u] /\ g d = Some (view u))) ->
  forall l acc, view <$> foldl f acc l = (view <$> acc) ++ omap g l.
Proof.
  intros Hf. induction l as [| d l IH]; intros acc; simpl.
  - by rewrite app_nil_r.
  - rewrite IH. destruct (Hf acc d) as [[-> ->] | (u & -> & ->)]; [done |].
    rewrite fmap_app. by rewrite <- app_assoc.
Qed.

(** The notions of the rule, read off the value, are those the parsers
    compute. *)
Lemma truthy_string_non_empty (s : string) : truthy_string s = negb (String.eqb s "").
Proof. by destruct s. Qed.

Lemma toString_prop (value : json) (k : string) :
  toString (prop (Some value) k) = string_field value k.
Proof. reflexivity. Qed.

Lemma is_bad_process (detail : json) : is_bad detail = bad_process detail.
Proof.
  unfold is_bad, bad_process. rewrite toString_prop.
  destruct detail; try reflexivity.
  change (isRecord (Some (JObject props))) with true. cbn [andb].
  destruct (string_field (JObject props) "status") as [status |]; [| reflexivity].
  by rewrite truthy_string_non_empty.
Qed.

Lemma bad_name_process (detail : json) : bad_name detail = process_name detail.
Proof.
  unfold bad_name, process_name. rewrite !toString_prop.
  destruct (string_field detail "name"); [reflexivity |].
  by destruct (string_field detail "id").
Qed.

Lemma pm2_details_of (entry : json) : pm2_details (Some entry) = details_of entry.
Proof.
  unfold pm2_details, details_of.
  change (prop (Some entry) "pm2") with (field entry "pm2").
  destruct (field entry "pm2") as [pm2 |]; [| reflexivity].
  change (prop (Some pm2) "details") with (field pm2 "details").
  destruct pm2; reflexivity.
Qed.

Lemma filter_is_bad (details : list json) :
  List.filter is_bad details = List.filter bad_process details.
Proof.
  induction details as [| d details IH]; [done |].
  simpl. by rewrite is_bad_process, IH.
Qed.

Lemma pm2_rule_count (entry : json) :
  (fun details => length (List.filter is_bad details)) <$> pm2_details (Some entry) =
    bad_count entry.
Proof.
  unfold bad_count. rewrite pm2_details_of.
  destruct (details_of entry) as [details |]; [| done].
  simpl. by rewrite filter_is_bad.
Qed.

Lemma pm2_rule_names (entry : json) :
  (fun details => take 3 (bad_name <$> List.filter is_bad details))
    <$> pm2_details (Some entry) = bad_names entry.
Proof.
  unfold bad_names. rewrite pm2_details_of.
  destruct (details_of entry) as [details |]; [| done].
  simpl. rewrite filter_is_bad. do 2 f_equal.
  apply list_fmap_ext. intros _ d _. apply bad_name_process.
Qed.

Lemma stats_entry_id_code (entry : json) :
  stats_entry_id entry =
    if isRecord (Some entry) then
      match toString (prop (Some entry) "server_id") ?? toString (prop (Some entry) "id") with
      | Some serverId => if truthy_string serverId then Some serverId else None
      | None => None
      end
    else None.
Proof.
  unfold stats_entry_id, non_empty. rewrite !toString_prop.
  destruct entry; try reflexivity.
  change (isRecord (Some (JObject props))) with true. cbv iota.
  destruct (string_field (JObject props) "server_id") as [s |]; cbn [nullish].
  - rewrite truthy_string_non_empty. by destruct (String.eqb s "").
  - destruct (string_field (JObject props) "id") as [s |]; [| reflexivity].
    cbn [mbind option_bind]. rewrite truthy_string_non_empty.
    by destruct (String.eqb s "").
Qed.

Lemma parseServerUpdate_view (value : json) :
  pm2_view <$> parseServerUpdate (Some value) =
    (fun id => (id, bad_count value, bad_names value)) <$> update_id value.
Proof.
  destruct (parseServerUpdate (Some value)) as [u |] eqn:Hu.
  - destruct (parseServerUpdate_pm2 _ _ Hu) as [Hcount Hnames].
    rewrite pm2_rule_count in Hcount. rewrite pm2_rule_names in Hnames.
    cbn [fmap option_fmap option_map]. unfold pm2_view. rewrite Hcount, Hnames.
    assert (update_id value = Some (IncomingServerUpdate.server_id u)) as ->; [| done].
    revert Hu. unfold parseServerUpdate, update_id, non_empty. rewrite toString_prop.
    destruct (negb (isRecord (Some value))); [done |].
    destruct (string_field value "server_id") as [s |]; [| done].
    rewrite truthy_string_non_empty, negb_involutive. cbn [mbind option_bind].
    destruct (String.eqb s ""); [done |]. by intros [= <-].
  - enough (update_id value = None) as -> by done.
    revert Hu. unfold parseServerUpdate, update_id, non_empty. rewrite toString_prop.
    destruct value; try reflexivity.
    change (isRecord (Some (JObject props))) with true. cbn [negb].
    destruct (string_field (JObject props) "server_id") as [s |]; [| done].
    rewrite truthy_string_non_empty, negb_involutive. cbn [mbind option_bind].
    by destruct (String.eqb s "").
Qed.

Lemma parseStatsList_view (value : json) (servers : list json) :
  field value "servers" = Some (JArray servers) ->
  pm2_view <$> parseStatsList (Some value) =
    omap (fun entry =>
            (fun id => (id, bad_count entry, bad_names entry)) <$> stats_entry_id entry)
      servers.
Proof.
  intros Hservers. unfold parseStatsList.
  assert (isRecord (Some value) = true) as ->.
  { destruct value; try discriminate Hservers. reflexivity. }
  change (prop (Some value) "servers") with (field value "servers").
  rewrite Hservers. cbn [negb].
  rewrite (foldl_push_view pm2_view
             (fun entry =>
                (fun id => (id, bad_count entry, bad_names entry)) <$> stats_entry_id entry));
    [done |].
  intros acc entry. cbv zeta. rewrite stats_entry_id_code.
  destruct (isRecord (Some entry)); cbn [negb]; [| by left].
  destruct (toString (prop (Some entry) "server_id") ?? toString (prop (Some entry) "id"))
    as [serverId |]; [| by left].
  destruct (truthy_string serverId); cbn [negb]; [| by left].
  right. eexists. split; [reflexivity |].
  unfold pm2_view. cbn [IncomingServerUpdate.server_id IncomingServerUpdate.pm2BadCount
    IncomingServerUpdate.pm2BadNames fmap option_fmap option_map].
  rewrite <- pm2_rule_count, <- pm2_rule_names. unfold pm2_details.
  destruct (isRecord (prop (Some entry) "pm2")); [| done].
  destruct (prop (prop (Some entry) "pm2") "details") as [[| | | | details |] |];
    try done.
  rewrite pm2_loop. cbn [fmap option_fmap option_map]. unfold slice.
  rewrite Nat.sub_0_r, drop_0. by rewrite length_fmap.
Qed.

Lemma parseStatsList_no_array (value : option json) :
  (forall servers, prop value "servers" <> Some (JArray servers)) ->
  parseStatsList value = [].
Proof.
  intros Hservers. unfold parseStatsList.
  destruct (negb (isRecord value)); [done |].
  destruct (prop value "servers") as [[| | | | servers |] |]; try done.
  by destruct (Hservers servers).
Qed.

(** C5, as the code has it: both stats parsers derive the PM2 fields by one
    rule.  A process of [pm2.details] is bad when its status is a string
    other than the empty one that, compared case-insensitively, is not
    ["online"]; a process without a status, or with the empty string as
    status, is not counted.  [pm2BadCount] is the number of bad processes
    and [pm2BadNames] the first three of their names (the name, else the
    id, else ["unknown"]); both are absent when there is no details array.
    The push parser returns a record exactly for a value with a non-empty
    string [server_id], and that record holds the rule applied to the
    value.  The poll parser returns, in the order of [servers], one record
    for each entry with a non-empty string [server_id] (else [id]), and the
    record of an entry holds the rule applied to that entry; it returns
    nothing when [servers] is not an array.  An entry the push parser
    accepts parses to the same record in a poll response. *)
Theorem parsers_pm2_rule :
  (forall value,
     pm2_view <$> parseServerUpdate (Some value) =
       (fun id => (id, bad_count value, bad_names value)) <$> update_id value) /\
  (forall value servers, field value "servers" = Some (JArray servers) ->
     pm2_view <$> parseStatsList (Some value) =
       omap (fun entry =>
               (fun id => (id, bad_count entry, bad_names entry)) <$> stats_entry_id entry)
         servers) /\
  (forall value, (forall servers, prop value "servers" <> Some (JArray servers)) ->
     parseStatsList value = []) /\
  parseServerUpdate None = None /\
  (forall entry u, parseServerUpdate (Some entry) = Some u ->
     parseStatsList (Some (JObject [("servers", JArray [entry])])) = [u]).
Proof.
  split; [exact parseServerUpdate_view |].
  split; [exact parseStatsList_view |].
  split; [exact parseStatsList_no_array |].
  split; [reflexivity | exact parseStatsList_single].
Qed.

(** Four processes, one online, one stopped, one errored, one with an empty
    status: two are bad, named ["worker"] and ["7"].  And a poll response
    with two servers gives each server its own count. *)
Lemma parsers_pm2_rule_witness :
  (exists u,
     parseServerUpdate (Some frame_pm2) = Some u /\
     pm2_view u = ("api-1", Some 2, Some ["worker"; "7"]) /\
     parseStatsList (Some (JObject [("servers", JArray [frame_pm2])])) = [u]) /\
  pm2_view <$> parseStatsList (Some stats_response_two) =
    [("api-1", Some 1, Some ["worker"]); ("api-2", Some 0, Some [])].
Proof.
  split.
  - destruct (parseServerUpdate (Some frame_pm2)) as [u |] eqn:Hu; [| discriminate Hu].
    exists u. split; [reflexivity |].
    pose proof (proj1 parsers_pm2_rule frame_pm2) as Hview. rewrite Hu in Hview.
    split; [apply (inj Some); exact Hview |].
    exact (proj2 (proj2 (proj2 (proj2 parsers_pm2_rule))) frame_pm2 u Hu).
  - exact (proj1 (proj2 parsers_pm2_rule) stats_response_two _ eq_refl).
Defined.

(** C5 as stated fails on an empty status: the fourth process of the frame
    has the status [""], which is not ["online"], yet neither parser counts
    it: three statuses differ from ["online"], two processes are reported. *)
Lemma empty_status_not_counted :
  exists u details,
    parseServerUpdate (Some frame_pm2) = Some u /\
    parseStatsList (Some (JObject [("servers", JArray [frame_pm2])])) = [u] /\
    pm2_details (Some frame_pm2) = Some details /\
    length (List.filter status_not_online details) = 3 /\
    IncomingServerUpdate.pm2BadCount u = Some 2 /\
    IncomingServerUpdate.pm2BadNames u = Some ["worker"; "7"].
Proof.
  eexists _, _. repeat split; reflexivity.
Qed.

(** * Further properties *)

(** ** Status against alert *)

(** X1: the badge and the alert flag of a card agree at the ends of the
    scale, whatever the alert thresholds are: a server shown as Error
    ([down]) always alerts; a server shown as Disabled or Waiting ([idle])
    never does. *)
Theorem status_alert_agree (cfg : AlertConfig.t) (server : ServerEntry.t) (now : number) :
  (StatusInfo.key (getStatus server now) = StatusKey.down ->
     shouldAlert cfg server now = true) /\
  (StatusInfo.key (getStatus server now) = StatusKey.disabled ->
     shouldAlert cfg server now = false) /\
  (StatusInfo.key (getStatus server now) = StatusKey.idle ->
     shouldAlert cfg server now = false).
Proof.
  unfold getStatus, shouldAlert.
  destruct (ServerEntry.enabled server); simpl.
  2: { repeat split; done. }
  destruct (ServerEntry.stats server) as [stats |]; [| repeat split; done].
  destruct (truthy_error (ServerStats.error stats)); [repeat split; done |].
  repeat split; split_ifs; done.
Qed.

Lemma status_alert_agree_witness :
  shouldAlert AlertConfig.defaults entry_a_failed 1700000000500%float = true.
Proof.
  apply (proj1 (status_alert_agree AlertConfig.defaults entry_a_failed 1700000000500%float)).
  reflexivity.
Defined.

(** X2: an enabled server with a PM2 process that is not online always
    alerts, whatever its other metrics, its age and the thresholds: so every
    enabled server of the PM2 issue list is in the alert list. *)
Theorem pm2_issue_alerts (cfg : AlertConfig.t) (servers : list ServerEntry.t)
    (now : number) (server : ServerEntry.t) :
  server ∈ servers ->
  ServerEntry.enabled server = true ->
  0 < default 0 (stats_field ServerStats.pm2BadCount (ServerEntry.stats server)) ->
  shouldAlert cfg server now = true /\
  server ∈ alertServers cfg servers now /\
  hasAlert cfg servers now = true /\
  ServerEntry.id server ∈ Pm2Issue.id <$> pm2Issues servers.
Proof.
  intros Hin Henabled Hbad.
  assert (shouldAlert cfg server now = true) as Halert.
  { unfold shouldAlert. rewrite Henabled. simpl.
    destruct (ServerEntry.stats server) as [stats |]; simpl in Hbad; [| lia].
    destruct (truthy_error _); [done |]. destruct (gtb (age server now) _); [done |].
    apply orb_true_iff. right. by apply Nat.ltb_lt. }
  assert (server ∈ alertServers cfg servers now) as Hshown.
  { unfold alertServers. apply list_elem_of_In, filter_In.
    split; [by apply list_elem_of_In | done]. }
  split; [done |]. split; [done |]. split.
  - unfold hasAlert. apply Nat.ltb_lt.
    destruct (alertServers cfg servers now); [by apply elem_of_nil in Hshown | simpl; lia].
  - unfold pm2Issues. change (map ?f ?l) with (f <$> l). rewrite <- list_fmap_compose.
    apply list_elem_of_fmap. exists server. split; [done |].
    by apply list_elem_of_filter.
Qed.

(** One PM2 process of ["a"] is down and nothing else is wrong: the
    registry alerts. *)
Lemma pm2_issue_alerts_witness :
  hasAlert AlertConfig.defaults [entry_a_pm2; entry_b] 1700000000500%float = true.
Proof.
  apply (pm2_issue_alerts AlertConfig.defaults [entry_a_pm2; entry_b]
           1700000000500%float entry_a_pm2 (list_elem_of_here _ _) eq_refl).
  simpl. lia.
Defined.

(** ** Reconciler: composition and edge behaviour *)

Lemma applyServerUpdates_map (updates : list IncomingServerUpdate.t) (timestamp : number)
    (prev : list ServerEntry.t) :
  updates <> [] ->
  applyServerUpdates updates timestamp prev =
    (fun item =>
       match keyed IncomingServerUpdate.server_id updates !! ServerEntry.id item with
       | Some payload => merged_entry payload timestamp item
       | None => item
       end) <$> prev.
Proof.
  intros Hne. unfold applyServerUpdates. destruct updates as [| u rest]; [done |].
  apply list_fmap_ext. intros i item _.
  by destruct (keyed _ _ !! _).
Qed.

Lemma applyServerError_map (payload : IncomingServerError.t) (Date_now : nat -> number)
    (prev : list ServerEntry.t) :
  applyServerError payload Date_now prev =
    imap (fun i item =>
            if String.eqb (ServerEntry.id item) (IncomingServerError.server_id payload)
            then failed_entry payload (Date_now i) item else item) prev.
Proof. reflexivity. Qed.

Lemma nullish_idem {A} (a b : option A) : a ?? (a ?? b) = a ?? b.
Proof. by destruct a. Qed.

Lemma merged_entry_again (payload : IncomingServerUpdate.t) (t1 t2 : number)
    (item : ServerEntry.t) :
  merged_entry payload t2 (merged_entry payload t1 item) = merged_entry payload t2 item.
Proof.
  unfold merged_entry. simpl. rewrite !nullish_idem.
  by destruct (IncomingServerUpdate.error payload).
Qed.

(** X3: a stats update that arrives a second time (the poll repeating what
    the push channel already delivered) changes nothing but the freshness:
    applying the same updates again at [t2] gives the registry that applying
    them once at [t2] gives.  In particular the merge is idempotent. *)
Theorem applyServerUpdates_again (updates : list IncomingServerUpdate.t) (t1 t2 : number)
    (prev : list ServerEntry.t) :
  applyServerUpdates updates t2 (applyServerUpdates updates t1 prev) =
    applyServerUpdates updates t2 prev.
Proof.
  destruct (decide (updates = [])) as [-> | Hne]; [done |].
  rewrite !applyServerUpdates_map by done.
  rewrite <- list_fmap_compose. apply list_fmap_ext. intros i item _. simpl.
  destruct (keyed IncomingServerUpdate.server_id updates !! ServerEntry.id item)
    as [payload |] eqn:Hget.
  - simpl. rewrite Hget. apply merged_entry_again.
  - by rewrite Hget.
Qed.

(** X5: updates and errors for ids the registry does not hold are ignored:
    a stats update none of whose ids is registered, and an error frame for
    an unregistered id, leave the registry as it was; in particular nothing
    but a list snapshot can fill the empty registry. *)
Theorem unknown_ids_ignored (prev : list ServerEntry.t) :
  (forall updates timestamp,
     (forall u, u ∈ updates -> IncomingServerUpdate.server_id u ∉ ServerEntry.id <$> prev) ->
     applyServerUpdates updates timestamp prev = prev) /\
  (forall payload Date_now,
     IncomingServerError.server_id payload ∉ ServerEntry.id <$> prev ->
     applyServerError payload Date_now prev = prev).
Proof.
  split.
  - intros updates timestamp Hunknown.
    destruct (decide (updates = [])) as [-> | Hne]; [done |].
    rewrite applyServerUpdates_map by done.
    rewrite <- (list_fmap_id prev) at 2. apply list_fmap_ext. intros i item Hi.
    destruct (keyed IncomingServerUpdate.server_id updates !! ServerEntry.id item)
      as [payload |] eqn:Hget; [| done].
    apply keyed_lookup_Some in Hget as [Hin Hid].
    exfalso. apply (Hunknown payload Hin). rewrite Hid.
    apply list_elem_of_fmap_2. by eapply list_elem_of_lookup_2.
  - intros payload Date_now Hunknown. rewrite applyServerError_map.
    apply list_eq. intros i. rewrite list_lookup_imap.
    destruct (prev !! i) as [item |] eqn:Hi; [| done]. simpl.
    destruct (String.eqb_spec (ServerEntry.id item) (IncomingServerError.server_id payload))
      as [Heq | Hneq]; [| done].
    exfalso. apply Hunknown. rewrite <- Heq.
    apply list_elem_of_fmap_2. by eapply list_elem_of_lookup_2.
Qed.

Lemma unknown_ids_ignored_witness :
  applyServerUpdates [update_a_memory] 1700000060000%float [entry_b] = [entry_b].
Proof.
  apply (proj1 (unknown_ids_ignored [entry_b])).
  intros u Hu. apply list_elem_of_singleton in Hu as ->. simpl. set_solver.
Defined.

Lemma applyServerList_map (incoming : list IncomingServerListItem.t)
    (prev : list ServerEntry.t) :
  incoming <> [] ->
  applyServerList incoming prev =
    (fun item =>
       let existing := keyed ServerEntry.id prev !! IncomingServerListItem.server_id item in
       {| ServerEntry.id := IncomingServerListItem.server_id item;
          ServerEntry.name :=
            or_else (IncomingServerListItem.server_name item)
              (or_else (IncomingServerListItem.host item)
                 (IncomingServerListItem.server_id item));
          ServerEntry.host := or_else (IncomingServerListItem.host item) "--";
          ServerEntry.enabled := IncomingServerListItem.enabled item;
          ServerEntry.tags := IncomingServerListItem.tags item;
          ServerEntry.stats := existing ≫= ServerEntry.stats;
          ServerEntry.lastUpdate := existing ≫= ServerEntry.lastUpdate |}) <$> incoming.
Proof. intros Hne. by destruct incoming. Qed.

(** What a snapshot finds for an id it names itself: an entry that carries
    what the previous registry held for that id. *)
Lemma applyServerList_lookup_own (incoming : list IncomingServerListItem.t)
    (prev : list ServerEntry.t) (item : IncomingServerListItem.t) :
  item ∈ incoming ->
  exists e,
    keyed ServerEntry.id (applyServerList incoming prev)
      !! IncomingServerListItem.server_id item = Some e /\
    ServerEntry.stats e =
      keyed ServerEntry.id prev !! IncomingServerListItem.server_id item
        ≫= ServerEntry.stats /\
    ServerEntry.lastUpdate e =
      keyed ServerEntry.id prev !! IncomingServerListItem.server_id item
        ≫= ServerEntry.lastUpdate.
Proof.
  intros Hin.
  assert (incoming <> []) as Hne by (intros ->; by apply elem_of_nil in Hin).
  destruct (keyed ServerEntry.id (applyServerList incoming prev)
              !! IncomingServerListItem.server_id item) as [e |] eqn:Hget.
  - exists e. split; [done |].
    apply keyed_lookup_Some in Hget as [He Hid].
    rewrite applyServerList_map in He by done.
    apply list_elem_of_fmap in He as (item' & -> & _). simpl in *. by rewrite Hid.
  - apply keyed_lookup_None in Hget. exfalso. apply Hget.
    rewrite applyServerList_ids by done. by apply list_elem_of_fmap_2.
Qed.

(** X4: a list snapshot that arrives twice is applied once: the second
    application finds, for every id, the stats and lastUpdate the first one
    carried forward, and rebuilds the same registry (repeated ids in the
    snapshot included). *)
Theorem applyServerList_idempotent (incoming : list IncomingServerListItem.t)
    (prev : list ServerEntry.t) :
  applyServerList incoming (applyServerList incoming prev) = applyServerList incoming prev.
Proof.
  destruct (decide (incoming = [])) as [-> | Hne]; [done |].
  rewrite (applyServerList_map incoming (applyServerList incoming prev) Hne).
  etrans; [| symmetry; exact (applyServerList_map incoming prev Hne)].
  apply list_fmap_ext. intros i item Hi. cbv zeta.
  destruct (applyServerList_lookup_own incoming prev item) as (e & -> & Hstats & Hlast).
  { by eapply list_elem_of_lookup_2. }
  simpl. by rewrite Hstats, Hlast.
Qed.

(** X6: an error frame marks the entries with its id as failed and touches
    nothing else: the entry's error becomes the frame's message, or
    ["Server error"] when the frame has none or an empty one; every other
    stats field, and the identity of the entry, is kept; lastUpdate is the
    clock reading.  If the entry is enabled it is shown as Error ([down])
    and alerts, at any later time and under any thresholds.  Entries with
    another id are left as they are. *)
Theorem applyServerError_marks_down (payload : IncomingServerError.t)
    (Date_now : nat -> number) (prev : list ServerEntry.t) (i : nat) (item : ServerEntry.t) :
  prev !! i = Some item ->
  (ServerEntry.id item <> IncomingServerError.server_id payload ->
     applyServerError payload Date_now prev !! i = Some item) /\
  (ServerEntry.id item = IncomingServerError.server_id payload ->
     exists r st,
       applyServerError payload Date_now prev !! i = Some r /\
       ServerEntry.stats r = Some st /\
       ServerStats.error st =
         Value (or_else (IncomingServerError.error payload) "Server error") /\
       truthy_error (ServerStats.error st) = true /\
       ServerEntry.lastUpdate r = Some (Date_now i) /\
       (ServerEntry.id r, ServerEntry.name r, ServerEntry.host r,
        ServerEntry.enabled r, ServerEntry.tags r) =
         (ServerEntry.id item, ServerEntry.name item, ServerEntry.host item,
          ServerEntry.enabled item, ServerEntry.tags item) /\
       (forall old, ServerEntry.stats item = Some old ->
          st = {| ServerStats.cpuUsage := ServerStats.cpuUsage old;
                  ServerStats.memoryTotal := ServerStats.memoryTotal old;
                  ServerStats.memoryUsed := ServerStats.memoryUsed old;
                  ServerStats.diskTotal := ServerStats.diskTotal old;
                  ServerStats.diskUsed := ServerStats.diskUsed old;
                  ServerStats.uptime := ServerStats.uptime old;
                  ServerStats.pm2Procs := ServerStats.pm2Procs old;
                  ServerStats.pm2Mem := ServerStats.pm2Mem old;
                  ServerStats.pm2BadCount := ServerStats.pm2BadCount old;
                  ServerStats.pm2BadNames := ServerStats.pm2BadNames old;
                  ServerStats.supervisorTotal := ServerStats.supervisorTotal old;
                  ServerStats.supervisorRunning := ServerStats.supervisorRunning old;
                  ServerStats.error := ServerStats.error st |}) /\
       (ServerEntry.enabled item = true ->
          forall cfg now,
            StatusInfo.key (getStatus r now) = StatusKey.down /\
            shouldAlert cfg r now = true)).
Proof.
  intros Hi. rewrite applyServerError_map, list_lookup_imap, Hi. simpl. split.
  - intros Hne. apply String.eqb_neq in Hne. by rewrite Hne.
  - intros Heq. apply String.eqb_eq in Heq. rewrite Heq.
    assert (truthy_string (or_else (IncomingServerError.error payload) "Server error")
            = true) as Hmsg.
    { unfold or_else. destruct (IncomingServerError.error payload) as [s |]; [| done].
      by destruct (truthy_string s) eqn:Hs. }
    eexists _, _. split; [done |]. simpl. split; [done |].
    do 4 (split; [done |]). split.
    + by intros old ->.
    + intros Henabled cfg now. unfold getStatus, shouldAlert. simpl.
      rewrite Henabled. simpl. by rewrite Hmsg.
Qed.

(** The entry [a] of the merge scenario after an error frame without a
    message: its cpu reading is kept and it is shown as Error. *)
Lemma applyServerError_marks_down_witness :
  exists r st,
    applyServerError (IncomingServerError.mk "a" None) (fun _ => 1700000061000%float)
      [entry_a; entry_b] !! 0 = Some r /\
    ServerEntry.stats r = Some st /\
    ServerStats.error st = Value "Server error" /\
    StatusInfo.key (getStatus r 1700000062000%float) = StatusKey.down.
Proof.
  destruct (proj2 (applyServerError_marks_down (IncomingServerError.mk "a" None)
                     (fun _ => 1700000061000%float) [entry_a; entry_b] 0 entry_a eq_refl)
              eq_refl)
    as (r & st & Hr & Hst & Herr & _ & _ & _ & _ & Hdown).
  exists r, st. split; [exact Hr |]. split; [exact Hst |]. split; [exact Herr |].
  exact (proj1 (Hdown eq_refl AlertConfig.defaults 1700000062000%float)).
Defined.

(** X7: a stats update without an error brings an enabled server out of
    Waiting and out of Error, whatever it held before; while the update is
    at most 60 s old the server is shown as Nominal or Hot. *)
Theorem fresh_update_clears_error (before after : list IncomingServerUpdate.t)
    (payload : IncomingServerUpdate.t) (timestamp now : number)
    (prev : list ServerEntry.t) (i : nat) (item : ServerEntry.t) :
  prev !! i = Some item ->
  ServerEntry.enabled item = true ->
  IncomingServerUpdate.server_id payload = ServerEntry.id item ->
  ServerEntry.id item ∉ IncomingServerUpdate.server_id <$> after ->
  truthy_error (IncomingServerUpdate.error payload) = false ->
  exists r,
    applyServerUpdates (before ++ payload :: after) timestamp prev !! i = Some r /\
    StatusInfo.key (getStatus r now) <> StatusKey.disabled /\
    StatusInfo.key (getStatus r now) <> StatusKey.idle /\
    StatusInfo.key (getStatus r now) <> StatusKey.down /\
    (truthy_number timestamp = true -> gtb (now - timestamp)%float 60000 = false ->
       StatusInfo.key (getStatus r now) = StatusKey.ok \/
       StatusInfo.key (getStatus r now) = StatusKey.warn).
Proof.
  intros Hi Henabled Hid Hlast Herror.
  assert (keyed IncomingServerUpdate.server_id (before ++ payload :: after)
            !! ServerEntry.id item = Some payload) as Hget.
  { rewrite <- Hid. apply keyed_lookup_last. by rewrite Hid. }
  rewrite applyServerUpdates_map by (by destruct before).
  rewrite list_lookup_fmap, Hi. simpl. rewrite Hget.
  eexists. split; [done |].
  assert (truthy_error (nullable_or_null (IncomingServerUpdate.error payload)) = false)
    as Hclear.
  { destruct (IncomingServerUpdate.error payload); done. }
  unfold getStatus, age. simpl. rewrite Henabled, Hclear. simpl.
  split; [split_ifs; done |]. split; [split_ifs; done |]. split; [split_ifs; done |].
  intros -> ->. split_ifs; auto.
Qed.

(** The failed entry [a] and the memory update of the merge scenario, seen
    half a second later. *)
Lemma fresh_update_clears_error_witness :
  exists r,
    applyServerUpdates [update_a_memory] 1700000060000%float [entry_a_failed] !! 0 = Some r /\
    StatusInfo.key (getStatus r 1700000060500%float) <> StatusKey.down.
Proof.
  destruct (fresh_update_clears_error [] [] update_a_memory 1700000060000%float
              1700000060500%float [entry_a_failed] 0 entry_a_failed
              eq_refl eq_refl eq_refl ltac:(set_solver) eq_refl)
    as (r & Hr & _ & _ & Hdown & _).
  exists r. split; [exact Hr | exact Hdown].
Defined.

Lemma keyed_lookup_cons {V} (key : V -> string) (x : V) (l : list V) (k : string) :
  keyed key (x :: l) !! k =
    match keyed key l !! k with
    | Some y => Some y
    | None => if decide (key x = k) then Some x else None
    end.
Proof.
  unfold keyed. induction l as [| y l IH] using rev_ind.
  - simpl. unfold Map_new. simpl. rewrite lookup_insert, !lookup_empty.
    by destruct (decide (key x = k)).
  - change (map ?f ?l) with (f <$> l) in *.
    rewrite app_comm_cons, !fmap_app.
    change ((fun x0 => (key x0, x0)) <$> [y]) with [(key y, y)].
    rewrite !Map_new_snoc. cbn [fst snd].
    destruct (decide (key y = k)) as [<- | Hne].
    + by rewrite !lookup_insert_eq.
    + rewrite !lookup_insert_ne by done. apply IH.
Qed.

(** X19: a batch of stats updates for distinct servers acts as the same
    updates applied one after the other at the same time: the poll response
    and the corresponding sequence of push frames leave the same registry. *)
Theorem batch_is_sequence (updates : list IncomingServerUpdate.t) (timestamp : number) :
  NoDup (IncomingServerUpdate.server_id <$> updates) ->
  forall prev,
    applyServerUpdates updates timestamp prev =
      foldl (fun servers update => applyServerUpdate update timestamp servers) prev updates.
Proof.
  induction updates as [| u rest IH]; intros Hnd prev; [done |].
  rewrite fmap_cons, NoDup_cons in Hnd. destruct Hnd as [Hu Hnd].
  cbn [foldl]. rewrite <- (IH Hnd). unfold applyServerUpdate.
  rewrite (applyServerUpdates_map (u :: rest)), (applyServerUpdates_map [u]) by done.
  destruct (decide (rest = [])) as [-> | Hne]; [done |].
  rewrite (applyServerUpdates_map rest) by done.
  rewrite <- list_fmap_compose. apply list_fmap_ext. intros i item _. simpl.
  rewrite (keyed_lookup_cons _ u rest), (keyed_lookup_cons _ u []).
  change (keyed IncomingServerUpdate.server_id [] !! ServerEntry.id item) with
    (@None IncomingServerUpdate.t).
  destruct (decide (IncomingServerUpdate.server_id u = ServerEntry.id item)) as [Heq | Hneq].
  - assert (keyed IncomingServerUpdate.server_id rest !! ServerEntry.id item = None) as ->.
    { apply keyed_lookup_None. by rewrite <- Heq. }
    simpl.
    assert (keyed IncomingServerUpdate.server_id rest !! ServerEntry.id item = None) as ->.
    { apply keyed_lookup_None. by rewrite <- Heq. }
    done.
  - by destruct (keyed IncomingServerUpdate.server_id rest !! ServerEntry.id item).
Qed.

Lemma batch_is_sequence_witness :
  applyServerUpdates [update_a_memory; update_b_cpu] 1700000060000%float [entry_a; entry_b] =
  applyServerUpdate update_b_cpu 1700000060000%float
    (applyServerUpdate update_a_memory 1700000060000%float [entry_a; entry_b]).
Proof.
  assert (NoDup (IncomingServerUpdate.server_id <$> [update_a_memory; update_b_cpu])) as Hnd
    by compute_done.
  exact (batch_is_sequence [update_a_memory; update_b_cpu] 1700000060000%float Hnd
           [entry_a; entry_b]).
Defined.

(** ** Parsers: validation and agreement *)

(** A [forEach] that pushes [y] for the elements [d] with [g d = Some y]. *)
Lemma foldl_omap {A B} (g : A -> option B) (f : list B -> A -> list B) (l : list A) :
  (forall acc d, d ∈ l -> f acc d = acc ++ option_list (g d)) ->
  forall acc, foldl f acc l = acc ++ omap g l.
Proof.
  induction l as [| d l IH]; intros Hf acc; simpl.
  - by rewrite app_nil_r.
  - rewrite IH by (intros; apply Hf; by right).
    rewrite Hf by left. rewrite <- app_assoc. f_equal.
    by destruct (g d).
Qed.

Lemma fmap_omap_pointwise {A B C} (f : B -> C) (g : A -> option B) (h : A -> option C)
    (l : list A) :
  (forall x, f <$> g x = h x) -> f <$> omap g l = omap h l.
Proof.
  intros Hpoint. induction l as [| x l IH]; [done |].
  cbn [omap list_omap]. rewrite <- Hpoint.
  destruct (g x); cbn [fmap option_fmap option_map list_fmap]; [by f_equal | done].
Qed.

Lemma parseServerList_array (entries : list json) :
  parseServerList (Some (JArray entries)) = omap list_entry entries.
Proof.
  unfold parseServerList. rewrite (foldl_omap list_entry); [done |].
  intros acc entry _. cbv zeta. unfold list_entry.
  destruct (isRecord (Some entry)); cbn [negb]; [| by rewrite app_nil_r].
  destruct (toString (prop (Some entry) "server_id")) as [serverId |];
    [| by rewrite app_nil_r].
  destruct (truthy_string serverId); cbn [negb]; [done | by rewrite app_nil_r].
Qed.

Lemma parseApiServerList_array (value : option json) (servers : list json) :
  isRecord value = true -> prop value "servers" = Some (JArray servers) ->
  parseApiServerList value = omap api_entry servers.
Proof.
  intros Hrecord Hservers. unfold parseApiServerList. rewrite Hrecord, Hservers.
  cbn [negb]. rewrite (foldl_omap api_entry); [done |].
  intros acc entry _. cbv zeta. unfold api_entry.
  destruct (isRecord (Some entry)); cbn [negb]; [| by rewrite app_nil_r].
  destruct (toString (prop (Some entry) "id") ?? toString (prop (Some entry) "server_id"))
    as [serverId |]; [| by rewrite app_nil_r].
  destruct (truthy_string serverId); cbn [negb]; [done | by rewrite app_nil_r].
Qed.

Lemma parseServerList_ids_array (entries : list json) :
  IncomingServerListItem.server_id <$> parseServerList (Some (JArray entries)) =
    omap list_entry_id entries.
Proof.
  rewrite parseServerList_array. apply fmap_omap_pointwise.
  intros entry. unfold list_entry, list_entry_id.
  destruct (isRecord (Some entry)); [| done].
  destruct (toString (prop (Some entry) "server_id")) as [serverId |]; [| done].
  by destruct (truthy_string serverId).
Qed.

Lemma parseApiServerList_ids_array (value : option json) (servers : list json) :
  isRecord value = true -> prop value "servers" = Some (JArray servers) ->
  IncomingServerListItem.server_id <$> parseApiServerList value = omap api_entry_id servers.
Proof.
  intros Hrecord Hservers. rewrite (parseApiServerList_array value servers) by done.
  apply fmap_omap_pointwise.
  intros entry. unfold api_entry, api_entry_id.
  destruct (isRecord (Some entry)); [| done].
  destruct (toString (prop (Some entry) "id") ?? toString (prop (Some entry) "server_id"))
    as [serverId |]; [| done].
  by destruct (truthy_string serverId).
Qed.

Lemma omap_entry_id_truthy (id_of : json -> option string) (entries : list json)
    (id : string) :
  (forall entry s, id_of entry = Some s -> truthy_string s = true) ->
  id ∈ omap id_of entries -> truthy_string id = true.
Proof.
  intros Hid Hin. apply list_elem_of_omap in Hin as (entry & _ & Hentry). eauto.
Qed.

Lemma list_entry_id_truthy (entry : json) (s : string) :
  list_entry_id entry = Some s -> truthy_string s = true.
Proof.
  unfold list_entry_id. destruct (isRecord _); [| done].
  destruct (toString _) as [serverId |]; [| done].
  destruct (truthy_string serverId) eqn:Hs; [| done]. by intros [= <-].
Qed.

Lemma api_entry_id_truthy (entry : json) (s : string) :
  api_entry_id entry = Some s -> truthy_string s = true.
Proof.
  unfold api_entry_id. destruct (isRecord _); [| done].
  destruct (_ ?? _) as [serverId |]; [| done].
  destruct (truthy_string serverId) eqn:Hs; [| done]. by intros [= <-].
Qed.

Lemma parseServerList_not_array (value : option json) :
  (forall entries, value <> Some (JArray entries)) -> parseServerList value = [].
Proof.
  intros Hnot. unfold parseServerList.
  destruct value as [[| | | | entries |] |]; try done. by destruct (Hnot entries).
Qed.

Lemma parseApiServerList_not_array (value : option json) :
  (forall servers, prop value "servers" <> Some (JArray servers)) ->
  parseApiServerList value = [].
Proof.
  intros Hnot. unfold parseApiServerList. destruct (negb _); [done |].
  destruct (prop value "servers") as [[| | | | servers |] |]; try done.
  by destruct (Hnot servers).
Qed.

Lemma parsed_list_ids_truthy (value : option json) (item : IncomingServerListItem.t) :
  item ∈ parseServerList value \/ item ∈ parseApiServerList value ->
  truthy_string (IncomingServerListItem.server_id item) = true.
Proof.
  intros [Hin | Hin].
  - destruct value as [[| | | | entries |] |]; try by apply elem_of_nil in Hin.
    apply (list_elem_of_fmap_2 IncomingServerListItem.server_id) in Hin.
    rewrite parseServerList_ids_array in Hin.
    eapply omap_entry_id_truthy; [exact list_entry_id_truthy | exact Hin].
  - destruct (isRecord value) eqn:Hrecord.
    2: { unfold parseApiServerList in Hin. rewrite Hrecord in Hin.
         by apply elem_of_nil in Hin. }
    destruct (prop value "servers") as [[| | | | servers |] |] eqn:Hservers;
      try (unfold parseApiServerList in Hin; rewrite Hrecord, Hservers in Hin;
           by apply elem_of_nil in Hin).
    apply (list_elem_of_fmap_2 IncomingServerListItem.server_id) in Hin.
    rewrite (parseApiServerList_ids_array value servers Hrecord Hservers) in Hin.
    eapply omap_entry_id_truthy; [exact api_entry_id_truthy | exact Hin].
Qed.

(** X8: the two list parsers keep exactly the record entries that carry a
    usable id, in their order: the ids of the result are the non-empty
    string [server_id]s (for the poll response: [id], else [server_id]) of
    the entries that are records.  So no parsed item has an empty id, and an
    input that is not an array (for the poll response: has no [servers]
    array) parses to the empty list. *)
Theorem list_parsers_keep_valid_ids :
  (forall entries,
     IncomingServerListItem.server_id <$> parseServerList (Some (JArray entries)) =
       omap list_entry_id entries) /\
  (forall value servers,
     isRecord value = true -> prop value "servers" = Some (JArray servers) ->
     IncomingServerListItem.server_id <$> parseApiServerList value =
       omap api_entry_id servers) /\
  (forall value item,
     item ∈ parseServerList value \/ item ∈ parseApiServerList value ->
     truthy_string (IncomingServerListItem.server_id item) = true) /\
  (forall value, (forall entries, value <> Some (JArray entries)) ->
     parseServerList value = []) /\
  (forall value, (forall servers, prop value "servers" <> Some (JArray servers)) ->
     parseApiServerList value = []).
Proof.
  split; [exact parseServerList_ids_array |].
  split; [exact parseApiServerList_ids_array |].
  split; [exact parsed_list_ids_truthy |].
  split; [exact parseServerList_not_array | exact parseApiServerList_not_array].
Qed.

(** The frame that names ["a"] twice, with a string and an id-less record
    mixed in: the two valid entries are kept. *)
Lemma list_parsers_keep_valid_ids_witness :
  IncomingServerListItem.server_id <$>
    parseServerList (Some (JArray [JString "noise"; JObject [("server_id", JString "a")];
                                   JObject [("server_id", JString "")];
                                   JObject [("server_id", JString "b")]])) = ["a"; "b"].
Proof.
  rewrite (proj1 list_parsers_keep_valid_ids). reflexivity.
Defined.

Lemma omap_ext_elem {A B} (g h : A -> option B) (l : list A) :
  (forall x, x ∈ l -> g x = h x) -> omap g l = omap h l.
Proof.
  induction l as [| x l IH]; intros Hext; [done |].
  cbn [omap list_omap]. rewrite (Hext x) by left.
  rewrite IH by (intros; apply Hext; by right). done.
Qed.

(** X9: the two list sources normalize to the same items: a poll response
    whose entries carry [server_id] and [server_name] (no string [id], no
    string [name]) parses to exactly what the push frame with the same
    entries parses to. *)
Theorem list_parsers_agree (value : option json) (servers : list json) :
  isRecord value = true ->
  prop value "servers" = Some (JArray servers) ->
  (forall entry, entry ∈ servers ->
     toString (prop (Some entry) "id") = None /\
     toString (prop (Some entry) "name") = None) ->
  parseApiServerList value = parseServerList (Some (JArray servers)).
Proof.
  intros Hrecord Hservers Hplain.
  rewrite (parseApiServerList_array value servers), parseServerList_array by done.
  apply omap_ext_elem. intros entry Hentry.
  destruct (Hplain entry Hentry) as [Hid Hname].
  unfold api_entry, list_entry. by rewrite Hid, Hname.
Qed.

Lemma list_parsers_agree_witness :
  parseApiServerList (Some (JObject [("servers", frame_list_twice)])) =
    parseServerList (Some frame_list_twice).
Proof.
  apply (list_parsers_agree (Some (JObject [("servers", frame_list_twice)])) _ eq_refl eq_refl).
  intros entry Hentry.
  repeat (apply elem_of_cons in Hentry as [-> | Hentry]; [by split |]).
  by apply elem_of_nil in Hentry.
Defined.

Lemma slice_coherent (pm2Bad : option (list string)) :
  pm2_coherent (length <$> pm2Bad) ((fun badNames => slice badNames 0 3) <$> pm2Bad).
Proof.
  destruct pm2Bad as [badNames |]; [| done].
  cbn [fmap option_fmap option_map pm2_coherent]. unfold slice.
  rewrite length_take, length_drop. lia.
Qed.

Lemma parseServerUpdate_well_formed (value : option json) (u : IncomingServerUpdate.t) :
  parseServerUpdate value = Some u ->
  toString (prop value "server_id") = Some (IncomingServerUpdate.server_id u) /\
  truthy_string (IncomingServerUpdate.server_id u) = true /\
  IncomingServerUpdate.error u <> Undefined /\
  pm2_coherent (IncomingServerUpdate.pm2BadCount u) (IncomingServerUpdate.pm2BadNames u).
Proof.
  unfold parseServerUpdate. destruct (negb (isRecord value)); [done |].
  destruct (toString (prop value "server_id")) as [serverId |]; [| done].
  destruct (truthy_string serverId) eqn:Hid; cbn [negb]; [| done].
  intros Hu. injection Hu as <-.
  cbn [IncomingServerUpdate.server_id IncomingServerUpdate.error
       IncomingServerUpdate.pm2BadCount IncomingServerUpdate.pm2BadNames].
  split; [done |]. split; [done |]. split.
  - by destruct (toString (prop value "error")).
  - apply slice_coherent.
Qed.

(** What the callback of [parseStatsList] pushes for an entry agrees with
    [parseServerUpdate], unless the entry has only an [id]. *)
Lemma parseStatsList_step (acc : list IncomingServerUpdate.t) (entry : json) :
  (toString (prop (Some entry) "server_id") = None ->
   toString (prop (Some entry) "id") = None) ->
  (let entry := Some entry in
   if negb (isRecord entry) then acc
   else
     match toString (prop entry "server_id") ?? toString (prop entry "id") with
     | None => acc
     | Some serverId =>
         if negb (truthy_string serverId) then acc
         else
           let cpu := if isRecord (prop entry "cpu")
              then toNumber (prop (prop entry "cpu") "usage_percent") else None in
           let memoryTotal := if isRecord (prop entry "memory")
              then toNumber (prop (prop entry "memory") "total_bytes") else None in
           let memoryUsed := if isRecord (prop entry "memory")
              then toNumber (prop (prop entry "memory") "used_bytes") else None in
           let diskTotal := if isRecord (prop entry "disk")
              then toNumber (prop (prop entry "disk") "total_bytes") else None in
           let diskUsed := if isRecord (prop entry "disk")
              then toNumber (prop (prop entry "disk") "used_bytes") else None in
           let uptime := if isRecord (prop entry "uptime")
              then toString (prop (prop entry "uptime") "human") else None in
           let pm2Procs := if isRecord (prop entry "pm2")
              then toNumber (prop (prop entry "pm2") "processes") else None in
           let pm2Mem := if isRecord (prop entry "pm2")
              then toNumber (prop (prop entry "pm2") "total_memory_bytes") else None in
           let pm2Bad : option (list string) :=
             if isRecord (prop entry "pm2") then
               match prop (prop entry "pm2") "details" with
               | Some (JArray details) =>
                   Some (foldl (fun badNames detail =>
                     let detail := Some detail in
                     if negb (isRecord detail) then badNames
                     else
                       match toString (prop detail "status") with
                       | Some status =>
                           if truthy_string status
                              && negb (String.eqb (toLowerCase status) "online")
                           then
                             let name :=
                               toString (prop detail "name") ?? toString (prop detail "id") in
                             badNames ++ [default "unknown" name]
                           else badNames
                       | None => badNames
                       end) [] details)
               | _ => None
               end
             else None in
           let pm2BadCount := length <$> pm2Bad in
           let pm2BadNames := (fun badNames => slice badNames 0 3) <$> pm2Bad in
           let supervisorTotal := if isRecord (prop entry "supervisor")
              then toNumber (prop (prop entry "supervisor") "total") else None in
           let supervisorRunning := if isRecord (prop entry "supervisor")
              then toNumber (prop (prop entry "supervisor") "running") else None in
           acc ++ [
             {| IncomingServerUpdate.server_id := serverId;
                IncomingServerUpdate.error := or_null (toString (prop entry "error"));
                IncomingServerUpdate.cpuUsage := cpu;
                IncomingServerUpdate.memoryTotal := memoryTotal;
                IncomingServerUpdate.memoryUsed := memoryUsed;
                IncomingServerUpdate.diskTotal := diskTotal;
                IncomingServerUpdate.diskUsed := diskUsed;
                IncomingServerUpdate.uptime := uptime;
                IncomingServerUpdate.pm2Procs := pm2Procs;
                IncomingServerUpdate.pm2Mem := pm2Mem;
                IncomingServerUpdate.pm2BadCount := pm2BadCount;
                IncomingServerUpdate.pm2BadNames := pm2BadNames;
                IncomingServerUpdate.supervisorTotal := supervisorTotal;
                IncomingServerUpdate.supervisorRunning := supervisorRunning |} ]
     end) = acc ++ option_list (parseServerUpdate (Some entry)).
Proof.
  intros Hfallback. cbv zeta. unfold parseServerUpdate.
  destruct (negb (isRecord (Some entry))); [by rewrite app_nil_r |].
  destruct (toString (prop (Some entry) "server_id")) as [serverId |].
  - cbn [nullish]. destruct (negb (truthy_string serverId)); [by rewrite app_nil_r | done].
  - rewrite Hfallback by done. cbn [nullish]. by rewrite app_nil_r.
Qed.

(** X10: the batch parser is the push parser applied to every entry: for a
    poll response whose entries do not rely on the [id] fallback (an entry
    without a string [server_id] has no string [id] either), [parseStatsList]
    returns, in order, what [parseServerUpdate] returns for the entries it
    accepts. *)
Theorem parseStatsList_is_parseServerUpdate (value : option json) (servers : list json) :
  isRecord value = true ->
  prop value "servers" = Some (JArray servers) ->
  (forall entry, entry ∈ servers ->
     toString (prop (Some entry) "server_id") = None ->
     toString (prop (Some entry) "id") = None) ->
  parseStatsList value = omap (fun entry => parseServerUpdate (Some entry)) servers.
Proof.
  intros Hrecord Hservers Hfallback. unfold parseStatsList.
  rewrite Hrecord, Hservers. cbn [negb].
  rewrite (foldl_omap (fun entry => parseServerUpdate (Some entry))); [done |].
  intros acc entry Hentry. apply parseStatsList_step. by apply Hfallback.
Qed.

Lemma parseStatsList_is_parseServerUpdate_witness :
  IncomingServerUpdate.server_id <$> parseStatsList (Some stats_response_ex) = ["api-1"; "a"].
Proof.
  rewrite (parseStatsList_is_parseServerUpdate (Some stats_response_ex) _ eq_refl eq_refl).
  - reflexivity.
  - intros entry Hentry _.
    repeat (apply elem_of_cons in Hentry as [-> | Hentry]; [done |]).
    by apply elem_of_nil in Hentry.
Defined.

Lemma parseServerError_well_formed (value : option json) (e : IncomingServerError.t) :
  parseServerError value = Some e ->
  toString (prop value "server_id") = Some (IncomingServerError.server_id e) /\
  truthy_string (IncomingServerError.server_id e) = true /\
  IncomingServerError.error e = toString (prop value "error").
Proof.
  unfold parseServerError. destruct (negb (isRecord value)); [done |].
  destruct (toString (prop value "server_id")) as [serverId |]; [| done].
  destruct (truthy_string serverId) eqn:Hid; cbn [negb]; [| done].
  intros He. injection He as <-. done.
Qed.

(** X21: what the payload parsers accept is usable as it stands.  A parsed
    stats update or error names a server: its id is the payload's
    [server_id], a non-empty string.  The update's error is [null] or a
    string, never absent, so merging it always decides the entry's error.
    Its PM2 fields come together, with at most three names and never more
    names than the count.  A payload that is no record, or has no usable
    [server_id], is rejected by both parsers. *)
Theorem parsed_payloads_well_formed (value : option json) :
  (forall u, parseServerUpdate value = Some u ->
     toString (prop value "server_id") = Some (IncomingServerUpdate.server_id u) /\
     truthy_string (IncomingServerUpdate.server_id u) = true /\
     IncomingServerUpdate.error u <> Undefined /\
     pm2_coherent (IncomingServerUpdate.pm2BadCount u) (IncomingServerUpdate.pm2BadNames u) /\
     (forall names, IncomingServerUpdate.pm2BadNames u = Some names ->
        length names <= 3 /\
        exists count, IncomingServerUpdate.pm2BadCount u = Some count /\
                      length names <= count)) /\
  (forall e, parseServerError value = Some e ->
     toString (prop value "server_id") = Some (IncomingServerError.server_id e) /\
     truthy_string (IncomingServerError.server_id e) = true /\
     IncomingServerError.error e = toString (prop value "error")) /\
  (isRecord value = false \/ toString (prop value "server_id") = None \/
   toString (prop value "server_id") = Some "" ->
     parseServerUpdate value = None /\ parseServerError value = None).
Proof.
  split; [| split].
  - intros u Hu.
    destruct (parseServerUpdate_well_formed value u Hu) as (Hid & Htruthy & Herror & Hpm2).
    do 4 (split; [done |]). intros names Hnames. rewrite Hnames in Hpm2.
    destruct (IncomingServerUpdate.pm2BadCount u) as [count |]; [| done].
    unfold pm2_coherent in Hpm2. split; [lia |]. exists count. split; [done | lia].
  - apply parseServerError_well_formed.
  - unfold parseServerUpdate, parseServerError.
    intros [-> | [-> | ->]]; [done | |]; by destruct (negb (isRecord value)).
Qed.

(** The PM2 frame: two bad processes, both named. *)
Lemma parsed_payloads_well_formed_witness :
  exists u,
    parseServerUpdate (Some frame_pm2) = Some u /\
    IncomingServerUpdate.server_id u = "api-1" /\
    forall names, IncomingServerUpdate.pm2BadNames u = Some names -> length names <= 3.
Proof.
  destruct (parseServerUpdate (Some frame_pm2)) as [u |] eqn:Hu; [| discriminate Hu].
  exists u. split; [reflexivity |].
  destruct (proj1 (parsed_payloads_well_formed (Some frame_pm2)) u Hu)
    as (Hid & _ & _ & _ & Hnames).
  split; [by injection Hid as <- |].
  intros names Hn. exact (proj1 (Hnames names Hn)).
Defined.

(** ** Dispatch: what reaches the registry *)

Lemma parseStatsList_well_formed (value : option json) (u : IncomingServerUpdate.t) :
  u ∈ parseStatsList value ->
  truthy_string (IncomingServerUpdate.server_id u) = true /\
  IncomingServerUpdate.error u <> Undefined /\
  pm2_coherent (IncomingServerUpdate.pm2BadCount u) (IncomingServerUpdate.pm2BadNames u).
Proof.
  unfold parseStatsList.
  destruct (negb (isRecord value)); [by intros ?%elem_of_nil |].
  destruct (prop value "servers") as [[| | | | servers |] |];
    try by intros ?%elem_of_nil.
  intros Hu.
  apply (foldl_push_elem (fun (_ : json) u =>
           truthy_string (IncomingServerUpdate.server_id u) = true /\
           IncomingServerUpdate.error u <> Undefined /\
           pm2_coherent (IncomingServerUpdate.pm2BadCount u)
             (IncomingServerUpdate.pm2BadNames u))) in Hu.
  - destruct Hu as [Hu | (entry & _ & Hwf)]; [by apply elem_of_nil in Hu | done].
  - intros acc entry. cbv zeta.
    destruct (negb (isRecord (Some entry))); [by left |].
    destruct (toString (prop (Some entry) "server_id") ?? toString (prop (Some entry) "id"))
      as [serverId |]; [| by left].
    destruct (truthy_string serverId) eqn:Hid; cbn [negb]; [| by left].
    right. eexists. split; [reflexivity |].
    cbn [IncomingServerUpdate.server_id IncomingServerUpdate.error
         IncomingServerUpdate.pm2BadCount IncomingServerUpdate.pm2BadNames].
    split; [done |]. split.
    + by destruct (toString (prop (Some entry) "error")).
    + apply slice_coherent.
Qed.

Lemma nullish_coherent (count old_count : option nat) (names old_names : option (list string)) :
  pm2_coherent count names -> pm2_coherent old_count old_names ->
  pm2_coherent (count ?? old_count) (names ?? old_names).
Proof. by destruct count, names. Qed.

Lemma applyServerList_well_formed (incoming : list IncomingServerListItem.t)
    (prev : list ServerEntry.t) :
  (forall item, item ∈ incoming ->
     truthy_string (IncomingServerListItem.server_id item) = true) ->
  Forall well_formed prev -> Forall well_formed (applyServerList incoming prev).
Proof.
  intros Hids Hprev.
  destruct (decide (incoming = [])) as [-> | Hne]; [done |].
  rewrite applyServerList_map by done.
  apply Forall_fmap, Forall_forall. intros item Hitem. split; simpl.
  - by apply Hids.
  - intros st Hst.
    destruct (keyed ServerEntry.id prev !! IncomingServerListItem.server_id item)
      as [e |] eqn:Hget; [| done].
    apply keyed_lookup_Some in Hget as [He _].
    rewrite Forall_forall in Hprev. by apply (Hprev e He).
Qed.

Lemma applyServerUpdates_well_formed (updates : list IncomingServerUpdate.t)
    (timestamp : number) (prev : list ServerEntry.t) :
  (forall u, u ∈ updates ->
     pm2_coherent (IncomingServerUpdate.pm2BadCount u) (IncomingServerUpdate.pm2BadNames u)) ->
  Forall well_formed prev -> Forall well_formed (applyServerUpdates updates timestamp prev).
Proof.
  intros Hupdates Hprev.
  destruct (decide (updates = [])) as [-> | Hne]; [done |].
  rewrite applyServerUpdates_map by done.
  apply Forall_fmap. eapply Forall_impl; [exact Hprev |].
  intros item [Hid Hstats]. simpl.
  destruct (keyed IncomingServerUpdate.server_id updates !! ServerEntry.id item)
    as [payload |] eqn:Hget; [| done].
  apply keyed_lookup_Some in Hget as [Hpayload _].
  split; [done |]. intros st [= <-]. simpl. split.
  - by destruct (IncomingServerUpdate.error payload).
  - apply nullish_coherent; [by apply Hupdates |].
    destruct (ServerEntry.stats item) as [old |]; [| done]. by apply Hstats.
Qed.

Lemma applyServerError_well_formed (payload : IncomingServerError.t)
    (Date_now : nat -> number) (prev : list ServerEntry.t) :
  Forall well_formed prev -> Forall well_formed (applyServerError payload Date_now prev).
Proof.
  intros Hprev. rewrite applyServerError_map. apply Forall_lookup. intros i x Hx.
  rewrite list_lookup_imap in Hx.
  destruct (prev !! i) as [item |] eqn:Hi; [| done]. simpl in Hx.
  injection Hx as <-.
  pose proof (Forall_lookup_1 _ _ _ _ Hprev Hi) as [Hid Hstats].
  destruct (String.eqb _ _); [| done].
  split; [done |]. intros st [= <-]. simpl. split; [done |].
  destruct (ServerEntry.stats item) as [old |]; [| done]. by apply Hstats.
Qed.

Lemma receive_well_formed (servers : list ServerEntry.t) (a : arrival) :
  Forall well_formed servers -> Forall well_formed (receive servers a).
Proof.
  intros Hservers. destruct a as [payload timestamp Date_now | data | data timestamp]; simpl.
  - unfold handleMessage. destruct payload as [payload |]; [| done].
    destruct (negb (isRecord (Some payload))); [done |]. cbv zeta.
    set (type := toString (prop (Some payload) "type")).
    assert (Forall well_formed
              (if type_is type "list:update"
               then match parseServerList (prop (Some payload) "servers") with
                    | [] => servers
                    | _ :: _ =>
                        applyServerList (parseServerList (prop (Some payload) "servers")) servers
                    end
               else servers)) as Hlist.
    { destruct (type_is type "list:update"); [| done].
      destruct (parseServerList (prop (Some payload) "servers")) as [| item rest] eqn:Hparse;
        [done |].
      rewrite <- Hparse. apply applyServerList_well_formed; [| done].
      intros x Hx. apply (parsed_list_ids_truthy (prop (Some payload) "servers")).
      by left. }
    revert Hlist. generalize (if type_is type "list:update"
               then match parseServerList (prop (Some payload) "servers") with
                    | [] => servers
                    | _ :: _ =>
                        applyServerList (parseServerList (prop (Some payload) "servers")) servers
                    end
               else servers). clear Hservers servers. intros servers Hservers.
    assert (Forall well_formed
              (if type_is type "server:update"
               then match parseServerUpdate (prop (Some payload) "server") with
                    | Some update => applyServerUpdate update timestamp servers
                    | None => servers
                    end
               else servers)) as Hupdate.
    { destruct (type_is type "server:update"); [| done].
      destruct (parseServerUpdate (prop (Some payload) "server")) as [update |] eqn:Hparse;
        [| done].
      apply applyServerUpdates_well_formed; [| done].
      intros u Hu. apply list_elem_of_singleton in Hu as ->.
      by apply parseServerUpdate_well_formed in Hparse as (_ & _ & _ & ?). }
    revert Hupdate. generalize (if type_is type "server:update"
               then match parseServerUpdate (prop (Some payload) "server") with
                    | Some update => applyServerUpdate update timestamp servers
                    | None => servers
                    end
               else servers). clear Hservers servers. intros servers Hservers.
    destruct (type_is type "server:error"); [| done].
    destruct (parseServerError (Some payload)); [| done].
    by apply applyServerError_well_formed.
  - unfold fetchServers.
    destruct (parseApiServerList data) as [| item rest] eqn:Hparse; [done |].
    rewrite <- Hparse. apply applyServerList_well_formed; [| done].
    intros x Hx. apply (parsed_list_ids_truthy data). by right.
  - unfold fetchStats.
    destruct (parseStatsList data) as [| u rest] eqn:Hparse; [done |].
    rewrite <- Hparse. apply applyServerUpdates_well_formed; [| done].
    intros x Hx. by apply parseStatsList_well_formed in Hx as (_ & _ & ?).
Qed.

Lemma handleMessage_ops (payload : option json) (timestamp : number)
    (Date_now : nat -> number) (servers : list ServerEntry.t) :
  exists ops, handleMessage payload timestamp Date_now servers = foldl apply_op servers ops.
Proof.
  unfold handleMessage. destruct payload as [payload |]; [| by exists []].
  destruct (negb (isRecord (Some payload))); [by exists [] |]. cbv zeta.
  set (type := toString (prop (Some payload) "type")).
  exists ((if type_is type "list:update"
           then [op_list (parseServerList (prop (Some payload) "servers"))] else []) ++
          (if type_is type "server:update"
           then match parseServerUpdate (prop (Some payload) "server") with
                | Some update => [op_updates [update] timestamp]
                | None => []
                end
           else []) ++
          (if type_is type "server:error"
           then match parseServerError (Some payload) with
                | Some error => [op_error error Date_now]
                | None => []
                end
           else [])).
  rewrite !foldl_app.
  destruct (type_is type "list:update"), (type_is type "server:update"),
    (type_is type "server:error");
    destruct (parseServerList (prop (Some payload) "servers"));
    destruct (parseServerUpdate (prop (Some payload) "server"));
    destruct (parseServerError (Some payload)); reflexivity.
Qed.

(** Every arrival acts on the registry as a sequence of at most three of
    the reconciler's operations. *)
Lemma receive_ops (servers : list ServerEntry.t) (a : arrival) :
  exists ops, receive servers a = foldl apply_op servers ops.
Proof.
  destruct a as [payload timestamp Date_now | data | data timestamp]; simpl.
  - apply handleMessage_ops.
  - exists [op_list (parseApiServerList data)]. unfold fetchServers. simpl.
    by destruct (parseApiServerList data).
  - exists [op_updates (parseStatsList data) timestamp]. unfold fetchStats. simpl.
    by destruct (parseStatsList data).
Qed.

Lemma run_arrivals_ops (arrivals : list arrival) :
  exists ops, run_arrivals arrivals = run_ops ops.
Proof.
  unfold run_arrivals, run_ops.
  induction arrivals as [| a arrivals IH] using rev_ind; [by exists [] |].
  destruct IH as (ops & IH). rewrite foldl_app. simpl. rewrite IH.
  destruct (receive_ops (foldl apply_op [] ops) a) as (ops' & ->).
  exists (ops ++ ops'). by rewrite foldl_app.
Qed.

(** X11: whatever arrives, in whatever order (push frames of any content,
    answers of both polls), every entry of the registry has a non-empty id;
    an entry with stats has a lastUpdate; its error is [null] or a string,
    never absent; and its PM2 fields go together: [pm2BadNames] is there
    exactly when [pm2BadCount] is, and holds [min 3 pm2BadCount] names. *)
Theorem registry_well_formed (arrivals : list arrival) (e : ServerEntry.t) :
  e ∈ run_arrivals arrivals ->
  truthy_string (ServerEntry.id e) = true /\
  forall st, ServerEntry.stats e = Some st ->
    is_Some (ServerEntry.lastUpdate e) /\
    ServerStats.error st <> Undefined /\
    pm2_coherent (ServerStats.pm2BadCount st) (ServerStats.pm2BadNames st) /\
    (forall names, ServerStats.pm2BadNames st = Some names ->
       length names <= 3 /\
       exists count, ServerStats.pm2BadCount st = Some count /\ length names <= count).
Proof.
  intros He.
  assert (Forall well_formed (run_arrivals arrivals)) as Hwf.
  { clear He. unfold run_arrivals.
    induction arrivals as [| a arrivals IH] using rev_ind; [constructor |].
    rewrite foldl_app. simpl. by apply receive_well_formed. }
  assert (Forall (dated (fun _ => True)) (run_arrivals arrivals)) as Hdated.
  { destruct (run_arrivals_ops arrivals) as (ops & ->). apply run_ops_dated.
    apply Forall_forall. intros o _. by destruct o. }
  rewrite Forall_forall in Hwf. rewrite Forall_forall in Hdated.
  destruct (Hwf e He) as [Hid Hstats]. split; [done |].
  intros st Hst. destruct (Hstats st Hst) as [Herror Hpm2].
  split. { destruct (Hdated e He) as (t & -> & _); [by rewrite Hst | done]. }
  split; [done |]. split; [done |].
  intros names Hnames. rewrite Hnames in Hpm2.
  destruct (ServerStats.pm2BadCount st) as [count |]; [| done].
  unfold pm2_coherent in Hpm2.
  split; [lia |]. exists count. split; [done | lia].
Qed.

(** The push session: the list frame registers ["a"] twice, the unknown
    frame and the stats frame for an unregistered server change nothing,
    the error frame marks both entries. *)
Lemma registry_well_formed_witness :
  ServerEntry.id <$> run_arrivals push_session = ["a"; "a"] /\
  forall e, e ∈ run_arrivals push_session -> truthy_string (ServerEntry.id e) = true.
Proof.
  split; [reflexivity |].
  intros e He. apply (proj1 (registry_well_formed push_session e He)).
Defined.

Lemma type_is_eq (type : option string) (s : string) :
  type_is type s = true -> type = Some s.
Proof.
  unfold type_is. destruct type as [t |]; [| done].
  intros Heq. apply String.eqb_eq in Heq. by subst.
Qed.

(** X12: only a list frame changes the membership of the registry.  A frame
    that does not parse, that is no record, or whose [type] is none of
    ["list:update"], ["server:update"], ["server:error"] leaves the registry
    untouched.  A stats frame, an error frame and a stats poll leave the ids
    as they are, whatever their content.  A list frame with at least one
    usable entry makes the ids those of its entries; one with none leaves
    the registry untouched. *)
Theorem only_lists_change_membership (payload : option json) (timestamp : number)
    (Date_now : nat -> number) (servers : list ServerEntry.t) :
  let type := toString (prop payload "type") in
  let after := handleMessage payload timestamp Date_now servers in
  (isRecord payload = false -> after = servers) /\
  (type_is type "list:update" = false -> type_is type "server:update" = false ->
   type_is type "server:error" = false -> after = servers) /\
  (type_is type "list:update" = false ->
     ServerEntry.id <$> after = ServerEntry.id <$> servers) /\
  (isRecord payload = true -> type_is type "list:update" = true ->
     (parseServerList (prop payload "servers") = [] -> after = servers) /\
     (parseServerList (prop payload "servers") <> [] ->
        ServerEntry.id <$> after =
          IncomingServerListItem.server_id <$> parseServerList (prop payload "servers"))) /\
  (forall data, ServerEntry.id <$> fetchStats data timestamp servers =
                  ServerEntry.id <$> servers).
Proof.
  cbv zeta. unfold handleMessage. split; [| split; [| split; [| split]]].
  - destruct payload as [[| | | | items | props] |]; done.
  - intros Hlist Hupdate Herror. destruct payload as [payload |]; [| done].
    destruct (negb (isRecord (Some payload))); [done |].
    cbv zeta. by rewrite Hlist, Hupdate, Herror.
  - intros Hlist. destruct payload as [payload |]; [| done].
    destruct (negb (isRecord (Some payload))); [done |].
    cbv zeta. rewrite Hlist.
    destruct (type_is _ "server:update"), (type_is _ "server:error");
      destruct (parseServerUpdate (prop (Some payload) "server"));
      destruct (parseServerError (Some payload));
      unfold applyServerUpdate;
      rewrite ?applyServerError_ids, ?applyServerUpdates_ids; done.
  - intros Hrecord Hlist. destruct payload as [payload |]; [| done].
    rewrite Hrecord. cbn [negb]. cbv zeta. rewrite Hlist.
    apply type_is_eq in Hlist. rewrite Hlist. cbn [type_is String.eqb Ascii.eqb Bool.eqb].
    split.
    + by intros ->.
    + intros Hne.
      destruct (parseServerList (prop (Some payload) "servers")) as [| item rest] eqn:Hparse;
        [done |].
      by rewrite applyServerList_ids.
  - intros data. unfold fetchStats.
    destruct (parseStatsList data); [done |]. by rewrite applyServerUpdates_ids.
Qed.

(** The unknown frame of the push session, on the registry [a, b]. *)
Lemma only_lists_change_membership_witness :
  handleMessage (Some (JObject [("type", JString "ping")])) 1700000001000%float
    (fun _ => 1700000001000%float) [entry_a; entry_b] = [entry_a; entry_b].
Proof.
  apply (proj1 (proj2 (only_lists_change_membership
                         (Some (JObject [("type", JString "ping")])) 1700000001000%float
                         (fun _ => 1700000001000%float) [entry_a; entry_b])));
    reflexivity.
Defined.

(** X20: the two channels are interchangeable for a stats record.  A poll
    response that holds the single entry [entry] changes the registry
    exactly as the push frame [{type: "server:update", server: entry}] does,
    provided the entry does not rely on the [id] fallback that only the poll
    parser has. *)
Theorem poll_acts_as_push (entry : json) (timestamp : number) (Date_now : nat -> number)
    (servers : list ServerEntry.t) :
  (toString (prop (Some entry) "server_id") = None ->
   toString (prop (Some entry) "id") = None) ->
  fetchStats (Some (JObject [("servers", JArray [entry])])) timestamp servers =
    handleMessage (Some (JObject [("type", JString "server:update"); ("server", entry)]))
      timestamp Date_now servers.
Proof.
  intros Hfallback.
  assert (parseStatsList (Some (JObject [("servers", JArray [entry])])) =
            option_list (parseServerUpdate (Some entry))) as Hparse.
  { unfold parseStatsList.
    change (isRecord (Some (JObject [("servers", JArray [entry])]))) with true.
    change (prop (Some (JObject [("servers", JArray [entry])])) "servers")
      with (Some (JArray [entry])).
    cbn [negb foldl]. by rewrite parseStatsList_step. }
  unfold fetchStats, handleMessage. rewrite Hparse.
  change (isRecord (Some (JObject [("type", JString "server:update"); ("server", entry)])))
    with true.
  change (prop (Some (JObject [("type", JString "server:update"); ("server", entry)]))
            "type") with (Some (JString "server:update")).
  change (prop (Some (JObject [("type", JString "server:update"); ("server", entry)]))
            "server") with (Some entry).
  cbv zeta.
  change (type_is (toString (Some (JString "server:update"))) "list:update") with false.
  change (type_is (toString (Some (JString "server:update"))) "server:update") with true.
  change (type_is (toString (Some (JString "server:update"))) "server:error") with false.
  cbn [negb]. by destruct (parseServerUpdate (Some entry)).
Qed.

Lemma poll_acts_as_push_witness :
  fetchStats (Some (JObject [("servers", JArray [frame_a_cpu])])) 1700000060000%float
    [entry_a_failed] =
  handleMessage (Some (JObject [("type", JString "server:update"); ("server", frame_a_cpu)]))
    1700000060000%float (fun _ => 1700000060000%float) [entry_a_failed].
Proof.
  apply (poll_acts_as_push frame_a_cpu). discriminate.
Defined.

(** ** Paging and rotation *)

Lemma chunk_concat_any {T} (items : list T) (size : nat) : concat (chunk items size) = items.
Proof.
  destruct size as [| size']; [simpl; by rewrite app_nil_r |].
  destruct (decide (items = [])) as [-> | Hne]; [by rewrite chunk_empty_items |].
  rewrite chunk_nonempty_items by done. by rewrite (chunk_loop_concat items size' _ 0 eq_refl).
Qed.

Lemma chunk_length_pos {T} (items : list T) (size : nat) : 0 < length (chunk items size).
Proof.
  destruct size as [| size']; [simpl; lia |].
  destruct (decide (items = [])) as [-> | Hne]; [rewrite chunk_empty_items; simpl; lia |].
  rewrite chunk_nonempty_items by done.
  rewrite chunk_loop_step by (destruct items; [done | simpl; lia]). simpl. lia.
Qed.

(** X13: whatever the page size (zero included), the registry and the page
    index, the page on screen exists: the normalized index points at a page
    of [chunk], so the [?? []] fallback is never taken, also right after the
    number of pages has shrunk; and every server of the registry is on some
    page. *)
Theorem active_page_exists {T} (items : list T) (size pageIndex : nat) :
  let pages := chunk items size in
  normalizedPageIndex pages pageIndex < length pages /\
  (exists page, pages !! normalizedPageIndex pages pageIndex = Some page /\
     activePage pages pageIndex = page) /\
  (forall x, x ∈ items -> exists j page, pages !! j = Some page /\ x ∈ page).
Proof.
  cbv zeta. pose proof (chunk_length_pos items size) as Hpos.
  assert (normalizedPageIndex (chunk items size) pageIndex < length (chunk items size))
    as Hlt.
  { unfold normalizedPageIndex.
    destruct (Nat.eqb_spec (length (chunk items size)) 0) as [Hz | Hnz]; [lia |].
    by apply Nat.mod_upper_bound. }
  split; [done |]. split.
  - apply lookup_lt_is_Some_2 in Hlt as [page Hpage].
    exists page. split; [done |]. unfold activePage. by rewrite Hpage.
  - intros x Hx. rewrite <- (chunk_concat_any items size) in Hx.
    apply list_elem_of_In, in_concat in Hx as (page & Hpage & Hx).
    apply list_elem_of_In, list_elem_of_lookup in Hpage as (j & Hj).
    exists j, page. split; [done |]. by apply list_elem_of_In.
Qed.

Lemma rotate_iter {T} (pages : list (list T)) (k : nat) :
  1 < length pages -> Nat.iter k (rotate pages) 0 = k mod length pages.
Proof.
  intros Hmany. induction k as [| k IH].
  - simpl. by rewrite Nat.Div0.mod_0_l.
  - simpl. rewrite IH. unfold rotate.
    destruct (Nat.leb_spec (length pages) 1) as [Hle | _]; [lia |].
    rewrite Nat.Div0.add_mod_idemp_l. f_equal. lia.
Qed.

(** X14: with more than one page the rotation shows every page in turn and
    then starts over: after [k] ticks from the start the index is
    [k mod pages.length], so page [j] is on screen after [j] ticks and the
    first page again after [pages.length] ticks.  With a single page the
    index does not move. *)
Theorem rotation_visits_every_page {T} (pages : list (list T)) :
  (length pages <= 1 -> forall pageIndex, rotate pages pageIndex = pageIndex) /\
  (1 < length pages ->
     (forall k, Nat.iter k (rotate pages) 0 = k mod length pages) /\
     (forall j page, pages !! j = Some page ->
        activePage pages (Nat.iter j (rotate pages) 0) = page) /\
     Nat.iter (length pages) (rotate pages) 0 = 0).
Proof.
  split.
  - intros Hfew pageIndex. unfold rotate.
    destruct (Nat.leb_spec (length pages) 1); [done | lia].
  - intros Hmany. split; [intros k; by apply rotate_iter |]. split.
    + intros j page Hj. rewrite rotate_iter by done.
      pose proof (lookup_lt_Some _ _ _ Hj) as Hlt.
      unfold activePage, normalizedPageIndex.
      destruct (Nat.eqb_spec (length pages) 0) as [Hz | _]; [lia |].
      rewrite Nat.Div0.mod_mod, Nat.mod_small by done. by rewrite Hj.
    + rewrite rotate_iter by done. by apply Nat.Div0.mod_same.
Qed.

(** Seven servers on pages of three: the third page is on screen after two
    ticks, the first one again after three. *)
Lemma rotation_visits_every_page_witness :
  activePage (chunk [1; 2; 3; 4; 5; 6; 7] 3)
    (Nat.iter 2 (rotate (chunk [1; 2; 3; 4; 5; 6; 7] 3)) 0) = [7] /\
  Nat.iter 3 (rotate (chunk [1; 2; 3; 4; 5; 6; 7] 3)) 0 = 0.
Proof.
  assert (1 < length (chunk [1; 2; 3; 4; 5; 6; 7] 3)) as Hmany by (vm_compute; lia).
  destruct (proj2 (rotation_visits_every_page (chunk [1; 2; 3; 4; 5; 6; 7] 3)) Hmany)
    as (_ & Hshown & Hcycle).
  split; [by apply Hshown | exact Hcycle].
Defined.

(** ** Alert tone *)

Lemma alertToneRun_bound (renders : list (bool * bool)) :
  forall alertWasActive,
    length (List.filter (fun played : bool => played) (alertToneRun renders alertWasActive).1)
    <= length (List.filter (fun r : bool * bool => negb r.1 && negb r.2) renders)
       + (if alertWasActive then 0 else 1).
Proof.
  induction renders as [| [demoMode alert] rest IH]; intros active; simpl.
  - destruct active; lia.
  - unfold alertToneEffect.
    destruct demoMode, alert, active; simpl;
      match goal with
      | |- context [alertToneRun rest ?a] =>
          specialize (IH a); destruct (alertToneRun rest a) as [plays final]
      end; simpl in *; lia.
Qed.

Lemma alertToneRun_plays (renders : list (bool * bool)) :
  forall alertWasActive i,
    (alertToneRun renders alertWasActive).1 !! i = Some true ->
    renders !! i = Some (false, true).
Proof.
  induction renders as [| [demoMode alert] rest IH]; intros active i; simpl.
  - by rewrite lookup_nil.
  - unfold alertToneEffect.
    destruct demoMode, alert, active; simpl;
      match goal with
      | |- context [alertToneRun rest ?a] =>
          specialize (IH a); destruct (alertToneRun rest a) as [plays final]
      end; simpl in *; destruct i as [| i]; simpl; try done; apply IH.
Qed.

(** X15: the alert tone is edge-triggered.  Over any sequence of renders,
    from any state, the tone plays only at a render that is out of demo mode
    and has an alert; and the number of tones is at most the number of
    renders at which the alert was clear (out of demo mode), plus one if no
    alert was active at the start: an alert that stays up rings once. *)
Theorem alert_tone_once_per_episode (renders : list (bool * bool)) (alertWasActive : bool) :
  let plays := (alertToneRun renders alertWasActive).1 in
  length plays = length renders /\
  (forall i, plays !! i = Some true -> renders !! i = Some (false, true)) /\
  length (List.filter (fun played : bool => played) plays)
    <= length (List.filter (fun r : bool * bool => negb r.1 && negb r.2) renders)
       + (if alertWasActive then 0 else 1) /\
  (alertWasActive = true ->
   (forall r, r ∈ renders -> r.2 = true) ->
   forall played, played ∈ plays -> played = false).
Proof.
  cbv zeta. split; [| split; [| split]].
  - revert alertWasActive. induction renders as [| [demoMode alert] rest IH];
      intros active; [done |].
    simpl. destruct (alertToneEffect demoMode alert active) as [played active'].
    specialize (IH active'). destruct (alertToneRun rest active'). simpl in *. by f_equal.
  - apply alertToneRun_plays.
  - apply alertToneRun_bound.
  - intros -> Hup played Hplayed. destruct played; [| done]. exfalso.
    pose proof (alertToneRun_bound renders true) as Hbound.
    assert (List.filter (fun r : bool * bool => negb r.1 && negb r.2) renders = []) as Hnone.
    { clear Hbound Hplayed. induction renders as [| r rest IH]; [done |]. simpl.
      rewrite (Hup r) by left. rewrite andb_false_r. apply IH.
      intros r' Hr'. apply Hup. by right. }
    rewrite Hnone in Hbound. simpl in Hbound.
    apply list_elem_of_In in Hplayed.
    assert (In true (List.filter (fun played : bool => played)
                       (alertToneRun renders true).1)) as Hin by (by apply filter_In).
    destruct (List.filter _ (alertToneRun renders true).1); [done | simpl in Hbound; lia].
Qed.

(** An alert that comes up, stays for three renders, clears and comes back:
    two tones. *)
Lemma alert_tone_once_per_episode_witness :
  (alertToneRun [(false, true); (false, true); (false, true); (false, false); (false, true)]
     false).1 = [true; false; false; false; true] /\
  forall played,
    played ∈ (alertToneRun [(false, true); (true, true); (false, true)] true).1 ->
    played = false.
Proof.
  split; [reflexivity |].
  apply (proj2 (proj2 (proj2 (alert_tone_once_per_episode
                                [(false, true); (true, true); (false, true)] true)))
           eq_refl).
  intros r Hr. repeat (apply elem_of_cons in Hr as [-> | Hr]; [done |]).
  by apply elem_of_nil in Hr.
Defined.

(** ** Aggregates *)

Lemma aggregate_fold_counts (now : number) (servers : list ServerEntry.t) :
  forall acc,
    let totals := foldl (aggregate_step now) acc servers in
    Totals.online totals = Totals.online acc + count_status StatusKey.ok servers now /\
    Totals.warn totals = Totals.warn acc + count_status StatusKey.warn servers now /\
    Totals.offline totals =
      Totals.offline acc + count_status StatusKey.down servers now
      + count_status StatusKey.stale servers now /\
    Totals.disabled totals =
      Totals.disabled acc + count_status StatusKey.disabled servers now /\
    Totals.cpuCount totals =
      Totals.cpuCount acc
      + length (List.filter
                  (fun server =>
                     bool_decide (is_Some (stats_field ServerStats.cpuUsage
                                             (ServerEntry.stats server)))) servers).
Proof.
  unfold count_status. induction servers as [| server rest IH]; intros acc.
  - simpl. lia.
  - cbn [foldl]. cbv zeta in IH |- *.
    destruct (IH (aggregate_step now acc server)) as (-> & -> & -> & -> & ->).
    cbn [aggregate_step Totals.online Totals.warn Totals.offline Totals.disabled
         Totals.cpuCount List.filter].
    destruct (StatusInfo.key (getStatus server now));
      destruct (stats_field ServerStats.cpuUsage (ServerEntry.stats server));
      simpl; lia.
Qed.

Lemma status_counts_partition (servers : list ServerEntry.t) (now : number) :
  count_status StatusKey.ok servers now + count_status StatusKey.warn servers now
  + count_status StatusKey.down servers now + count_status StatusKey.stale servers now
  + count_status StatusKey.disabled servers now + count_status StatusKey.idle servers now
  = length servers.
Proof.
  unfold count_status. induction servers as [| server rest IH]; [done |].
  cbn [List.filter]. destruct (StatusInfo.key (getStatus server now)); simpl; lia.
Qed.

(** X16: the counters of the header add up.  [online] counts the servers
    shown as Nominal, [warn] those shown as Hot, [offline] those shown as
    Error or Stale, [disabled] the disabled ones; a server is counted at most
    once, and the servers counted nowhere are exactly those still Waiting.
    The average CPU is absent exactly when no server reports a CPU reading,
    so it is never a division by zero. *)
Theorem aggregates_counts (servers : list ServerEntry.t) (now : number) :
  let a := aggregates servers now in
  Aggregates.online a = count_status StatusKey.ok servers now /\
  Aggregates.warn a = count_status StatusKey.warn servers now /\
  Aggregates.offline a =
    count_status StatusKey.down servers now + count_status StatusKey.stale servers now /\
  Aggregates.disabled a = count_status StatusKey.disabled servers now /\
  Aggregates.online a + Aggregates.warn a + Aggregates.offline a + Aggregates.disabled a
    + count_status StatusKey.idle servers now = length servers /\
  (Aggregates.avgCpu a = None <->
     forall server, server ∈ servers ->
       stats_field ServerStats.cpuUsage (ServerEntry.stats server) = None).
Proof.
  cbv zeta. unfold aggregates. cbn [Aggregates.online Aggregates.warn Aggregates.offline
    Aggregates.disabled Aggregates.avgCpu].
  destruct (aggregate_fold_counts now servers Totals.zero) as (-> & -> & -> & -> & Hcpu).
  cbn [Totals.zero Totals.online Totals.warn Totals.offline Totals.disabled Totals.cpuCount]
    in *.
  pose proof (status_counts_partition servers now) as Hsum.
  do 4 (split; [lia |]). split; [lia |].
  rewrite Nat.add_0_l in Hcpu. unfold average. rewrite Hcpu. clear Hcpu. split.
  - intros Hnone server Hin.
    destruct (stats_field ServerStats.cpuUsage (ServerEntry.stats server)) as [c |] eqn:Hc;
      [| done].
    exfalso.
    assert (In server (List.filter
              (fun server =>
                 bool_decide (is_Some (stats_field ServerStats.cpuUsage
                                         (ServerEntry.stats server)))) servers)) as Hfiltered.
    { apply filter_In. split; [by apply list_elem_of_In |]. rewrite Hc.
      by apply bool_decide_eq_true. }
    destruct (List.filter _ servers); [done | discriminate Hnone].
  - intros Hall.
    assert (List.filter
              (fun server =>
                 bool_decide (is_Some (stats_field ServerStats.cpuUsage
                                         (ServerEntry.stats server)))) servers = []) as ->.
    { clear Hsum. induction servers as [| server rest IH]; [done |]. simpl.
      rewrite (Hall server) by left.
      rewrite bool_decide_eq_false_2 by (by intros [? ?]).
      apply IH. intros s Hs. apply Hall. by right. }
    done.
Qed.

(** The registry of the examples: one server Nominal, one in Error, one
    still Waiting, one disabled. *)
Lemma aggregates_counts_witness :
  let a := aggregates [entry_a; entry_a_failed; entry_b; disabled_with_error]
             1700000000500%float in
  (Aggregates.online a, Aggregates.warn a, Aggregates.offline a, Aggregates.disabled a)
    = (1, 0, 1, 1) /\
  Aggregates.online a + Aggregates.warn a + Aggregates.offline a + Aggregates.disabled a
    + count_status StatusKey.idle [entry_a; entry_a_failed; entry_b; disabled_with_error]
        1700000000500%float = 4.
Proof.
  split; [reflexivity |].
  apply (proj1 (proj2 (proj2 (proj2 (proj2
           (aggregates_counts [entry_a; entry_a_failed; entry_b; disabled_with_error]
              1700000000500%float)))))).
Defined.

(** ** Connection manager: teardown *)

Lemma handle_torn_down (WS_URL : string) (c : Connection.t) (e : ws_event) :
  Connection.shouldReconnect c = false -> Connection.reconnectTimer c = None ->
  Connection.shouldReconnect (handle WS_URL c e) = false /\
  Connection.reconnectTimer (handle WS_URL c e) = None /\
  (e <> ws_onopen -> Connection.backoff (handle WS_URL c e) = Connection.backoff c).
Proof.
  intros Hagain Htimer. destruct e as [| | code | |]; simpl; try done.
  - rewrite Hagain. simpl. done.
  - unfold connect. by destruct (negb _).
Qed.

(** X17: teardown is final.  Once the effect has been cleaned up, whatever
    events still arrive (a late close of the old socket, of any code, an
    error, even a late open), no reconnect is ever scheduled again, and a
    close no longer grows the backoff. *)
Theorem teardown_is_final (WS_URL : string) (before after : list ws_event) :
  let c := run_events WS_URL (before ++ cleanup :: after) in
  Connection.shouldReconnect c = false /\
  Connection.reconnectTimer c = None /\
  forall e,
    Connection.reconnectTimer (handle WS_URL c e) = None /\
    (e <> ws_onopen ->
       Connection.backoff (handle WS_URL c e) = Connection.backoff c).
Proof.
  cbv zeta.
  assert (Connection.shouldReconnect (run_events WS_URL (before ++ cleanup :: after)) = false
          /\ Connection.reconnectTimer (run_events WS_URL (before ++ cleanup :: after)) = None)
    as [Hagain Htimer].
  { unfold run_events. rewrite foldl_app. simpl.
    generalize (foldl (handle WS_URL) (initial WS_URL) before). intros c0.
    induction after as [| e after IH] using rev_ind; [done |].
    rewrite foldl_app. simpl. destruct IH as [Hagain Htimer].
    destruct (handle_torn_down WS_URL _ e Hagain Htimer) as (? & ? & _). done. }
  split; [done |]. split; [done |]. intros e.
  destruct (handle_torn_down WS_URL _ e Hagain Htimer) as (_ & ? & ?). done.
Qed.

(** A flapping connection is torn down; the old socket then closes
    abnormally: nothing is scheduled. *)
Lemma teardown_is_final_witness :
  Connection.reconnectTimer
    (run_events "ws://localhost:8000/ws" (flapping ++ [cleanup; ws_onclose 1006%float]))
    = None.
Proof.
  apply (proj1 (proj2 (teardown_is_final "ws://localhost:8000/ws" flapping
                         [ws_onclose 1006%float]))).
Defined.

(** ** Throttle: the records kept *)

(** X18: after every run over an alert set with distinct ids, the throttle
    holds a record for exactly the ids of that set: every server with a PM2
    issue has one (it was just notified, or it was notified before), and no
    other id has.  With no issue at all the map is emptied and no toast is
    shown. *)
Theorem throttle_holds_active_ids (R : number) (issues : list Pm2Issue.t) (nowMs : number)
    (pm2Toast : gmap string ToastRecord.t) :
  NoDup (Pm2Issue.id <$> issues) ->
  (forall id, is_Some ((pm2ToastEffect R issues nowMs pm2Toast).1 !! id) <->
     id ∈ Pm2Issue.id <$> issues) /\
  (forall issue, issue ∈ (pm2ToastEffect R issues nowMs pm2Toast).2 -> issue ∈ issues) /\
  (issues = [] -> pm2ToastEffect R issues nowMs pm2Toast = (∅, [])).
Proof.
  intros Hnd. split; [| split].
  - intros id. split.
    + intros Hsome. destruct (decide (id ∈ Pm2Issue.id <$> issues)) as [| Hnot]; [done |].
      rewrite (effect_dropped R nowMs issues pm2Toast id Hnot) in Hsome.
      by destruct Hsome.
    + intros Hid. apply list_elem_of_fmap in Hid as (issue & -> & Hin).
      rewrite (effect_record R nowMs issues pm2Toast issue Hnd Hin).
      destruct (notifies R pm2Toast nowMs issue) eqn:Hn; [by eexists |].
      unfold notifies, shouldNotify in Hn.
      destruct (pm2Toast !! Pm2Issue.id issue); [by eexists | done].
  - intros issue. rewrite effect_toasts by done. rewrite list_elem_of_filter. tauto.
  - by intros ->.
Qed.

(** Two servers had records; only ["api-1"] still has an issue: its record
    stays, the other one goes. *)
Lemma throttle_holds_active_ids_witness :
  is_Some ((pm2ToastEffect 600000%float [issue_api 1 ["worker"]] 1700000120000%float
              (<["api-1" := ToastRecord.mk "1:worker" 1700000000000%float]>
                 (<["db-1" := ToastRecord.mk "2:a|b" 1700000000000%float]> ∅))).1
           !! "api-1") /\
  ~ is_Some ((pm2ToastEffect 600000%float [issue_api 1 ["worker"]] 1700000120000%float
                (<["api-1" := ToastRecord.mk "1:worker" 1700000000000%float]>
                   (<["db-1" := ToastRecord.mk "2:a|b" 1700000000000%float]> ∅))).1
             !! "db-1").
Proof.
  assert (NoDup (Pm2Issue.id <$> [issue_api 1 ["worker"]])) as Hnd by compute_done.
  split.
  - apply (proj1 (throttle_holds_active_ids 600000%float [issue_api 1 ["worker"]]
                    1700000120000%float _ Hnd)). set_solver.
  - rewrite (proj1 (throttle_holds_active_ids 600000%float [issue_api 1 ["worker"]]
                      1700000120000%float _ Hnd)). set_solver.
Defined.
